(** * Node.py: the factor-graph nodes of the message-passing engine

    A shallow embedding of [Node], [Variable] and [Factor] of [src/Node.py].

    - Python objects live in a store.  A node is a record held at an address;
      the three message lists [in_msgs], [out_msgs] and [prev_out_msgs] are
      list objects of their own, held at addresses too, so that the copy
      [self.out_msgs[:]] and the assignment [self.prev_out_msgs = ...] are
      an allocation and a pointer update, as in Python.  The list
      [neighbors] is created by [__init__] and only ever appended to in
      place; it is kept inline in the node record.
    - Every method is a computation in a state-and-exception monad: the
      store is threaded through, and a raised exception keeps the store as
      it was when the exception was raised.
    - Numbers are exact rationals ([Qc]).  A float is the rational it
      denotes: rounding is not modelled.  An integer is the rational it
      denotes: the store does not model the wrap-around of numpy's 64-bit
      integer arithmetic.  The section on integer data has it for [np.sum]
      and for line 124, and the statements that fix the value of an
      [np.sum] ask that no integer of the computation leaves the int64
      range ([int64_safe]). *)

From Stdlib Require Import QArith Qcanon Qcabs.
From stdpp Require Import numbers.
From stdpp Require Import base option list gmap strings.

(** ** Numbers *)

Definition Qcmax (a b : Qc) : Qc := if decide (a < b)%Qc then b else a.
Definition Qcmin (a b : Qc) : Qc := if decide (b < a)%Qc then b else a.

(** [np.sum] of a sequence: the sum of its floats, and the sum of its
    integers where the 64-bit sum does not wrap around ([np_sum_int64]
    below is the sum of integers as numpy computes it). *)
Definition np_sum (l : list Qc) : Qc := foldr Qcplus 0%Qc l.

(** [np.maximum(a, 0)] on an array. *)
Definition np_maximum0 (l : list Qc) : list Qc := (λ x, Qcmax x 0%Qc) <$> l.

(** The builtin [max] of a non-empty list: the first largest element;
    [None] stands for the [ValueError] on an empty list. *)
Definition py_max (l : list Qc) : option Qc :=
  match l with
  | [] => None
  | x :: r => Some (foldl (λ m y, if decide (m < y)%Qc then y else m) x r)
  end.

(** [Node.epsilon = 10 ** (-4)]. *)
Definition epsilon : Qc := Q2Qc (1 # 10000).

(** ** Integer data

    A message, a damping value and an entry of the matrix may be integers.
    [np.sum] of a list of Python ints that fit in 64 bits is the sum of an
    int64 array: it wraps around.  It returns a numpy int64, and [*] and
    [+] between a numpy int64 and an int that fits in 64 bits wrap around
    as well; [*], [+] and [-] between Python ints are exact. *)

Definition fits_int64 (z : Z) : Prop := (- 2 ^ 63 ≤ z < 2 ^ 63)%Z.

Global Instance fits_int64_dec z : Decision (fits_int64 z).
Proof. unfold fits_int64. apply _. Defined.

(** The value of a 64-bit two's complement word. *)
Definition int64_wrap (z : Z) : Z := ((z + 2 ^ 63) `mod` 2 ^ 64 - 2 ^ 63)%Z.

(** [np.sum] of a list of Python ints that fit in 64 bits. *)
Definition np_sum_int64 (l : list Z) : Z := int64_wrap (foldr Z.add 0%Z l).

(** Line 124 of [Variable.message],
    [(self.damp * self.prev_out_msgs[i]) + ((1 - self.damp) * np.sum(all_msgs))],
    for Python ints [damp] and [prev] and a list [all_msgs] of Python ints,
    all of which fit in 64 bits: the product [damp * prev] and the
    difference [1 - damp] are those of Python ints; the sum is a numpy
    int64, and so are the product with it and the final sum. *)
Definition Variable_out_int64 (damp prev : Z) (all_msgs : list Z) : Z :=
  int64_wrap (damp * prev + int64_wrap ((1 - damp) * np_sum_int64 all_msgs)).

(** A number that is an integer fits in 64 bits. *)
Definition int64_safe (x : Qc) : Prop :=
  Qden x = 1%positive → fits_int64 (Qnum x).

Global Instance int64_safe_dec x : Decision (int64_safe x).
Proof. unfold int64_safe. apply _. Defined.

(** The operands and the results of [damp * prev + (1 - damp) * x], where
    they are integers, fit in 64 bits. *)
Definition damping_int64_safe (d p x : Qc) : Prop :=
  Forall int64_safe
    [d; (1 - d)%Qc; p; x; (d * p)%Qc; ((1 - d) * x)%Qc;
     (d * p + (1 - d) * x)%Qc].

Global Instance damping_int64_safe_dec d p x :
  Decision (damping_int64_safe d p x).
Proof. unfold damping_int64_safe. apply _. Defined.

(** The results of the column-budget rule up to [alpha], where they are
    integers, fit in 64 bits: the entries of [dis_eta], the sum, [-reg]
    and [-reg + sum_value]. *)
Definition column_budget_int64_safe (reg : Qc) (dis_eta : list Qc) : Prop :=
  Forall int64_safe dis_eta ∧
  Forall int64_safe
    [np_sum (np_maximum0 dis_eta); reg; (- reg)%Qc;
     (- reg + np_sum (np_maximum0 dis_eta))%Qc].

Global Instance column_budget_int64_safe_dec reg dis_eta :
  Decision (column_budget_int64_safe reg dis_eta).
Proof. unfold column_budget_int64_safe. apply _. Defined.

(** ** Exceptions, addresses, arrays *)

Inductive exn : Type :=
  | ValueError
  | IndexError
  | AttributeError
  | DanglingRef.    (* an address with no object: not reachable in Python *)

Global Instance exn_eq_dec : EqDecision exn.
Proof. solve_decision. Defined.

Definition loc : Type := nat.

(** A two-dimensional numpy array: its rows and the length that every row
    has, [shape[1]], which an array without rows has as well. *)
Record ndarray : Type := mkArray {
  array_rows : list (list Qc);
  array_shape1 : nat
}.

(** [d.shape[0]] and [d.shape[1]]. *)
Definition shape0 (d : ndarray) : nat := length (array_rows d).
Definition shape1 (d : ndarray) : nat := array_shape1 d.

(** Resolution of one numpy index against an axis of length [n]:
    negative indices count from the end. *)
Definition np_axis (n : nat) (i : Z) : option nat :=
  if decide (0 ≤ i < Z.of_nat n)%Z then Some (Z.to_nat i)
  else if decide (- Z.of_nat n ≤ i < 0)%Z then Some (Z.to_nat (i + Z.of_nat n))
  else None.

(** [d[i, j]]: both indices are resolved against the shape. *)
Definition np_get2 (d : ndarray) (i j : Z) : option Qc :=
  r ← np_axis (shape0 d) i;
  c ← np_axis (shape1 d) j;
  row ← array_rows d !! r;
  row !! c.

(** ** Nodes and the store *)

Inductive NodeClass : Type :=
  | VariableNode (i_index j_index : Z)
  | FactorNode (dismatrix : ndarray) (reg : Qc) (M N : nat).

Record Node : Type := mkNode {
  nodetype : string;
  nid : Z;
  damp : Qc;
  neighbors : list loc;
  in_msgs : loc;
  out_msgs : loc;
  prev_out_msgs : loc;
  cls : NodeClass
}.

Record store : Type := mkStore {
  nodes : gmap loc Node;
  lists : gmap loc (list Qc)
}.

Definition set_neighbors (n : Node) (l : list loc) : Node :=
  mkNode (nodetype n) (nid n) (damp n) l
         (in_msgs n) (out_msgs n) (prev_out_msgs n) (cls n).

Definition set_prev_out_msgs (n : Node) (p : loc) : Node :=
  mkNode (nodetype n) (nid n) (damp n) (neighbors n)
         (in_msgs n) (out_msgs n) p (cls n).

(** ** The monad *)

Inductive outcome (A : Type) : Type :=
  | Ok (a : A)
  | Raise (e : exn).
Arguments Ok {A} a.
Arguments Raise {A} e.

Definition M (A : Type) : Type := store → outcome A * store.

Definition ret {A} (a : A) : M A := λ σ, (Ok a, σ).
Definition raise {A} (e : exn) : M A := λ σ, (Raise e, σ).
Definition bind {A B} (m : M A) (k : A → M B) : M B :=
  λ σ, match m σ with
       | (Ok a, σ') => k a σ'
       | (Raise e, σ') => (Raise e, σ')
       end.

Global Instance M_ret : MRet M := @ret.
Global Instance M_bind : MBind M := λ A B k m, bind m k.

(** [for i in ix: body(i)]. *)
Fixpoint for_each (ix : list nat) (body : nat → M unit) : M unit :=
  match ix with
  | [] => ret ()
  | i :: ix' => body i ≫= λ _, for_each ix' body
  end.

(** [[f(k) for k in ks]]. *)
Fixpoint comprehension {A} (ks : list nat) (f : nat → M A) : M (list A) :=
  match ks with
  | [] => ret []
  | k :: ks' => x ← f k; xs ← comprehension ks' f; ret (x :: xs)
  end.

(** [x] if present, the exception [e] otherwise. *)
Definition or_raise {A} (e : exn) (x : option A) : M A :=
  match x with Some a => ret a | None => raise e end.

(** *** Store primitives *)

Definition get_node (a : loc) : M Node :=
  λ σ, or_raise DanglingRef (nodes σ !! a) σ.

Definition set_node (a : loc) (n : Node) : M unit :=
  λ σ, (Ok (), mkStore (<[a := n]> (nodes σ)) (lists σ)).

Definition read_list (l : loc) : M (list Qc) :=
  λ σ, or_raise DanglingRef (lists σ !! l) σ.

Definition write_list (l : loc) (v : list Qc) : M unit :=
  λ σ, (Ok (), mkStore (nodes σ) (<[l := v]> (lists σ))).

(** A new list object holding [v]. *)
Definition alloc_list (v : list Qc) : M loc :=
  λ σ, let l := fresh (dom (lists σ)) in
       (Ok l, mkStore (nodes σ) (<[l := v]> (lists σ))).

(** A new node object. *)
Definition alloc_node (n : Node) : M loc :=
  λ σ, let a := fresh (dom (nodes σ)) in
       (Ok a, mkStore (<[a := n]> (nodes σ)) (lists σ)).

(** [l[i]] on a list object. *)
Definition list_getitem (l : loc) (i : nat) : M Qc :=
  v ← read_list l; or_raise IndexError (v !! i).

(** [l[i] = x] on a list object. *)
Definition list_setitem (l : loc) (i : nat) (x : Qc) : M unit :=
  v ← read_list l;
  if decide (i < length v) then write_list l (<[i := x]> v)
  else raise IndexError.

(** [l.append(x)] on a list object. *)
Definition list_append (l : loc) (x : Qc) : M unit :=
  v ← read_list l; write_list l (v ++ [x]).

(** [del l[i]] on a local list. *)
Definition py_del {A} (l : list A) (i : nat) : M (list A) :=
  if decide (i < length l) then ret (delete i l) else raise IndexError.

(** [l.index(x)]: the first position of [x]. *)
Fixpoint py_index (l : list loc) (x : loc) : option nat :=
  match l with
  | [] => None
  | y :: l' => if decide (y = x) then Some 0%nat else S <$> py_index l' x
  end.

(** ** class Node *)

Definition VALID_NODES : list string := ["X"; "IJ"; "IC"; "JF"]%string.

Definition validTypes (arg : string) : M unit :=
  if decide (arg ∈ VALID_NODES) then ret () else raise ValueError.

(** [Node.__init__]; [c] carries the attributes that the subclass
    constructor adds. *)
Definition Node_init (c : NodeClass) (node_type : string) (nid : Z) (damp : Qc)
    : M loc :=
  i ← alloc_list [];
  o ← alloc_list [];
  p ← alloc_list [];
  self ← alloc_node (mkNode node_type nid damp [] i o p c);
  validTypes node_type;;
  ret self.

Definition neighbors_append (self node : loc) : M unit :=
  n ← get_node self;
  set_node self (set_neighbors n (neighbors n ++ [node])).

Definition addNeighbors (self node : loc) : M unit :=
  neighbors_append self node;;
  n ← get_node self;
  list_append (in_msgs n) 0%Qc;;
  list_append (out_msgs n) 0%Qc;;
  list_append (prev_out_msgs n) 0%Qc;;
  neighbors_append node self;;
  m ← get_node node;
  list_append (in_msgs m) 0%Qc;;
  list_append (out_msgs m) 0%Qc;;
  list_append (prev_out_msgs m) 0%Qc.

Definition receiveMsg (self sender : loc) (msg : Qc) : M unit :=
  n ← get_node self;
  index ← or_raise ValueError (py_index (neighbors n) sender);
  list_setitem (in_msgs n) index msg.

Definition sendMsg (self : loc) : M unit :=
  n ← get_node self;
  for_each (seq 0 (length (neighbors n))) (λ i,
    n ← get_node self;
    nb ← or_raise IndexError (neighbors n !! i);
    v ← list_getitem (out_msgs n) i;
    receiveMsg nb self v).

Fixpoint checkConvergence_loop (self : loc) (ix : list nat) : M bool :=
  match ix with
  | [] => ret true
  | i :: ix' =>
      n ← get_node self;
      o ← list_getitem (out_msgs n) i;
      p ← list_getitem (prev_out_msgs n) i;
      let delta := Qcabs (o - p) in
      if decide (epsilon < delta)%Qc then ret false
      else checkConvergence_loop self ix'
  end.

Definition checkConvergence (self : loc) : M bool :=
  n ← get_node self;
  o ← read_list (out_msgs n);
  checkConvergence_loop self (seq 0 (length o)).

(** ** class Variable *)

Definition Variable_init (node_type : string) (nid i j : Z) (damp : Qc) : M loc :=
  Node_init (VariableNode i j) node_type nid damp.

Definition Variable_message (self : loc) : M unit :=
  n ← get_node self;
  o ← read_list (out_msgs n);
  prev_out_msg ← alloc_list o;
  set_node self (set_prev_out_msgs n prev_out_msg);;
  n ← get_node self;
  inp ← read_list (in_msgs n);
  for_each (seq 0 (length inp)) (λ i,
    n ← get_node self;
    all_msgs ← read_list (in_msgs n);
    all_msgs ← py_del all_msgs i;
    p ← list_getitem (prev_out_msgs n) i;
    list_setitem (out_msgs n) i
      (damp n * p + (1 - damp n) * np_sum all_msgs)%Qc).

(** ** class Factor *)

Definition Factor_init (nodetype : string) (nid : Z) (varnodes : list loc)
    (d : ndarray) (r : Qc) (damp : Qc) : M loc :=
  self ← Node_init (FactorNode d r (shape0 d) (shape1 d)) nodetype nid damp;
  foldr (λ node k, addNeighbors self node;; k) (ret ()) varnodes;;
  ret self.

(** The attributes [i_index] and [j_index] exist on Variable nodes only. *)
Definition i_index (a : loc) : M Z :=
  n ← get_node a;
  match cls n with
  | VariableNode i _ => ret i
  | FactorNode _ _ _ _ => raise AttributeError
  end.

Definition j_index (a : loc) : M Z :=
  n ← get_node a;
  match cls n with
  | VariableNode _ j => ret j
  | FactorNode _ _ _ _ => raise AttributeError
  end.

(** [self.neighbors[k]]. *)
Definition neighbor (self : loc) (k : nat) : M loc :=
  n ← get_node self; or_raise IndexError (neighbors n !! k).

(** [self.neighbors[k].in_msgs[slot]]. *)
Definition neighbor_in_msg (self : loc) (k slot : nat) : M Qc :=
  nb ← neighbor self k;
  v ← get_node nb;
  list_getitem (in_msgs v) slot.

Definition Factor_message (self : loc) (dismatrix : ndarray) (reg : Qc) : M unit :=
  n ← get_node self;
  o ← read_list (out_msgs n);
  prev_out_msg ← alloc_list o;
  set_node self (set_prev_out_msgs n prev_out_msg);;
  n ← get_node self;
  if decide (nodetype n = "IJ") then
    nb ← neighbor self 0;
    i ← i_index nb;
    nb ← neighbor self 0;
    j ← j_index nb;
    sigma ← or_raise IndexError (np_get2 dismatrix i j);
    p ← list_getitem (prev_out_msgs n) 0;
    list_setitem (out_msgs n) 0 (damp n * p + (1 - damp n) * - sigma)%Qc
  else if decide (nodetype n = "JF") then
    nb ← neighbor self 0;
    j ← j_index nb;
    eta ← comprehension (seq 0 (length (neighbors n))) (λ k,
      x ← neighbor_in_msg self k 1;
      y ← or_raise IndexError (np_get2 dismatrix (Z.of_nat k) j);
      ret (x - y)%Qc);
    for_each (seq 0 (length (neighbors n))) (λ i,
      temp_eta ← py_del eta i;
      p ← list_getitem (prev_out_msgs n) i;
      m ← or_raise ValueError (py_max temp_eta);
      list_setitem (out_msgs n) i (damp n * p + (1 - damp n) * - m)%Qc)
  else
    nb ← neighbor self 0;
    i ← i_index nb;
    dis_eta ← comprehension (seq 0 (length (neighbors n))) (λ k,
      x ← neighbor_in_msg self k 2;
      y ← or_raise IndexError (np_get2 dismatrix i (Z.of_nat k));
      ret (x - y)%Qc);
    for_each (seq 0 (length (neighbors n))) (λ j,
      let temp_dis_eta := dis_eta in
      py_del temp_dis_eta j;;        (* np.delete: its result is dropped *)
      let sum_value := np_sum (np_maximum0 temp_dis_eta) in
      let alpha := Qcmin 0 (- reg + sum_value)%Qc in
      p ← list_getitem (prev_out_msgs n) j;
      list_setitem (out_msgs n) j (damp n * p + (1 - damp n) * alpha)%Qc).

(** [self.message()]: the method of the class of [self]. *)
Definition message (self : loc) : M unit :=
  n ← get_node self;
  match cls n with
  | VariableNode _ _ => Variable_message self
  | FactorNode d r _ _ => Factor_message self d r
  end.

(** ** Observing the store *)

Definition empty_store : store := mkStore ∅ ∅.

(** The value of a message list of a node, for reading results. *)
Definition msgs_of (f : Node → loc) (a : loc) (σ : store) : option (list Qc) :=
  n ← nodes σ !! a; lists σ !! f n.

Definition Qcz (z : Z) : Qc := Q2Qc (inject_Z z).

Definition run_state {A} (m : M A) (σ : store) : store := (m σ).2.
Definition run_result {A} (m : M A) (σ : store) : outcome A := (m σ).1.

(** * The vocabulary of the statements *)

(** ** Weakest preconditions and read-only computations *)

(** [wp m Q E σ]: run from [σ], [m] ends in a store satisfying [Q] if it
    returns and [E] if it raises.  Every computation is a total function
    of the store, so [wp] speaks of the one run there is. *)
Definition wp {A} (m : M A) (Q : A → store → Prop) (E : exn → store → Prop)
    (σ : store) : Prop :=
  match m σ with
  | (Ok a, σ') => Q a σ'
  | (Raise e, σ') => E e σ'
  end.

Definition read_only {A} (m : M A) : Prop := ∀ σ, (m σ).2 = σ.

(** ** The snapshot that [message] takes *)

(** [v] is a damped update of [p]: some new value [x] was mixed in. *)
Definition damped (d p v : Qc) : Prop := ∃ x, v = (d * p + (1 - d) * x)%Qc.

(** The list object of the snapshot and the node that refers to it. *)
Definition snapshot_loc (σ0 : store) : loc := fresh (dom (lists σ0)).
Definition snapshot_node (σ0 : store) (n0 : Node) : Node :=
  set_prev_out_msgs n0 (snapshot_loc σ0).

(** The stores that [message] passes through once the snapshot is taken:
    the node refers to the snapshot, the snapshot holds the old
    [out_msgs], and the list [out_msgs] holds damped updates of it. *)
Definition after_message (self : loc) (σ0 : store) (n0 : Node)
    (o0 : list Qc) (σ : store) : Prop :=
  ∃ oc, σ = mkStore (<[self := snapshot_node σ0 n0]> (nodes σ0))
                    (<[out_msgs n0 := oc]>
                       (<[snapshot_loc σ0 := o0]> (lists σ0)))
        ∧ Forall2 (damped (damp n0)) o0 oc.

(** The store once the snapshot is taken. *)
Definition snapshot_store (self : loc) (σ : store) (n : Node)
    (out : list Qc) : store :=
  mkStore (<[self := snapshot_node σ n]> (nodes σ))
          (<[snapshot_loc σ := out]> (lists σ)).

(** The stores that the loops of [Factor.message] pass through: [oc] in
    [out_msgs]. *)
Definition loop_store (self : loc) (σ : store) (n : Node) (out : list Qc)
    (oc : list Qc) : store :=
  mkStore (nodes (snapshot_store self σ n out))
          (<[out_msgs n := oc]> (lists (snapshot_store self σ n out))).

(** The store with [g] tabulated in [out_msgs]. *)
Definition Factor_message_store (self : loc) (σ : store) (n : Node)
    (out : list Qc) (g : nat → Qc) : store :=
  mkStore (<[self := snapshot_node σ n]> (nodes σ))
          (<[out_msgs n := g <$> seq 0 (length (neighbors n))]>
             (<[snapshot_loc σ := out]> (lists σ))).

(** ** Leave-one-out reductions *)

Global Instance Qc_inhabited : Inhabited Qc := populate 0%Qc.

(** The indices [k] of [range(n)] with [k != i]. *)
Definition others (n i : nat) : list nat := filter (λ k, k ≠ i) (seq 0 n).

(** [sum(f(k) for k in ks)]. *)
Definition sum_for (ks : list nat) (f : nat → Qc) : Qc := np_sum (f <$> ks).

(** The sum of [l] over all indices except [i]. *)
Definition loo_sum (l : list Qc) (i : nat) : Qc :=
  sum_for (others (length l) i) (λ k, l !!! k).

(** [m] is the maximum of [l] over all indices except [i]. *)
Definition is_loo_max (l : list Qc) (i : nat) (m : Qc) : Prop :=
  (∃ k, k ≠ i ∧ l !! k = Some m) ∧
  (∀ k x, k ≠ i → l !! k = Some x → (x ≤ m)%Qc).

(** ** The new values of [out_msgs] *)

(** [Variable.message]: the new value of slot [k] of [out_msgs]. *)
Definition Variable_new_out (n : Node) (inp out : list Qc) (k : nat) : Qc :=
  (damp n * out !!! k + (1 - damp n) * np_sum (delete k inp))%Qc.

Definition Variable_message_store (self : loc) (σ : store) (n : Node)
    (inp out : list Qc) : store :=
  mkStore (<[self := snapshot_node σ n]> (nodes σ))
          (<[out_msgs n := Variable_new_out n inp out <$> seq 0 (length inp)]>
             (<[snapshot_loc σ := out]> (lists σ))).

(** [Factor.message], pairwise-link: the new value of slot 0. *)
Definition IJ_new_out (n : Node) (out : list Qc) (sigma : Qc) : Qc :=
  (damp n * out !!! 0%nat + (1 - damp n) * - sigma)%Qc.

(** [Factor.message], row-uniqueness: the new value of slot [k]. *)
Definition JF_new_out (n : Node) (out : list Qc) (eta : list Qc) (k : nat)
    : Qc :=
  (damp n * out !!! k
   + (1 - damp n) * - default 0 (py_max (delete k eta)))%Qc.

(** [Factor.message], column-budget: the new value of slot [k]. *)
Definition IC_new_out (n : Node) (out : list Qc) (reg : Qc)
    (dis_eta : list Qc) (k : nat) : Qc :=
  (damp n * out !!! k
   + (1 - damp n) * Qcmin 0 (- reg + np_sum (np_maximum0 dis_eta)))%Qc.

(** The value that the leave-one-out rule of the column-budget role
    gives for target [j]: [min(0, -reg + sum(max(dis_eta[k], 0) for k != j))]. *)
Definition column_budget_loo (reg : Qc) (dis_eta : list Qc) (j : nat) : Qc :=
  Qcmin 0 (- reg + sum_for (others (length dis_eta) j)
                           (λ k, Qcmax (dis_eta !!! k) 0))%Qc.

(** The value that the code computes: the sum runs over every [k]. *)
Definition column_budget_all (reg : Qc) (dis_eta : list Qc) : Qc :=
  Qcmin 0 (- reg + np_sum (np_maximum0 dis_eta))%Qc.

(** ** What a Factor node sees of its neighbors *)

(** Neighbor [k] of [n] is a Variable node of indices [i], [j]. *)
Definition nbr_index (σ : store) (n : Node) (k : nat) (i j : Z) : Prop :=
  ∃ a v, neighbors n !! k = Some a ∧ nodes σ !! a = Some v ∧
         cls v = VariableNode i j.

(** Neighbor [k] of [n] holds [x] in slot [slot] of its [in_msgs]. *)
Definition nbr_in_msg (σ : store) (n : Node) (k slot : nat) (x : Qc) : Prop :=
  ∃ a v l, neighbors n !! k = Some a ∧ nodes σ !! a = Some v ∧
           lists σ !! in_msgs v = Some l ∧ l !! slot = Some x.

(** [eta] of the row-uniqueness rule, for column [j]. *)
Definition is_eta (σ : store) (n : Node) (d : ndarray) (j : Z)
    (eta : list Qc) : Prop :=
  length eta = length (neighbors n) ∧
  ∀ k e, eta !! k = Some e →
    ∃ x y, nbr_in_msg σ n k 1 x ∧ np_get2 d (Z.of_nat k) j = Some y ∧
           e = (x - y)%Qc.

(** [dis_eta] of the column-budget rule, for row [i]. *)
Definition is_dis_eta (σ : store) (n : Node) (d : ndarray) (i : Z)
    (dis_eta : list Qc) : Prop :=
  length dis_eta = length (neighbors n) ∧
  ∀ k e, dis_eta !! k = Some e →
    ∃ x y, nbr_in_msg σ n k 2 x ∧ np_get2 d i (Z.of_nat k) = Some y ∧
           e = (x - y)%Qc.

(** The operands of [dis_eta], where they are integers, fit in 64 bits. *)
Definition dis_eta_int64_safe (σ : store) (n : Node) (d : ndarray) (i : Z)
    : Prop :=
  ∀ k, k < length (neighbors n) →
    ∃ x y, nbr_in_msg σ n k 2 x ∧ np_get2 d i (Z.of_nat k) = Some y ∧
           int64_safe x ∧ int64_safe y.

(** ** Convergence *)

(** Slot [i] moved by at most [epsilon]. *)
Definition slot_settled (out prev : list Qc) (i : nat) : Prop :=
  (Qcabs (out !!! i - prev !!! i) ≤ epsilon)%Qc.

Global Instance slot_settled_dec out prev i : Decision (slot_settled out prev i).
Proof. unfold slot_settled. apply _. Defined.

(** ** The shape invariant *)

Definition node_lists (n : Node) : list loc :=
  [in_msgs n; out_msgs n; prev_out_msgs n].

(** The three message lists of [n] exist and have one slot per neighbor:
    [len(neighbors) == len(in_msgs) == len(out_msgs) == len(prev_out_msgs)]. *)
Definition aligned (σ : store) (n : Node) : Prop :=
  Forall (λ l, length <$> lists σ !! l = Some (length (neighbors n)))
         (node_lists n).

(** No list object is shared: the three lists of a node are three
    objects, and two nodes have no list in common.  The constructor gives
    every node new lists, and no method hands a list to another node. *)
Definition separated (σ : store) : Prop :=
  map_Forall (λ a n,
    NoDup (node_lists n) ∧
    map_Forall (λ b m,
      a ≠ b → Forall (λ l, l ∉ node_lists m) (node_lists n)) (nodes σ))
    (nodes σ).

Definition wf (σ : store) : Prop :=
  map_Forall (λ _ n, aligned σ n) (nodes σ) ∧ separated σ.

Global Instance aligned_dec σ n : Decision (aligned σ n).
Proof. unfold aligned. apply _. Defined.

Global Instance separated_dec σ : Decision (separated σ).
Proof. unfold separated. apply _. Defined.

Global Instance wf_dec σ : Decision (wf σ).
Proof. unfold wf. apply _. Defined.

(** Two stores with the same nodes and lists of the same lengths. *)
Definition same_shape (σ σ' : store) : Prop :=
  nodes σ' = nodes σ ∧
  ∀ l, length <$> lists σ' !! l = length <$> lists σ !! l.

(** The store after [self.neighbors.append(b)] and the three
    [append(0)] on the message lists of the node [n] at address [a]. *)
Definition grow (σ : store) (a b : loc) (n : Node) : store :=
  mkStore (<[a := set_neighbors n (neighbors n ++ [b])]> (nodes σ))
          (alter (λ v, v ++ [0%Qc]) (prev_out_msgs n)
             (alter (λ v, v ++ [0%Qc]) (out_msgs n)
                (alter (λ v, v ++ [0%Qc]) (in_msgs n) (lists σ)))).

(** [m] keeps the invariant, whether it returns or raises. *)
Definition keeps_wf {A} (m : M A) : Prop :=
  ∀ σ, wf σ → wf (run_state m σ).

(** [len(neighbors) == len(in_msgs) == len(out_msgs) == len(prev_out_msgs)]
    on every node of the store. *)
Definition shape_invariant (σ : store) : Prop :=
  ∀ a n, nodes σ !! a = Some n →
    ∃ i o p,
      lists σ !! in_msgs n = Some i ∧
      lists σ !! out_msgs n = Some o ∧
      lists σ !! prev_out_msgs n = Some p ∧
      length (neighbors n) = length i ∧
      length i = length o ∧
      length o = length p.

(** One zero slot was appended to the list [f] of the node at [a]. *)
Definition slot_appended (f : Node → loc) (a : loc) (σ σ' : store) : Prop :=
  ∃ v, msgs_of f a σ = Some v ∧ msgs_of f a σ' = Some (v ++ [0%Qc]).

(** ** Calls and reachable stores *)

(** The calls that a driver can make on the node classes. *)
Inductive call : Type :=
  | Call_Variable (ty : string) (nid i j : Z) (dmp : Qc)
  | Call_Factor (ty : string) (nid : Z) (varnodes : list loc) (d : ndarray)
                (r dmp : Qc)
  | Call_addNeighbors (a b : loc)
  | Call_receiveMsg (a sender : loc) (msg : Qc)
  | Call_sendMsg (a : loc)
  | Call_message (a : loc)
  | Call_checkConvergence (a : loc).

(** The store after a call, whether it returned or raised. *)
Definition run_call (c : call) (σ : store) : store :=
  match c with
  | Call_Variable ty nid i j dmp => run_state (Variable_init ty nid i j dmp) σ
  | Call_Factor ty nid vs d r dmp => run_state (Factor_init ty nid vs d r dmp) σ
  | Call_addNeighbors a b => run_state (addNeighbors a b) σ
  | Call_receiveMsg a s msg => run_state (receiveMsg a s msg) σ
  | Call_sendMsg a => run_state (sendMsg a) σ
  | Call_message a => run_state (message a) σ
  | Call_checkConvergence a => run_state (checkConvergence a) σ
  end.

(** The stores that sequences of calls lead to from the empty store. *)
Inductive reachable : store → Prop :=
  | reachable_empty : reachable empty_store
  | reachable_call σ c : reachable σ → reachable (run_call c σ).

(** ** Example graphs *)

(** The graph of two points and two candidates: a Variable node per pair
    [(i, j)], a row-uniqueness Factor per column over the Variable nodes
    of the column in row order, a pairwise-link Factor per Variable node,
    and a column-budget Factor per row over the Variable nodes of the row
    in column order.  The edges of a Variable node are created in this
    order: slot 0 of its [in_msgs] is its row-uniqueness edge, slot 1 its
    pairwise-link edge and slot 2 its column-budget edge.  Addresses follow
    the order of creation: the Variable nodes of (0,0), (0,1), (1,0), (1,1)
    are 0 to 3, the row-uniqueness Factors 4 and 5, the pairwise-link
    Factors 6 to 9, the column-budget Factors 10 and 11; the node at
    address [a] has its three lists at [3a], [3a+1], [3a+2]. *)
Definition build_graph (d : ndarray) (r dmp : Qc) : M unit :=
  v00 ← Variable_init "X" 0 0 0 dmp;
  v01 ← Variable_init "X" 1 0 1 dmp;
  v10 ← Variable_init "X" 2 1 0 dmp;
  v11 ← Variable_init "X" 3 1 1 dmp;
  Factor_init "JF" 4 [v00; v10] d r dmp;;
  Factor_init "JF" 5 [v01; v11] d r dmp;;
  Factor_init "IJ" 6 [v00] d r dmp;;
  Factor_init "IJ" 7 [v01] d r dmp;;
  Factor_init "IJ" 8 [v10] d r dmp;;
  Factor_init "IJ" 9 [v11] d r dmp;;
  Factor_init "IC" 10 [v00; v01] d r dmp;;
  Factor_init "IC" 11 [v10; v11] d r dmp;;
  ret ().

(** Incoming messages [2, -1, 3] on the Variable node of (0,0) and
    [1, 2, 5] on the Variable node of (1,0). *)
Definition deliver : M unit :=
  receiveMsg 0 4 (Qcz 2);; receiveMsg 0 6 (Qcz (-1));;
  receiveMsg 0 10 (Qcz 3);;
  receiveMsg 2 4 (Qcz 1);; receiveMsg 2 8 (Qcz 2);;
  receiveMsg 2 11 (Qcz 5).

(** The graph for the dissimilarity matrix [[0, 1], [1, 0]],
    regularization 1 and damping 1/2, with these messages. *)
Definition example_graph : store :=
  run_state
    (build_graph (mkArray [[Qcz 0; Qcz 1]; [Qcz 1; Qcz 0]] 2) (Qcz 1)
       (Q2Qc (1 # 2));;
     deliver)
    empty_store.

(** The same graph without damping. *)
Definition example_graph_undamped : store :=
  run_state
    (build_graph (mkArray [[Qcz 0; Qcz 1]; [Qcz 1; Qcz 0]] 2) (Qcz 1) (Qcz 0);; deliver)
    empty_store.

(** The same graph with [damp = 1]. *)
Definition example_graph_frozen : store :=
  run_state
    (build_graph (mkArray [[Qcz 0; Qcz 1]; [Qcz 1; Qcz 0]] 2) (Qcz 1) (Qcz 1);; deliver)
    empty_store.

(** A column-budget example: zero dissimilarities, regularization 3, no
    damping, and the message 1 on the column-budget edge of both Variable
    nodes of row 0, so that [dis_eta = [1, 1]] at the column-budget Factor
    of row 0 (address 10). *)
Definition budget_graph : store :=
  run_state
    (build_graph (mkArray [[Qcz 0; Qcz 0]; [Qcz 0; Qcz 0]] 2) (Qcz 3) (Qcz 0);;
     receiveMsg 0 10 (Qcz 1);; receiveMsg 1 10 (Qcz 1))
    empty_store.

(** One Variable node with a row-uniqueness, a pairwise-link and a
    column-budget Factor of one neighbor each (addresses 1, 2, 3), for the
    one-by-one dissimilarity matrix [[4]]. *)
Definition single_graph : store :=
  run_state
    (v ← Variable_init "X" 0 0 0 (Qcz 0);
     Factor_init "JF" 1 [v] (mkArray [[Qcz 4]] 1) (Qcz 1) (Qcz 0);;
     Factor_init "IJ" 2 [v] (mkArray [[Qcz 4]] 1) (Qcz 1) (Qcz 0);;
     Factor_init "IC" 3 [v] (mkArray [[Qcz 4]] 1) (Qcz 1) (Qcz 0);;
     receiveMsg v 1 (Qcz 2);; receiveMsg v 2 (Qcz (-1));;
     receiveMsg v 3 (Qcz 3))
    empty_store.

(** ** Links between nodes *)

(** The neighbors that the edges between [self] and the nodes of [vs] add
    to the node [c]. *)
Definition edges_of (self : loc) (vs : list loc) (c : loc) : list loc :=
  if decide (c = self) then vs
  else replicate (length (filter (λ v, v = c) vs)) self.

(** From [σ] to [σ'] every node [b] got the neighbors [K b] and a zero slot
    for each of them in its three lists, and nothing else changed. *)
Definition edges_added (σ σ' : store) (K : loc → list loc) : Prop :=
  (∀ b, nodes σ !! b = None → nodes σ' !! b = None) ∧
  (∀ b m, nodes σ !! b = Some m →
     nodes σ' !! b = Some (set_neighbors m (neighbors m ++ K b)) ∧
     ∀ l, l ∈ node_lists m →
       lists σ' !! l
       = (λ v, v ++ replicate (length (K b)) 0%Qc) <$> lists σ !! l) ∧
  (∀ l, (∀ b m, nodes σ !! b = Some m → l ∉ node_lists m) →
        lists σ' !! l = lists σ !! l).

(** Every neighbor of [n] is a node that lists [self] among its own
    neighbors. *)
Definition listed_back (σ : store) (self : loc) (n : Node) : Prop :=
  Forall (λ nb, from_option (λ m, self ∈ neighbors m) False (nodes σ !! nb))
         (neighbors n).

Global Instance listed_back_dec σ self n : Decision (listed_back σ self n).
Proof.
  apply Forall_dec. intros nb. destruct (nodes σ !! nb); simpl; apply _.
Defined.

(** The stores of [sendMsg] after the rounds [0 .. k-1]: the neighbors of
    these rounds list [self] and hold the message of their round in the
    slot of [self]; no other list has changed. *)
Definition sent_upto (σ : store) (self : loc) (n : Node) (out : list Qc)
    (k : nat) (σ' : store) : Prop :=
  nodes σ' = nodes σ ∧
  (∀ i nb m, i < k → neighbors n !! i = Some nb → nodes σ !! nb = Some m →
     self ∈ neighbors m) ∧
  (∀ i nb m v, i < k → neighbors n !! i = Some nb →
     nodes σ !! nb = Some m → lists σ !! in_msgs m = Some v →
     ∃ idx o, py_index (neighbors m) self = Some idx ∧ out !! i = Some o ∧
              lists σ' !! in_msgs m = Some (<[idx := o]> v)) ∧
  (∀ l, (∀ i nb m, i < k → neighbors n !! i = Some nb →
           nodes σ !! nb = Some m → l ≠ in_msgs m) →
        lists σ' !! l = lists σ !! l).

(** Every link of the store goes both ways. *)
Definition linked (σ : store) : Prop :=
  map_Forall (λ a n, listed_back σ a n) (nodes σ).

Global Instance linked_dec σ : Decision (linked σ).
Proof. unfold linked. apply _. Defined.

(** The nodes that a call passes to [addNeighbors] or to [Factor.__init__]
    are nodes of the store. *)
Definition call_closed (σ : store) (c : call) : Prop :=
  match c with
  | Call_Factor _ _ vs _ _ _ => Forall (λ v, is_Some (nodes σ !! v)) vs
  | Call_addNeighbors _ b => is_Some (nodes σ !! b)
  | _ => True
  end.

(** The stores that sequences of such calls lead to from the empty
    store. *)
Inductive built : store → Prop :=
  | built_empty : built empty_store
  | built_call σ c : built σ → call_closed σ c → built (run_call c σ).

(** ** More example graphs *)

(** Two Variable nodes after the first half of [addNeighbors] on the node
    at address 0: node 0 lists node 1, node 1 does not list node 0. *)
Definition one_way_graph : store :=
  let σ := run_state (Variable_init "X" 0 0 0 (Qcz 0);;
                      Variable_init "X" 1 0 1 (Qcz 0)) empty_store in
  from_option (grow σ 0 1) σ (nodes σ !! 0).

(** The same with the half edge twice: node 0 lists node 1 twice. *)
Definition double_one_way_graph : store :=
  from_option (grow one_way_graph 0 1) one_way_graph
              (nodes one_way_graph !! 0).

(** The example graph with a second edge between the Variable node of
    (0,0) and its row-uniqueness Factor. *)
Definition double_edge_graph : store :=
  run_state (addNeighbors 0 4) example_graph.

(** A pairwise-link Factor over no Variable node. *)
Definition lonely_factor : store :=
  run_state (Factor_init "IJ" 0 [] (mkArray [[Qcz 4]] 1) (Qcz 1) (Qcz 0)) empty_store.

(** Two Variable nodes and an edge between them, call by call. *)
Definition pair_graph : store :=
  run_call (Call_addNeighbors 0 1)
    (run_call (Call_Variable "X" 1 0 1 (Qcz 0))
       (run_call (Call_Variable "X" 0 0 0 (Qcz 0)) empty_store)).

(** The example graph with one more pairwise-link Factor, over the
    nodes of (0,0) and (0,1). *)
Definition wide_link_graph : store :=
  run_state
    (Factor_init "IJ" 12 [0; 1] (mkArray [[Qcz 0; Qcz 1]; [Qcz 1; Qcz 0]] 2) (Qcz 1)
       (Q2Qc (1 # 2)))
    example_graph.

(** Two Variable nodes with a row-uniqueness Factor as their only
    neighbor. *)
Definition short_graph : store :=
  run_state
    (v0 ← Variable_init "X" 0 0 0 (Qcz 0);
     v1 ← Variable_init "X" 1 1 0 (Qcz 0);
     Factor_init "JF" 2 [v0; v1] (mkArray [[Qcz 0; Qcz 1]; [Qcz 1; Qcz 0]] 2) (Qcz 1)
       (Qcz 0))
    empty_store.

(** * Reasoning about computations *)

(** ** Numbers *)

Lemma Qc_eq_this (x y : Qc) : this x = this y → x = y.
Proof. intros H. apply Qc_is_canon. rewrite H. reflexivity. Qed.

Lemma Qc_list_eq_this (l k : list Qc) : this <$> l = this <$> k → l = k.
Proof.
  revert k. induction l as [|x l IH]; intros [|y k] H; simplify_eq/=; [done|].
  f_equal; [by apply Qc_eq_this | by apply IH].
Qed.

Lemma damp_one (p x : Qc) : (1 * p + (1 - 1) * x = p)%Qc.
Proof. ring. Qed.

Lemma damp_zero (p x : Qc) : (0 * p + (1 - 0) * x = x)%Qc.
Proof. ring. Qed.

Lemma damp_same (d p : Qc) : (d * p + (1 - d) * p = p)%Qc.
Proof. ring. Qed.

(** ** Weakest preconditions *)

Section wp_rules.
Context {A B : Type}.
Implicit Types (Q : A → store → Prop) (E : exn → store → Prop) (σ : store).

Lemma wp_ret (a : A) Q E σ : Q a σ → wp (ret a) Q E σ.
Proof. done. Qed.

Lemma wp_raise e Q E σ : E e σ → wp (raise e : M A) Q E σ.
Proof. done. Qed.

Lemma wp_bind (m : M A) (k : A → M B) (Q' : B → store → Prop) E σ :
  wp m (λ a σ', wp (k a) Q' E σ') E σ → wp (m ≫= k) Q' E σ.
Proof.
  unfold wp, mbind, M_bind, bind. by destruct (m σ) as [[a|e] σ'].
Qed.

Lemma wp_mono (m : M A) Q Q' E E' σ :
  wp m Q E σ → (∀ a σ', Q a σ' → Q' a σ') → (∀ e σ', E e σ' → E' e σ') →
  wp m Q' E' σ.
Proof. unfold wp. destruct (m σ) as [[a|e] σ']; auto. Qed.

Lemma wp_or_raise e (x : option A) Q E σ :
  match x with Some a => Q a σ | None => E e σ end →
  wp (or_raise e x) Q E σ.
Proof. by destruct x. Qed.

Lemma wp_run (m : M A) Q E σ :
  wp m Q E σ ↔
  ∀ r σ', m σ = (r, σ') →
    match r with Ok a => Q a σ' | Raise e => E e σ' end.
Proof.
  unfold wp. split.
  - intros H r σ' Hm. by rewrite Hm in H.
  - intros H. destruct (m σ) as [r σ'] eqn:Hm. specialize (H r σ' eq_refl).
    by destruct r.
Qed.
End wp_rules.

Lemma wp_get_node a Q E σ :
  match nodes σ !! a with Some n => Q n σ | None => E DanglingRef σ end →
  wp (get_node a) Q E σ.
Proof. unfold wp, get_node. by destruct (nodes σ !! a). Qed.

Lemma wp_set_node a n Q E σ :
  Q () (mkStore (<[a := n]> (nodes σ)) (lists σ)) → wp (set_node a n) Q E σ.
Proof. done. Qed.

Lemma wp_read_list l Q E σ :
  match lists σ !! l with Some v => Q v σ | None => E DanglingRef σ end →
  wp (read_list l) Q E σ.
Proof. unfold wp, read_list. by destruct (lists σ !! l). Qed.

Lemma wp_write_list l v Q E σ :
  Q () (mkStore (nodes σ) (<[l := v]> (lists σ))) → wp (write_list l v) Q E σ.
Proof. done. Qed.

Lemma wp_alloc_list v Q E σ :
  Q (fresh (dom (lists σ)))
    (mkStore (nodes σ) (<[fresh (dom (lists σ)) := v]> (lists σ))) →
  wp (alloc_list v) Q E σ.
Proof. done. Qed.

Lemma wp_list_getitem l i Q E σ :
  match lists σ !! l with
  | Some v => match v !! i with Some x => Q x σ | None => E IndexError σ end
  | None => E DanglingRef σ
  end →
  wp (list_getitem l i) Q E σ.
Proof.
  intros H. apply wp_bind, wp_read_list. destruct (lists σ !! l) as [v|]; [|done].
  by apply wp_or_raise.
Qed.

Lemma wp_list_setitem l i x Q E σ :
  match lists σ !! l with
  | Some v =>
      if decide (i < length v)
      then Q () (mkStore (nodes σ) (<[l := <[i := x]> v]> (lists σ)))
      else E IndexError σ
  | None => E DanglingRef σ
  end →
  wp (list_setitem l i x) Q E σ.
Proof.
  intros H. apply wp_bind, wp_read_list. destruct (lists σ !! l) as [v|]; [|done].
  by destruct (decide (i < length v)).
Qed.

Lemma wp_list_append l x Q E σ :
  match lists σ !! l with
  | Some v => Q () (mkStore (nodes σ) (<[l := v ++ [x]]> (lists σ)))
  | None => E DanglingRef σ
  end →
  wp (list_append l x) Q E σ.
Proof.
  intros H. apply wp_bind, wp_read_list. by destruct (lists σ !! l) as [v|].
Qed.

Lemma wp_py_del {A} (l : list A) i Q E σ :
  (if decide (i < length l) then Q (delete i l) σ else E IndexError σ) →
  wp (py_del l i) Q E σ.
Proof. unfold py_del. by destruct (decide (i < length l)). Qed.

(** A loop keeps an invariant that each round of its body keeps, whether
    the loop runs to its end or a round raises. *)
Lemma wp_for_each (I : store → Prop) E body ix σ :
  I σ →
  (∀ i σ', i ∈ ix → I σ' → wp (body i) (λ _, I) E σ') →
  wp (for_each ix body) (λ _, I) E σ.
Proof.
  revert σ. induction ix as [|i ix IH]; intros σ HI Hbody; [done|].
  simpl. apply wp_bind. eapply wp_mono; [apply Hbody; [left|done]| |done].
  intros ? σ' HI'. apply IH; [done|]. intros j σ'' Hj. apply Hbody. by right.
Qed.

(** A loop over [range(n)] with an invariant that counts the rounds. *)
Lemma wp_for_range (I : nat → store → Prop) E body n σ :
  I 0 σ →
  (∀ i σ', i < n → I i σ' → wp (body i) (λ _, I (S i)) E σ') →
  wp (for_each (seq 0 n) body) (λ _, I n) E σ.
Proof.
  intros HI Hbody.
  cut (∀ len s σ, s + len = n → I s σ →
         wp (for_each (seq s len) body) (λ _, I n) E σ).
  { intros H. by apply (H n 0). }
  clear σ HI. induction len as [|len IH]; intros s σ Hs HI; simpl.
  - replace n with s by lia. done.
  - apply wp_bind. eapply wp_mono; [apply (Hbody s); [lia|done]| |done].
    intros ? σ' HI'. apply IH; [lia|done].
Qed.

(** ** Computations that only read the store *)

Lemma read_only_ret {A} (a : A) : read_only (ret a).
Proof. done. Qed.

Lemma read_only_raise {A} e : read_only (raise e : M A).
Proof. done. Qed.

Lemma read_only_or_raise {A} e (x : option A) : read_only (or_raise e x).
Proof. by destruct x. Qed.

Lemma read_only_bind {A B} (m : M A) (k : A → M B) :
  read_only m → (∀ a, read_only (k a)) → read_only (m ≫= k).
Proof.
  intros Hm Hk σ. unfold mbind, M_bind, bind. specialize (Hm σ).
  destruct (m σ) as [[a|e] σ']; simpl in *; subst; [apply Hk|done].
Qed.

Lemma read_only_get_node a : read_only (get_node a).
Proof. intros σ. unfold get_node. by destruct (nodes σ !! a). Qed.

Lemma read_only_read_list l : read_only (read_list l).
Proof. intros σ. unfold read_list. by destruct (lists σ !! l). Qed.

Lemma read_only_list_getitem l i : read_only (list_getitem l i).
Proof.
  apply read_only_bind; [apply read_only_read_list|].
  intros v. apply read_only_or_raise.
Qed.

Lemma read_only_py_del {A} (l : list A) i : read_only (py_del l i).
Proof. unfold py_del. by destruct (decide (i < length l)). Qed.

Lemma read_only_comprehension {A} ks (f : nat → M A) :
  (∀ k, read_only (f k)) → read_only (comprehension ks f).
Proof.
  intros Hf. induction ks as [|k ks IH]; [done|]. simpl.
  apply read_only_bind; [done|]. intros x.
  apply read_only_bind; [done|]. intros xs. apply read_only_ret.
Qed.

Lemma read_only_neighbor self k : read_only (neighbor self k).
Proof.
  apply read_only_bind; [apply read_only_get_node|].
  intros n. apply read_only_or_raise.
Qed.

Lemma read_only_i_index a : read_only (i_index a).
Proof.
  apply read_only_bind; [apply read_only_get_node|].
  intros n. by destruct (cls n).
Qed.

Lemma read_only_j_index a : read_only (j_index a).
Proof.
  apply read_only_bind; [apply read_only_get_node|].
  intros n. by destruct (cls n).
Qed.

Lemma read_only_neighbor_in_msg self k slot :
  read_only (neighbor_in_msg self k slot).
Proof.
  apply read_only_bind; [apply read_only_neighbor|]. intros nb.
  apply read_only_bind; [apply read_only_get_node|]. intros v.
  apply read_only_list_getitem.
Qed.

Create HintDb read_only.
#[export] Hint Resolve read_only_ret read_only_raise read_only_or_raise
  read_only_get_node read_only_read_list read_only_list_getitem
  read_only_py_del read_only_neighbor read_only_i_index read_only_j_index
  read_only_neighbor_in_msg : read_only.

Lemma wp_read_only {A} (m : M A) Q E σ :
  read_only m → (∀ a, Q a σ) → (∀ e, E e σ) → wp m Q E σ.
Proof.
  intros Hm HQ HE. unfold wp. specialize (Hm σ).
  destruct (m σ) as [[a|e] σ']; simpl in *; subst; auto.
Qed.

Ltac solve_read_only :=
  repeat first
    [ solve [auto with read_only]
    | apply read_only_comprehension; intros
    | apply read_only_bind; [|intros] ].

Ltac wp_read :=
  apply wp_bind, wp_read_only; [solve [solve_read_only] | | by intros].

(** ** What [message] does to the store, whatever its outcome *)

Lemma damped_refl d p : damped d p p.
Proof. exists p. by rewrite damp_same. Qed.

Lemma damped_one p v : damped 1 p v → v = p.
Proof. intros [x ->]. apply damp_one. Qed.

Section message_effect.
Variables (self : loc) (σ0 : store) (n0 : Node) (o0 : list Qc).
Hypothesis Hself : nodes σ0 !! self = Some n0.
Hypothesis Hout : lists σ0 !! out_msgs n0 = Some o0.

Local Abbreviation snapshot_loc := (snapshot_loc σ0).
Local Abbreviation snapshot_node := (snapshot_node σ0 n0).
Local Abbreviation after_message := (after_message self σ0 n0 o0).

Lemma snapshot_fresh : lists σ0 !! snapshot_loc = None.
Proof. unfold snapshot_loc. apply not_elem_of_dom, is_fresh. Qed.

Lemma snapshot_ne_out : snapshot_loc ≠ out_msgs n0.
Proof. intros Heq. pose proof snapshot_fresh as H. rewrite Heq in H. congruence. Qed.

Lemma after_message_node σ :
  after_message σ → nodes σ !! self = Some snapshot_node.
Proof. intros (oc & -> & _). simpl. apply lookup_insert_eq. Qed.

Lemma after_message_prev σ :
  after_message σ → lists σ !! snapshot_loc = Some o0.
Proof.
  intros (oc & -> & _). simpl.
  rewrite lookup_insert_ne by (by apply not_eq_sym, snapshot_ne_out).
  apply lookup_insert_eq.
Qed.

Lemma after_message_start :
  after_message (mkStore (<[self := snapshot_node]> (nodes σ0))
                         (<[snapshot_loc := o0]> (lists σ0))).
Proof.
  exists o0. split.
  - f_equal. symmetry. apply insert_id.
    rewrite lookup_insert_ne by apply snapshot_ne_out. done.
  - apply Forall2_same_length_lookup_2; [done|].
    intros i x y ??. simplify_eq. apply damped_refl.
Qed.

(** Reading slot [i] of the snapshot gives the old value of the slot. *)
Lemma wp_after_message_prev i Q E σ :
  after_message σ →
  (∀ p, o0 !! i = Some p → Q p σ) → (∀ e, E e σ) →
  wp (list_getitem snapshot_loc i) Q E σ.
Proof.
  intros Hσ HQ HE. apply wp_list_getitem.
  rewrite (after_message_prev _ Hσ). destruct (o0 !! i) eqn:Hi; auto.
Qed.

(** Writing a damped update of the old value keeps the shape. *)
Lemma wp_after_message_write i p x σ :
  after_message σ → o0 !! i = Some p →
  wp (list_setitem (out_msgs n0) i (damp n0 * p + (1 - damp n0) * x)%Qc)
     (λ _, after_message) (λ _, after_message) σ.
Proof.
  intros Hσ Hp. apply wp_list_setitem.
  destruct Hσ as (oc & -> & Hoc). simpl.
  rewrite lookup_insert_eq. case_decide; [|by exists oc].
  exists (<[i := (damp n0 * p + (1 - damp n0) * x)%Qc]> oc). split.
  - by rewrite insert_insert_eq.
  - rewrite <-(list_insert_id o0 i p) by done.
    apply Forall2_insert; [done|]. by exists x.
Qed.

Ltac wp_self Hσ :=
  apply wp_bind, wp_get_node; rewrite (after_message_node _ Hσ).

Lemma Variable_message_loop_effect ix σ :
  after_message σ →
  wp (for_each ix (λ i,
        n ← get_node self;
        all_msgs ← read_list (in_msgs n);
        all_msgs ← py_del all_msgs i;
        p ← list_getitem (prev_out_msgs n) i;
        list_setitem (out_msgs n) i
          (damp n * p + (1 - damp n) * np_sum all_msgs)%Qc))
     (λ _, after_message) (λ _, after_message) σ.
Proof.
  intros Hσ. apply wp_for_each; [done|]. clear σ Hσ. intros i σ _ Hσ.
  wp_self Hσ. wp_read. intros all_msgs. wp_read. intros all_msgs'.
  apply wp_bind. apply wp_after_message_prev; [done| |done].
  intros p Hp. by apply wp_after_message_write.
Qed.

Lemma Factor_message_IJ_effect dismatrix σ :
  after_message σ →
  wp (nb ← neighbor self 0;
      i ← i_index nb;
      nb ← neighbor self 0;
      j ← j_index nb;
      sigma ← or_raise IndexError (np_get2 dismatrix i j);
      p ← list_getitem (prev_out_msgs snapshot_node) 0;
      list_setitem (out_msgs snapshot_node) 0
        (damp snapshot_node * p + (1 - damp snapshot_node) * - sigma)%Qc)
     (λ _, after_message) (λ _, after_message) σ.
Proof.
  intros Hσ. wp_read. intros nb. wp_read. intros i. wp_read. intros nb'.
  wp_read. intros j. wp_read. intros sigma.
  apply wp_bind. apply wp_after_message_prev; [done| |done].
  intros p Hp. by apply wp_after_message_write.
Qed.

Lemma Factor_message_JF_loop_effect eta ix σ :
  after_message σ →
  wp (for_each ix (λ i,
        temp_eta ← py_del eta i;
        p ← list_getitem (prev_out_msgs snapshot_node) i;
        m ← or_raise ValueError (py_max temp_eta);
        list_setitem (out_msgs snapshot_node) i
          (damp snapshot_node * p + (1 - damp snapshot_node) * - m)%Qc))
     (λ _, after_message) (λ _, after_message) σ.
Proof.
  intros Hσ. apply wp_for_each; [done|]. clear σ Hσ. intros i σ _ Hσ.
  wp_read. intros temp_eta.
  apply wp_bind. apply wp_after_message_prev; [done| |done].
  intros p Hp. wp_read. intros m. by apply wp_after_message_write.
Qed.

Lemma Factor_message_IC_loop_effect reg dis_eta ix σ :
  after_message σ →
  wp (for_each ix (λ j,
        let temp_dis_eta := dis_eta in
        py_del temp_dis_eta j;;
        let sum_value := np_sum (np_maximum0 temp_dis_eta) in
        let alpha := Qcmin 0 (- reg + sum_value)%Qc in
        p ← list_getitem (prev_out_msgs snapshot_node) j;
        list_setitem (out_msgs snapshot_node) j
          (damp snapshot_node * p + (1 - damp snapshot_node) * alpha)%Qc))
     (λ _, after_message) (λ _, after_message) σ.
Proof.
  intros Hσ. apply wp_for_each; [done|]. clear σ Hσ. intros j σ _ Hσ.
  simpl. wp_read. intros _.
  apply wp_bind. apply wp_after_message_prev; [done| |done].
  intros p Hp. by apply wp_after_message_write.
Qed.

(** Whatever [message] returns or raises, it ends in a store of the shape
    [after_message]. *)
Lemma message_effect :
  wp (message self) (λ _, after_message) (λ _, after_message) σ0.
Proof.
  unfold message. apply wp_bind, wp_get_node. rewrite Hself.
  destruct (cls n0) as [vi vj|d r m n] eqn:Hcls.
  - unfold Variable_message.
    apply wp_bind, wp_get_node. rewrite Hself.
    apply wp_bind, wp_read_list. rewrite Hout.
    apply wp_bind, wp_alloc_list. apply wp_bind, wp_set_node. simpl.
    pose proof after_message_start as Hσ. fold snapshot_loc snapshot_node.
    wp_self Hσ. wp_read. intros inp.
    by apply Variable_message_loop_effect.
  - unfold Factor_message.
    apply wp_bind, wp_get_node. rewrite Hself.
    apply wp_bind, wp_read_list. rewrite Hout.
    apply wp_bind, wp_alloc_list. apply wp_bind, wp_set_node. simpl.
    pose proof after_message_start as Hσ. fold snapshot_loc snapshot_node.
    wp_self Hσ. repeat case_decide.
    + by apply Factor_message_IJ_effect.
    + wp_read. intros nb. wp_read. intros j. wp_read. intros eta.
      by apply Factor_message_JF_loop_effect.
    + wp_read. intros nb. wp_read. intros i. wp_read. intros dis_eta.
      by apply Factor_message_IC_loop_effect.
Qed.

End message_effect.

(** * Leave-one-out reductions *)

Lemma filter_all {A} (P : A → Prop) `{!∀ x, Decision (P x)} (l : list A) :
  Forall P l → filter P l = l.
Proof.
  induction 1 as [|x l Hx _ IH]; [done|].
  rewrite filter_cons_True by done. by rewrite IH.
Qed.

Lemma others_split n i :
  i < n → others n i = seq 0 i ++ seq (S i) (n - S i).
Proof.
  intros Hi. unfold others.
  replace n with (i + S (n - S i)) at 1 by lia.
  rewrite seq_app, filter_app. simpl.
  rewrite filter_cons_False by (intros H; by apply H).
  rewrite !filter_all; [done| |].
  - apply Forall_forall. intros k Hk%elem_of_seq. lia.
  - apply Forall_forall. intros k Hk%elem_of_seq. lia.
Qed.

Lemma lookup_total_seq (l : list Qc) a len :
  a + len ≤ length l → (λ k, l !!! k) <$> seq a len = take len (drop a l).
Proof.
  revert a. induction len as [|len IH]; intros a Hlen; [done|].
  simpl. destruct (lookup_lt_is_Some_2 l a) as [x Hx]; [lia|].
  rewrite (drop_S l x a) by done. simpl.
  rewrite (list_lookup_total_correct _ _ _ Hx). f_equal.
  rewrite IH by lia. done.
Qed.

Lemma delete_others (l : list Qc) i :
  i < length l → delete i l = (λ k, l !!! k) <$> others (length l) i.
Proof.
  intros Hi. rewrite others_split by done. rewrite fmap_app.
  rewrite !lookup_total_seq by lia.
  rewrite delete_take_drop. f_equal.
  rewrite take_ge; [done|]. rewrite length_drop. lia.
Qed.

(** Deleting slot [i] and summing is the leave-one-out sum. *)
Lemma np_sum_delete (l : list Qc) i :
  i < length l → np_sum (delete i l) = loo_sum l i.
Proof. intros Hi. unfold loo_sum, sum_for. by rewrite <-delete_others. Qed.

Lemma np_sum_app l k : np_sum (l ++ k) = (np_sum l + np_sum k)%Qc.
Proof.
  induction l as [|x l IH]; simpl; [by rewrite Qcplus_0_l|].
  rewrite IH. ring.
Qed.

(** The leave-one-out sum is the whole sum without the term of [i]. *)
Lemma loo_sum_total (l : list Qc) i x :
  l !! i = Some x → (loo_sum l i + x)%Qc = np_sum l.
Proof.
  intros Hx. rewrite <-np_sum_delete by (by eapply lookup_lt_Some).
  rewrite delete_take_drop. rewrite <-(take_drop_middle l i x) at 3 by done.
  rewrite !np_sum_app. simpl. ring.
Qed.

Lemma py_max_foldl_ge (r : list Qc) x :
  (x ≤ foldl (λ m y, if decide (m < y)%Qc then y else m) x r)%Qc.
Proof.
  revert x. induction r as [|y r IH]; intros x; simpl; [apply Qcle_refl|].
  case_decide.
  - eapply Qcle_trans; [by apply Qclt_le_weak|apply IH].
  - apply IH.
Qed.

Lemma py_max_foldl_elem (r : list Qc) x :
  foldl (λ m y, if decide (m < y)%Qc then y else m) x r ∈ x :: r.
Proof.
  revert x. induction r as [|y r IH]; intros x; simpl; [left|].
  case_decide.
  - right. apply IH.
  - specialize (IH x). apply elem_of_cons in IH as [->|?]; [left|].
    by right; right.
Qed.

Lemma py_max_foldl_ub (r : list Qc) x z :
  z ∈ r → (z ≤ foldl (λ m y, if decide (m < y)%Qc then y else m) x r)%Qc.
Proof.
  revert x. induction r as [|y r IH]; intros x Hz; [by apply elem_of_nil in Hz|].
  simpl. apply elem_of_cons in Hz as [->|Hz]; [|by apply IH].
  case_decide.
  - apply py_max_foldl_ge.
  - eapply Qcle_trans; [by apply Qcnot_lt_le|apply py_max_foldl_ge].
Qed.

(** [max] of a list returns an element that bounds all the others. *)
Lemma py_max_spec (l : list Qc) m :
  py_max l = Some m → m ∈ l ∧ ∀ x, x ∈ l → (x ≤ m)%Qc.
Proof.
  destruct l as [|x r]; [done|]. intros [= <-]. split.
  - apply py_max_foldl_elem.
  - intros z [->|Hz]%elem_of_cons; [apply py_max_foldl_ge|].
    by apply py_max_foldl_ub.
Qed.

Lemma py_max_is_Some (l : list Qc) : l ≠ [] → is_Some (py_max l).
Proof. by destruct l. Qed.

Lemma elem_of_delete (l : list Qc) i x :
  x ∈ delete i l ↔ ∃ k, k ≠ i ∧ l !! k = Some x.
Proof.
  rewrite list_elem_of_lookup. split.
  - intros [k Hk]. destruct (decide (k < i)).
    + exists k. rewrite list_lookup_delete_lt in Hk by done. split; [lia|done].
    + exists (S k). rewrite list_lookup_delete_ge in Hk by lia. split; [lia|done].
  - intros (k & Hk & Hx). destruct (decide (k < i)).
    + exists k. by rewrite list_lookup_delete_lt.
    + exists (pred k). rewrite list_lookup_delete_ge by lia.
      by replace (S (pred k)) with k by lia.
Qed.

(** Deleting slot [i] and taking [max] is the leave-one-out maximum. *)
Lemma py_max_delete (l : list Qc) i :
  i < length l → 2 ≤ length l →
  ∃ m, py_max (delete i l) = Some m ∧ is_loo_max l i m.
Proof.
  intros Hi Hlen. destruct (py_max_is_Some (delete i l)) as [m Hm].
  { intros Hnil. apply (f_equal length) in Hnil.
    rewrite length_delete in Hnil by (by apply lookup_lt_is_Some_2).
    simpl in Hnil. lia. }
  exists m. split; [done|]. apply py_max_spec in Hm as [Hin Hub]. split.
  - by apply elem_of_delete.
  - intros k x Hk Hx. apply Hub, elem_of_delete. eauto.
Qed.

(** A leave-one-out maximum is unique. *)
Lemma is_loo_max_unique (l : list Qc) i m m' :
  is_loo_max l i m → is_loo_max l i m' → m = m'.
Proof.
  intros [(k & Hk & Hm) Hub] [(k' & Hk' & Hm') Hub'].
  apply Qcle_antisym; eauto.
Qed.

(** * Runs that return *)

Lemma wp_returns (m : M unit) (Q : store → Prop) σ :
  wp m (λ _, Q) (λ _ _, False) σ → ∃ σ', m σ = (Ok (), σ') ∧ Q σ'.
Proof.
  unfold wp. destruct (m σ) as [[[]|e] σ']; [|done]. intros HQ. by exists σ'.
Qed.

Lemma insert_prefix_drop (pre l : list Qc) x :
  length pre < length l →
  <[length pre := x]> (pre ++ drop (length pre) l)
  = (pre ++ [x]) ++ drop (S (length pre)) l.
Proof.
  intros Hlen. destruct (lookup_lt_is_Some_2 l (length pre)) as [y Hy]; [done|].
  rewrite (drop_S l y (length pre)) by done.
  rewrite insert_app_r_alt by done. rewrite Nat.sub_diag. simpl.
  by rewrite <-app_assoc.
Qed.

(** A loop over [range(n)] whose round [i] stores [g i] in slot [i] of the
    list object [out], and changes nothing else, leaves [g] tabulated
    there. *)
Lemma wp_write_loop N L out (o0 : list Qc) (g : nat → Qc) body n E :
  length o0 = n →
  (∀ i oc, i < n → length oc = n →
     wp (body i)
        (λ _ σ', σ' = mkStore N (<[out := <[i := g i]> oc]> L)) E
        (mkStore N (<[out := oc]> L))) →
  wp (for_each (seq 0 n) body)
     (λ _ σ', σ' = mkStore N (<[out := g <$> seq 0 n]> L)) E
     (mkStore N (<[out := o0]> L)).
Proof.
  intros Hlen Hbody.
  eapply wp_mono;
    [apply (wp_for_range
              (λ k σ, σ = mkStore N (<[out := (g <$> seq 0 k) ++ drop k o0]> L)))
    | |done].
  - done.
  - intros i σ' Hi ->.
    eapply wp_mono; [apply Hbody; [done|]| |done].
    + rewrite length_app, length_fmap, length_seq, length_drop. lia.
    + intros _ σ'' ->. do 2 f_equal.
      pose proof (insert_prefix_drop (g <$> seq 0 i) o0 (g i)) as Hins.
      rewrite length_fmap, length_seq in Hins. rewrite Hins by lia.
      by rewrite seq_S, fmap_app.
  - intros _ σ' ->. do 2 f_equal. simpl.
    rewrite drop_ge by lia. by rewrite app_nil_r.
Qed.

(** A comprehension whose element [k] is read as [g k] without changing
    the store tabulates [g]. *)
Lemma comprehension_run {A} (f : nat → M A) (g : nat → A) ks σ :
  (∀ k, k ∈ ks → f k σ = (Ok (g k), σ)) →
  comprehension ks f σ = (Ok (g <$> ks), σ).
Proof.
  induction ks as [|k ks IH]; intros Hf; [done|].
  simpl. unfold mbind, M_bind, bind. rewrite Hf by left.
  rewrite IH; [done|]. intros k' Hk'. apply Hf. by right.
Qed.

Lemma wp_comprehension_run {A} (f : nat → M A) (g : nat → A) ks Q E σ :
  (∀ k, k ∈ ks → f k σ = (Ok (g k), σ)) →
  Q (g <$> ks) σ →
  wp (comprehension ks f) Q E σ.
Proof. intros Hf HQ. unfold wp. by rewrite (comprehension_run f g). Qed.

Lemma tabulate_lookup (g : nat → Qc) n i :
  i < n → (g <$> seq 0 n) !! i = Some (g i).
Proof. intros Hi. rewrite list_lookup_fmap, lookup_seq_lt by done. done. Qed.

Lemma tabulate_total (l : list Qc) :
  (λ k, l !!! k) <$> seq 0 (length l) = l.
Proof. rewrite lookup_total_seq by lia. simpl. apply take_ge. lia. Qed.

Lemma wp_eq (m : M unit) σ σ' :
  wp m (λ _ s, s = σ') (λ _ _, False) σ → m σ = (Ok (), σ').
Proof. intros (s & -> & ->)%wp_returns. done. Qed.

(** ** [Variable.message] *)

Section Variable_run.
Variables (self : loc) (σ : store) (n : Node) (inp out : list Qc).
Hypothesis Hself : nodes σ !! self = Some n.
Hypothesis Hin : lists σ !! in_msgs n = Some inp.
Hypothesis Hout : lists σ !! out_msgs n = Some out.
Hypothesis Hsep : in_msgs n ≠ out_msgs n.
Hypothesis Hlen : length out = length inp.

Local Abbreviation Variable_new_out := (Variable_new_out n inp out).
Local Abbreviation Variable_message_store :=
  (Variable_message_store self σ n inp out).

Lemma Variable_message_run :
  Variable_message self σ = (Ok (), Variable_message_store).
Proof.
  pose proof (snapshot_ne_out σ n out Hout) as Hne.
  assert (snapshot_loc σ ≠ in_msgs n) as Hne'.
  { intros Heq. pose proof (snapshot_fresh σ) as H. rewrite Heq in H. congruence. }
  apply wp_eq. unfold Variable_message.
  apply wp_bind, wp_get_node. rewrite Hself.
  apply wp_bind, wp_read_list. rewrite Hout.
  apply wp_bind, wp_alloc_list. apply wp_bind, wp_set_node. simpl.
  fold (snapshot_loc σ). fold (snapshot_node σ n).
  apply wp_bind, wp_get_node. simpl. rewrite lookup_insert_eq.
  apply wp_bind, wp_read_list. simpl.
  rewrite lookup_insert_ne by done. rewrite Hin.
  rewrite <-(insert_id (<[snapshot_loc σ := out]> (lists σ)) (out_msgs n) out)
    by (by rewrite lookup_insert_ne).
  apply wp_write_loop; [done|]. intros i oc Hi Hoc.
  apply wp_bind, wp_get_node. simpl. rewrite lookup_insert_eq.
  apply wp_bind, wp_read_list. simpl.
  rewrite !lookup_insert_ne by done. rewrite Hin.
  apply wp_bind, wp_py_del. rewrite decide_True by done.
  apply wp_bind, wp_list_getitem. simpl.
  rewrite lookup_insert_ne, lookup_insert_eq by done.
  destruct (lookup_lt_is_Some_2 out i) as [p Hp]; [lia|]. rewrite Hp.
  apply wp_list_setitem. simpl. rewrite lookup_insert_eq.
  rewrite decide_True by lia. rewrite insert_insert_eq.
  unfold Variable_new_out. by rewrite (list_lookup_total_correct _ _ _ Hp).
Qed.

End Variable_run.

(** ** [Factor.message] *)

Lemma wp_run_eq {A} (m : M A) σ a σ' Q E :
  m σ = (Ok a, σ') → Q a σ' → wp m Q E σ.
Proof. intros Hm HQ. unfold wp. by rewrite Hm. Qed.

Lemma wp_raises {A} (m : M A) σ e σ' Q E :
  m σ = (Raise e, σ') → E e σ' → wp m Q E σ.
Proof. intros Hm HE. unfold wp. by rewrite Hm. Qed.

Lemma neighbor_run s self n k a :
  nodes s !! self = Some n → neighbors n !! k = Some a →
  neighbor self k s = (Ok a, s).
Proof.
  intros Hn Hk. unfold neighbor, mbind, M_bind, bind, get_node.
  rewrite Hn. simpl. by rewrite Hk.
Qed.

Lemma i_index_run s a v i j :
  nodes s !! a = Some v → cls v = VariableNode i j → i_index a s = (Ok i, s).
Proof.
  intros Hv Hc. unfold i_index, mbind, M_bind, bind, get_node.
  rewrite Hv. simpl. by rewrite Hc.
Qed.

Lemma j_index_run s a v i j :
  nodes s !! a = Some v → cls v = VariableNode i j → j_index a s = (Ok j, s).
Proof.
  intros Hv Hc. unfold j_index, mbind, M_bind, bind, get_node.
  rewrite Hv. simpl. by rewrite Hc.
Qed.

Lemma neighbor_in_msg_run s self n k slot x :
  nodes s !! self = Some n → nbr_in_msg s n k slot x →
  neighbor_in_msg self k slot s = (Ok x, s).
Proof.
  intros Hn (a & v & l & Hk & Hv & Hl & Hx).
  unfold neighbor_in_msg, mbind, M_bind, bind.
  rewrite (neighbor_run s self n k a) by done.
  unfold get_node. rewrite Hv. simpl.
  unfold list_getitem, mbind, M_bind, bind, read_list. rewrite Hl. simpl.
  by rewrite Hx.
Qed.

Section Factor_run.
Variables (self : loc) (σ : store) (n : Node) (out : list Qc).
Variables (dismatrix : ndarray) (reg : Qc).
Hypothesis Hself : nodes σ !! self = Some n.
Hypothesis Hout : lists σ !! out_msgs n = Some out.
Hypothesis Hlen : length out = length (neighbors n).

Local Abbreviation snapshot_store := (snapshot_store self σ n out).
Local Abbreviation loop_store := (loop_store self σ n out).
Local Abbreviation Factor_message_store := (Factor_message_store self σ n out).
Local Abbreviation IJ_new_out := (IJ_new_out n out).
Local Abbreviation JF_new_out := (JF_new_out n out).
Local Abbreviation IC_new_out := (IC_new_out n out reg).

Lemma snapshot_store_self :
  nodes snapshot_store !! self = Some (snapshot_node σ n).
Proof. apply lookup_insert_eq. Qed.

Lemma snapshot_store_node a v :
  nodes σ !! a = Some v →
  ∃ v', nodes snapshot_store !! a = Some v' ∧ cls v' = cls v ∧
        in_msgs v' = in_msgs v.
Proof.
  intros Hv. simpl. destruct (decide (self = a)) as [<-|Hne].
  - rewrite lookup_insert_eq. exists (snapshot_node σ n). by simplify_eq.
  - rewrite lookup_insert_ne by done. by exists v.
Qed.

Lemma snapshot_store_list l v :
  lists σ !! l = Some v → lists snapshot_store !! l = Some v.
Proof.
  intros Hl. simpl. rewrite lookup_insert_ne; [done|].
  intros Heq. pose proof (snapshot_fresh σ) as H. rewrite Heq in H. congruence.
Qed.

Lemma snapshot_store_nbr_index k i j :
  nbr_index σ n k i j → nbr_index snapshot_store (snapshot_node σ n) k i j.
Proof.
  intros (a & v & Hk & Hv & Hc).
  destruct (snapshot_store_node a v Hv) as (v' & Hv' & Hc' & _).
  exists a, v'. split_and!; [done|done|congruence].
Qed.

Lemma snapshot_store_nbr_in_msg k slot x :
  nbr_in_msg σ n k slot x →
  nbr_in_msg snapshot_store (snapshot_node σ n) k slot x.
Proof.
  intros (a & v & l & Hk & Hv & Hl & Hx).
  destruct (snapshot_store_node a v Hv) as (v' & Hv' & _ & Hin).
  exists a, v', l. split_and!; [done|done| |done].
  rewrite Hin. by apply snapshot_store_list.
Qed.

(** The first lines of [Factor.message]: the snapshot. *)
Lemma wp_Factor_snapshot (k : Node → M unit) Q E :
  wp (k (snapshot_node σ n)) Q E snapshot_store →
  wp (n ← get_node self;
      o ← read_list (out_msgs n);
      prev_out_msg ← alloc_list o;
      set_node self (set_prev_out_msgs n prev_out_msg);;
      n ← get_node self;
      k n) Q E σ.
Proof.
  intros Hk.
  apply wp_bind, wp_get_node. rewrite Hself.
  apply wp_bind, wp_read_list. rewrite Hout.
  apply wp_bind, wp_alloc_list. apply wp_bind, wp_set_node. simpl.
  apply wp_bind, wp_get_node. simpl. by rewrite lookup_insert_eq.
Qed.

(** Reading slot [i] of the snapshot in a loop. *)
Lemma wp_snapshot_getitem i oc Q E :
  i < length (neighbors n) →
  Q (out !!! i) (loop_store oc) →
  wp (list_getitem (prev_out_msgs (snapshot_node σ n)) i) Q E (loop_store oc).
Proof.
  intros Hi HQ. pose proof (snapshot_ne_out σ n out Hout) as Hne.
  apply wp_list_getitem. simpl.
  rewrite lookup_insert_ne, lookup_insert_eq by done.
  destruct (lookup_lt_is_Some_2 out i) as [p Hp]; [lia|]. rewrite Hp.
  by rewrite (list_lookup_total_correct _ _ _ Hp) in HQ.
Qed.

(** Storing into slot [i] of [out_msgs] in a loop. *)
Lemma wp_out_setitem i x oc E :
  i < length (neighbors n) → length oc = length (neighbors n) →
  wp (list_setitem (out_msgs (snapshot_node σ n)) i x)
     (λ _ σ', σ' = loop_store (<[i := x]> oc)) E (loop_store oc).
Proof.
  intros Hi Hoc. apply wp_list_setitem. simpl. rewrite lookup_insert_eq.
  rewrite decide_True by lia. unfold loop_store. by rewrite insert_insert_eq.
Qed.

Lemma snapshot_store_out : snapshot_store = loop_store out.
Proof.
  unfold loop_store, snapshot_store at 1. f_equal. symmetry. apply insert_id.
  by apply snapshot_store_list.
Qed.

Lemma Factor_message_store_loop g :
  Factor_message_store g = loop_store (g <$> seq 0 (length (neighbors n))).
Proof. done. Qed.

(** *** pairwise-link *)

Lemma Factor_message_IJ_run i j sigma :
  nodetype n = "IJ"%string →
  nbr_index σ n 0 i j →
  np_get2 dismatrix i j = Some sigma →
  Factor_message self dismatrix reg σ
  = (Ok (), loop_store (<[0 := IJ_new_out sigma]> out)).
Proof.
  intros Htype Hnb%snapshot_store_nbr_index Hsigma.
  destruct Hnb as (a & v & Ha & Hv & Hc).
  assert (0 < length (neighbors n)) as Hpos.
  { by eapply lookup_lt_Some. }
  apply wp_eq. unfold Factor_message. apply wp_Factor_snapshot.
  rewrite decide_True by done.
  pose proof snapshot_store_self as Hs.
  apply wp_bind. eapply wp_run_eq; [by eapply neighbor_run|].
  apply wp_bind. eapply wp_run_eq; [by eapply i_index_run|].
  apply wp_bind. eapply wp_run_eq; [by eapply neighbor_run|].
  apply wp_bind. eapply wp_run_eq; [by eapply j_index_run|].
  apply wp_bind, wp_or_raise. rewrite Hsigma.
  rewrite snapshot_store_out.
  apply wp_bind, wp_snapshot_getitem; [done|].
  by apply wp_out_setitem.
Qed.

(** *** row-uniqueness *)

Lemma Factor_message_JF_run i j eta :
  nodetype n = "JF"%string →
  nbr_index σ n 0 i j →
  is_eta σ n dismatrix j eta →
  2 ≤ length (neighbors n) →
  Factor_message self dismatrix reg σ
  = (Ok (), Factor_message_store (JF_new_out eta)).
Proof.
  intros Htype Hnb%snapshot_store_nbr_index [Heta_len Heta] Hlen2.
  destruct Hnb as (a & v & Ha & Hv & Hc).
  apply wp_eq. unfold Factor_message. apply wp_Factor_snapshot.
  rewrite decide_False by (simpl; by rewrite Htype).
  rewrite decide_True by done.
  pose proof snapshot_store_self as Hs.
  apply wp_bind. eapply wp_run_eq; [by eapply neighbor_run|].
  apply wp_bind. eapply wp_run_eq; [by eapply j_index_run|].
  apply wp_bind. apply (wp_comprehension_run _ (λ k, eta !!! k)).
  { intros k Hk%elem_of_seq. simpl in Hk.
    destruct (lookup_lt_is_Some_2 eta k) as [e He]; [lia|].
    destruct (Heta k e He) as (x & y & Hx%snapshot_store_nbr_in_msg & Hy & ->).
    unfold mbind, M_bind, bind.
    rewrite (neighbor_in_msg_run _ _ _ _ _ _ Hs Hx). rewrite Hy. simpl.
    by rewrite (list_lookup_total_correct _ _ _ He). }
  simpl neighbors. rewrite <-Heta_len, tabulate_total, Heta_len.
  rewrite snapshot_store_out, Factor_message_store_loop.
  apply wp_write_loop; [done|]. intros k oc Hk Hoc.
  apply wp_bind, wp_py_del. rewrite decide_True by lia.
  apply wp_bind, wp_snapshot_getitem; [done|].
  destruct (py_max_delete eta k) as (m & Hm & _); [lia..|].
  apply wp_bind, wp_or_raise. rewrite Hm.
  unfold JF_new_out. rewrite Hm. simpl. by apply wp_out_setitem.
Qed.

(** *** column-budget *)

Lemma Factor_message_IC_run i j dis_eta :
  nodetype n ≠ "IJ"%string → nodetype n ≠ "JF"%string →
  nbr_index σ n 0 i j →
  is_dis_eta σ n dismatrix i dis_eta →
  Factor_message self dismatrix reg σ
  = (Ok (), Factor_message_store (IC_new_out dis_eta)).
Proof.
  intros Htype1 Htype2 Hnb%snapshot_store_nbr_index [Heta_len Heta].
  destruct Hnb as (a & v & Ha & Hv & Hc).
  apply wp_eq. unfold Factor_message. apply wp_Factor_snapshot.
  rewrite !decide_False by done.
  pose proof snapshot_store_self as Hs.
  apply wp_bind. eapply wp_run_eq; [by eapply neighbor_run|].
  apply wp_bind. eapply wp_run_eq; [by eapply i_index_run|].
  apply wp_bind. apply (wp_comprehension_run _ (λ k, dis_eta !!! k)).
  { intros k Hk%elem_of_seq. simpl in Hk.
    destruct (lookup_lt_is_Some_2 dis_eta k) as [e He]; [lia|].
    destruct (Heta k e He) as (x & y & Hx%snapshot_store_nbr_in_msg & Hy & ->).
    unfold mbind, M_bind, bind.
    rewrite (neighbor_in_msg_run _ _ _ _ _ _ Hs Hx). rewrite Hy. simpl.
    by rewrite (list_lookup_total_correct _ _ _ He). }
  simpl neighbors. rewrite <-Heta_len, tabulate_total, Heta_len.
  rewrite snapshot_store_out, Factor_message_store_loop.
  apply wp_write_loop; [done|]. intros k oc Hk Hoc.
  simpl. apply wp_bind, wp_py_del. rewrite decide_True by lia.
  apply wp_bind, wp_snapshot_getitem; [done|].
  unfold IC_new_out. by apply wp_out_setitem.
Qed.

End Factor_run.

(** * The claims *)

Lemma msgs_of_lookup f a σ n :
  nodes σ !! a = Some n → msgs_of f a σ = lists σ !! f n.
Proof. intros Hn. unfold msgs_of. by rewrite Hn. Qed.

Lemma message_Variable self σ n i j :
  nodes σ !! self = Some n → cls n = VariableNode i j →
  message self σ = Variable_message self σ.
Proof.
  intros Hn Hc. unfold message, mbind, M_bind, bind, get_node.
  rewrite Hn. simpl. by rewrite Hc.
Qed.

Lemma message_Factor self σ n d r M N :
  nodes σ !! self = Some n → cls n = FactorNode d r M N →
  message self σ = Factor_message self d r σ.
Proof.
  intros Hn Hc. unfold message, mbind, M_bind, bind, get_node.
  rewrite Hn. simpl. by rewrite Hc.
Qed.

(** Integers that fit in 64 bits are what they are in 64 bits. *)
Lemma int64_wrap_fits (z : Z) : fits_int64 z → int64_wrap z = z.
Proof.
  unfold fits_int64, int64_wrap. intros Hz.
  rewrite Z.mod_small by lia. lia.
Qed.

Lemma Qcz_add (a b : Z) : Qcz (a + b) = (Qcz a + Qcz b)%Qc.
Proof.
  apply Qc_is_canon. unfold Qcz. simpl. rewrite !Qred_correct.
  unfold Qeq. simpl. lia.
Qed.

Lemma Qcz_mul (a b : Z) : Qcz (a * b) = (Qcz a * Qcz b)%Qc.
Proof.
  apply Qc_is_canon. unfold Qcz. simpl. rewrite !Qred_correct.
  unfold Qeq. simpl. lia.
Qed.

Lemma Qcz_sub (a b : Z) : Qcz (a - b) = (Qcz a - Qcz b)%Qc.
Proof.
  apply Qc_is_canon. unfold Qcz. simpl. rewrite !Qred_correct.
  unfold Qeq. simpl. lia.
Qed.

Lemma int64_safe_Qcz (z : Z) : int64_safe (Qcz z) ↔ fits_int64 z.
Proof.
  unfold int64_safe, Qcz. simpl.
  replace (Qred (inject_Z z)) with (inject_Z z); [simpl; tauto|].
  symmetry. apply Qred_identity. simpl. apply Z.gcd_1_r.
Qed.

Lemma np_sum_Qcz (zs : list Z) : np_sum (Qcz <$> zs) = Qcz (foldr Z.add 0%Z zs).
Proof.
  induction zs as [|z zs IH]; [by apply Qc_eq_this|].
  rewrite fmap_cons. unfold np_sum in *. cbn [foldr].
  by rewrite IH, Qcz_add.
Qed.

(** On integers, where no operand and no result leaves the int64 range,
    line 124 computes in 64 bits what the rule says. *)
Lemma Variable_out_int64_safe (d p : Z) (zs : list Z) :
  damping_int64_safe (Qcz d) (Qcz p) (np_sum (Qcz <$> zs)) →
  Qcz (Variable_out_int64 d p zs)
  = (Qcz d * Qcz p + (1 - Qcz d) * np_sum (Qcz <$> zs))%Qc.
Proof.
  unfold damping_int64_safe. rewrite np_sum_Qcz.
  replace 1%Qc with (Qcz 1) by (by apply Qc_eq_this).
  rewrite <-Qcz_sub, <-!Qcz_mul, <-Qcz_add.
  rewrite !Forall_cons, !int64_safe_Qcz.
  intros (_ & _ & _ & Hs & _ & Hm & Ht & _).
  unfold Variable_out_int64, np_sum_int64.
  by rewrite (int64_wrap_fits _ Hs), (int64_wrap_fits _ Hm),
    (int64_wrap_fits _ Ht).
Qed.

(** C2 (as stated) fails on integer messages: for [in_msgs] the Python
    ints [[2^62, 2^62, 0]], with [damp = 0] and [prev_out_msgs[2] = 0],
    line 124 computes [np.sum([2^62, 2^62])] in 64 bits and stores
    [-2^63] in slot 2, where the sum of the other [in_msgs] is [2^63]. *)
Lemma C2_counterexample :
  ¬ (∀ (d p : Z) (zs : list Z) (k : nat),
       fits_int64 d → fits_int64 (1 - d) → fits_int64 p →
       fits_int64 (d * p) → Forall fits_int64 zs →
       1 < length zs → k < length zs →
       Qcz (Variable_out_int64 d p (delete k zs))
       = (Qcz d * Qcz p + (1 - Qcz d) * loo_sum (Qcz <$> zs) k)%Qc).
Proof.
  intros H.
  specialize (H 0%Z 0%Z [2 ^ 62; 2 ^ 62; 0]%Z 2).
  assert (Qcz (Variable_out_int64 0 0 (delete 2 [2 ^ 62; 2 ^ 62; 0]%Z))
          = Qcz (- 2 ^ 63)) as Hcode by (by apply Qc_eq_this).
  assert ((Qcz 0 * Qcz 0
           + (1 - Qcz 0) * loo_sum (Qcz <$> [2 ^ 62; 2 ^ 62; 0]%Z) 2)%Qc
          = Qcz (2 ^ 63)) as Hclaim by (by apply Qc_eq_this).
  rewrite Hcode, Hclaim in H.
  assert (Qcz (- 2 ^ 63) = Qcz (2 ^ 63)) as Heq.
  { apply H; [apply (bool_decide_unpack _); by vm_compute..|simpl; lia|simpl; lia]. }
  apply (f_equal (λ x : Qc, Qnum x)) in Heq. by vm_compute in Heq.
Qed.

(** C2 (amended): for a Variable node (whose lists [in_msgs] and
    [out_msgs] are two list objects of the same length), [message]
    returns; afterwards [prev_out_msgs] holds the old [out_msgs], and slot
    [k] of [out_msgs] holds [damp * prev_out_msgs[k] + (1 - damp) * S]
    where [S] is the sum of [in_msgs] over all indices except [k],
    provided that no integer among [in_msgs], [damp], [1 - damp],
    [prev_out_msgs[k]], [S], the two products and the new value leaves
    the int64 range.  With [in_msgs = [2, -1, 3]] and [damp = 0] the new
    [out_msgs] is [[2, 5, 1]]. *)
Theorem C2_Variable_message (self : loc) (σ : store) (n : Node) (i j : Z)
    (inp out : list Qc) :
  nodes σ !! self = Some n →
  cls n = VariableNode i j →
  lists σ !! in_msgs n = Some inp →
  lists σ !! out_msgs n = Some out →
  in_msgs n ≠ out_msgs n →
  length out = length inp →
  ∃ σ' out',
    message self σ = (Ok (), σ') ∧
    msgs_of prev_out_msgs self σ' = Some out ∧
    msgs_of out_msgs self σ' = Some out' ∧
    length out' = length out ∧
    (∀ k p, out !! k = Some p →
       Forall int64_safe inp →
       damping_int64_safe (damp n) p (loo_sum inp k) →
       out' !! k = Some (damp n * p + (1 - damp n) * loo_sum inp k)%Qc) ∧
    (damp n = 0%Qc → inp = [Qcz 2; Qcz (-1); Qcz 3] →
       out' = [Qcz 2; Qcz 5; Qcz 1]).
Proof.
  intros Hself Hcls Hin Hout Hsep Hlen.
  pose proof (snapshot_ne_out σ n out Hout) as Hne.
  exists (Variable_message_store self σ n inp out),
         (Variable_new_out n inp out <$> seq 0 (length inp)).
  split_and!.
  - rewrite (message_Variable _ _ _ _ _ Hself Hcls).
    by apply Variable_message_run.
  - unfold msgs_of, Variable_message_store. simpl. rewrite lookup_insert_eq.
    simpl. rewrite lookup_insert_ne by done. apply lookup_insert_eq.
  - unfold msgs_of, Variable_message_store. simpl. rewrite lookup_insert_eq.
    simpl. apply lookup_insert_eq.
  - by rewrite length_fmap, length_seq.
  - intros k p Hp _ _. pose proof (lookup_lt_Some _ _ _ Hp) as Hk.
    rewrite tabulate_lookup by lia. unfold Variable_new_out.
    rewrite (list_lookup_total_correct _ _ _ Hp).
    rewrite np_sum_delete by lia. done.
  - intros Hd ->. simpl. unfold Variable_new_out. rewrite Hd. simpl.
    rewrite !damp_zero. repeat f_equal; by apply Qc_eq_this.
Qed.

Lemma message_after self σ n out :
  nodes σ !! self = Some n → lists σ !! out_msgs n = Some out →
  after_message self σ n out (run_state (message self) σ).
Proof.
  intros Hself Hout. pose proof (message_effect self σ n out Hself Hout) as H.
  unfold wp in H. unfold run_state.
  by destruct (message self σ) as [[[]|e] σ'].
Qed.

(** C5: whatever the class and the type of the node, with [damp == 1] the
    list [out_msgs] after [message] equals the snapshot [prev_out_msgs],
    which is the [out_msgs] held before the call.  This holds for the store
    that [message] leaves, whether it returns or raises. *)
Theorem C5_damp_one (self : loc) (σ : store) (n : Node) (out : list Qc) :
  nodes σ !! self = Some n →
  lists σ !! out_msgs n = Some out →
  damp n = 1%Qc →
  msgs_of out_msgs self (run_state (message self) σ) = Some out ∧
  msgs_of prev_out_msgs self (run_state (message self) σ) = Some out.
Proof.
  intros Hself Hout Hdamp.
  destruct (message_after self σ n out Hself Hout) as (oc & -> & Hoc).
  pose proof (snapshot_ne_out σ n out Hout) as Hne.
  assert (oc = out) as ->.
  { symmetry. apply list_eq_Forall2. eapply Forall2_impl; [exact Hoc|].
    intros p v Hpv. rewrite Hdamp in Hpv. symmetry. by apply damped_one. }
  unfold msgs_of. simpl. rewrite lookup_insert_eq. simpl. split.
  - apply lookup_insert_eq.
  - rewrite lookup_insert_ne by done. apply lookup_insert_eq.
Qed.

(** C10: [message] keeps [neighbors], [damp] and the list [in_msgs] of the
    node (a list object other than [out_msgs]) as they were, and touches
    no other node and no other list.  The snapshot [prev_out_msgs] is a list
    object that did not exist before the call, it is not the object
    [out_msgs], it holds the old [out_msgs], and a later store into a slot
    of [out_msgs] leaves it as it is. *)
Theorem C10_message_frame (self : loc) (σ : store) (n : Node)
    (inp out : list Qc) :
  nodes σ !! self = Some n →
  lists σ !! in_msgs n = Some inp →
  lists σ !! out_msgs n = Some out →
  in_msgs n ≠ out_msgs n →
  ∃ n',
    let σ' := run_state (message self) σ in
    nodes σ' !! self = Some n' ∧
    neighbors n' = neighbors n ∧ damp n' = damp n ∧
    in_msgs n' = in_msgs n ∧ out_msgs n' = out_msgs n ∧
    lists σ' !! in_msgs n' = Some inp ∧
    lists σ !! prev_out_msgs n' = None ∧
    prev_out_msgs n' ≠ out_msgs n' ∧
    lists σ' !! prev_out_msgs n' = Some out ∧
    (∀ k x, lists (run_state (list_setitem (out_msgs n') k x) σ')
              !! prev_out_msgs n' = Some out) ∧
    (∀ a, a ≠ self → nodes σ' !! a = nodes σ !! a) ∧
    (∀ l, l ≠ out_msgs n' → l ≠ prev_out_msgs n' →
          lists σ' !! l = lists σ !! l).
Proof.
  intros Hself Hin Hout Hsep.
  destruct (message_after self σ n out Hself Hout) as (oc & Hσ' & Hoc).
  pose proof (snapshot_ne_out σ n out Hout) as Hne.
  pose proof (snapshot_fresh σ) as Hfresh.
  assert (snapshot_loc σ ≠ in_msgs n) as Hne' by congruence.
  exists (snapshot_node σ n). simpl. rewrite Hσ'. simpl. split_and!; try done.
  - apply lookup_insert_eq.
  - by rewrite !lookup_insert_ne.
  - rewrite lookup_insert_ne by done. apply lookup_insert_eq.
  - intros k x. unfold run_state, list_setitem, mbind, M_bind, bind, read_list.
    simpl. rewrite lookup_insert_eq. simpl.
    case_decide; simpl;
      rewrite !lookup_insert_ne by done; apply lookup_insert_eq.
  - intros a Ha. by rewrite lookup_insert_ne.
  - intros l Hl1 Hl2. by rewrite !lookup_insert_ne.
Qed.

Lemma loop_store_out_msgs self σ n out oc :
  lists σ !! out_msgs n = Some out →
  msgs_of out_msgs self (loop_store self σ n out oc) = Some oc.
Proof.
  intros Hout. unfold msgs_of. simpl. rewrite lookup_insert_eq. simpl.
  apply lookup_insert_eq.
Qed.

Lemma loop_store_prev_out_msgs self σ n out oc :
  lists σ !! out_msgs n = Some out →
  msgs_of prev_out_msgs self (loop_store self σ n out oc) = Some out.
Proof.
  intros Hout. pose proof (snapshot_ne_out σ n out Hout) as Hne.
  unfold msgs_of. simpl. rewrite lookup_insert_eq. simpl.
  rewrite lookup_insert_ne by done. apply lookup_insert_eq.
Qed.



(** ** The column-budget rule as the code has it *)

Lemma option_Qc_list_eq_this (x y : option (list Qc)) :
  fmap (M:=option) (fmap (M:=list) this) x
  = fmap (M:=option) (fmap (M:=list) this) y → x = y.
Proof.
  destruct x as [l|], y as [k|]; intros H; simplify_eq/=; [|done].
  f_equal. by apply Qc_list_eq_this.
Qed.

Lemma np_maximum0_lookup (l : list Qc) k e :
  l !! k = Some e → np_maximum0 l !! k = Some (Qcmax e 0%Qc).
Proof. intros H. unfold np_maximum0. by rewrite list_lookup_fmap, H. Qed.

(** The sum that the code takes is the leave-one-out sum plus the term of
    the target. *)
Lemma column_budget_all_loo (dis_eta : list Qc) j e :
  dis_eta !! j = Some e →
  np_sum (np_maximum0 dis_eta)
  = (sum_for (others (length dis_eta) j) (λ k, Qcmax (dis_eta !!! k) 0)
     + Qcmax e 0)%Qc.
Proof.
  intros He. rewrite <-(loo_sum_total _ j _ (np_maximum0_lookup _ _ _ He)).
  f_equal. unfold loo_sum, sum_for, np_maximum0. rewrite length_fmap.
  f_equal. apply list_fmap_ext. intros i k Hk.
  apply list_elem_of_lookup_2, list_elem_of_filter in Hk as [_ Hk%elem_of_seq].
  destruct (lookup_lt_is_Some_2 dis_eta k) as [x Hx]; [lia|].
  rewrite (list_lookup_total_correct _ _ _ Hx).
  apply list_lookup_total_correct. by rewrite list_lookup_fmap, Hx.
Qed.

(** What [message] does for a column-budget Factor node: slot [k] of
    [out_msgs] gets the damped value of
    [min(0, -reg + sum(max(dis_eta[k], 0) for every k))]. *)
Lemma column_budget_run (self : loc) (σ : store) (n : Node) (d : ndarray)
    (r : Qc) (M N : nat) (i j0 : Z) (dis_eta out : list Qc) :
  nodes σ !! self = Some n →
  cls n = FactorNode d r M N →
  nodetype n = "IC"%string →
  nbr_index σ n 0 i j0 →
  is_dis_eta σ n d i dis_eta →
  lists σ !! out_msgs n = Some out →
  length out = length (neighbors n) →
  ∃ σ' out',
    message self σ = (Ok (), σ') ∧
    msgs_of out_msgs self σ' = Some out' ∧
    length out' = length (neighbors n) ∧
    ∀ j p, out !! j = Some p →
      out' !! j
      = Some (damp n * p + (1 - damp n) * column_budget_all r dis_eta)%Qc.
Proof.
  intros Hself Hcls Htype Hnb Heta Hout Hlen.
  exists (Factor_message_store self σ n out (IC_new_out n out r dis_eta)),
         (IC_new_out n out r dis_eta <$> seq 0 (length (neighbors n))).
  split_and!.
  - rewrite (message_Factor _ _ _ _ _ _ _ Hself Hcls).
    apply (Factor_message_IC_run self σ n out d r Hself Hout Hlen i j0);
      [by rewrite Htype|by rewrite Htype|done|done].
  - rewrite Factor_message_store_loop. by apply loop_store_out_msgs.
  - by rewrite length_fmap, length_seq.
  - intros j p Hp. pose proof (lookup_lt_Some _ _ _ Hp) as Hj.
    rewrite tabulate_lookup by lia. unfold IC_new_out, column_budget_all.
    by rewrite (list_lookup_total_correct _ _ _ Hp).
Qed.

(** C1 (as the code behaves): on [budget_graph], where [reg = 3],
    [damp = 0] and [dis_eta = [1, 1]], the column-budget Factor node of
    row 0 (address 10) gets [out_msgs = [-1, -1]], that is
    [min(0, -3 + (1 + 1))]: the sum keeps the term of the target, since the
    result of [np.delete] is dropped.  The leave-one-out rule gives
    [min(0, -3 + 1) = -2] for both targets. *)
Theorem C1_column_budget_sums_all :
  (∃ n d M N,
     nodes budget_graph !! 10 = Some n ∧
     cls n = FactorNode d (Qcz 3) M N ∧
     nodetype n = "IC"%string ∧ damp n = Qcz 0 ∧
     length (neighbors n) = 2 ∧
     is_dis_eta budget_graph n d 0 [Qcz 1; Qcz 1]) ∧
  run_result (message 10) budget_graph = Ok () ∧
  msgs_of out_msgs 10 (run_state (message 10) budget_graph)
    = Some [Qcz (-1); Qcz (-1)] ∧
  column_budget_all (Qcz 3) [Qcz 1; Qcz 1] = Qcz (-1) ∧
  column_budget_loo (Qcz 3) [Qcz 1; Qcz 1] 0 = Qcz (-2) ∧
  column_budget_loo (Qcz 3) [Qcz 1; Qcz 1] 1 = Qcz (-2).
Proof.
  split_and!.
  - eexists _, _, _, _. split_and!; [by vm_compute..|].
    split; [done|]. intros [|[|k]] e He; simplify_eq/=.
    + eexists _, _. split_and!; [|by vm_compute|].
      * eexists _, _, _. split_and!; by vm_compute.
      * apply Qc_eq_this. by vm_compute.
    + eexists _, _. split_and!; [|by vm_compute|].
      * eexists _, _, _. split_and!; by vm_compute.
      * apply Qc_eq_this. by vm_compute.
  - by vm_compute.
  - apply option_Qc_list_eq_this. by vm_compute.
  - apply Qc_eq_this. by vm_compute.
  - apply Qc_eq_this. by vm_compute.
  - apply Qc_eq_this. by vm_compute.
Qed.

(** ** [Node.checkConvergence] *)

Lemma checkConvergence_loop_run self σ n out prev ix :
  nodes σ !! self = Some n →
  lists σ !! out_msgs n = Some out →
  lists σ !! prev_out_msgs n = Some prev →
  Forall (λ i, i < length out ∧ i < length prev) ix →
  checkConvergence_loop self ix σ
  = (Ok (bool_decide (Forall (slot_settled out prev) ix)), σ).
Proof.
  intros Hself Hout Hprev Hix. induction Hix as [|i ix [Hi1 Hi2] _ IH]; [done|].
  destruct (lookup_lt_is_Some_2 out i) as [o Ho]; [done|].
  destruct (lookup_lt_is_Some_2 prev i) as [p Hp]; [done|].
  simpl. unfold mbind, M_bind, bind, get_node. rewrite Hself. simpl.
  unfold list_getitem, mbind, M_bind, bind, read_list.
  rewrite Hout. simpl. rewrite Ho. simpl. rewrite Hprev. simpl. rewrite Hp. simpl.
  assert (slot_settled out prev i ↔ ¬ (epsilon < Qcabs (o - p))%Qc) as Hiff.
  { unfold slot_settled.
    rewrite (list_lookup_total_correct _ _ _ Ho),
            (list_lookup_total_correct _ _ _ Hp).
    apply Qcle_ngt. }
  case_decide as Hd.
  - unfold ret. do 2 f_equal. symmetry. apply bool_decide_eq_false.
    intros Hall. apply Forall_cons in Hall as [Hs _]. by apply Hiff in Hs.
  - rewrite IH. do 2 f_equal. apply bool_decide_ext.
    rewrite Forall_cons. apply Hiff in Hd. tauto.
Qed.

Lemma Qcabs_zero : Qcabs (0 - 0) = 0%Qc.
Proof. by apply Qc_eq_this. Qed.

Lemma epsilon_nonneg : (0 ≤ epsilon)%Qc.
Proof. by vm_compute. Qed.

(** A node that [Node.__init__] has just made has converged. *)
Lemma Node_init_converged c ty nid dmp σ a σ' :
  Node_init c ty nid dmp σ = (Ok a, σ') →
  checkConvergence a σ' = (Ok true, σ').
Proof.
  unfold Node_init, mbind, M_bind, bind, alloc_list, alloc_node, validTypes.
  simpl. case_decide; [|done]. simpl. intros [= <- <-].
  unfold checkConvergence, mbind, M_bind, bind, get_node. simpl.
  rewrite lookup_insert_eq. simpl. unfold read_list. simpl.
  set (L := lists σ).
  set (i := fresh (dom L)). set (L1 := <[i := []]> L).
  set (o := fresh (dom L1)). set (L2 := <[o := []]> L1).
  set (p := fresh (dom L2)).
  assert (p ≠ o) as Hpo.
  { intros Heq. apply (is_fresh (dom L2)). fold p. rewrite Heq.
    apply elem_of_dom. unfold L2. rewrite lookup_insert_eq. by eexists. }
  rewrite lookup_insert_ne by done. unfold L2. rewrite lookup_insert_eq.
  done.
Qed.


(** ** [Node.receiveMsg] *)

Lemma py_index_Some l x k :
  py_index l x = Some k →
  l !! k = Some x ∧ ∀ k', k' < k → l !! k' ≠ Some x.
Proof.
  revert k. induction l as [|y l IH]; intros k; [done|]. simpl.
  case_decide as Hy.
  - intros [= <-]. split; [by subst|]. intros k' Hk'. lia.
  - destruct (py_index l x) as [k0|]; [|done]. simpl. intros [= <-].
    destruct (IH k0 eq_refl) as [Hk0 Hfirst]. split; [done|].
    intros [|k'] Hk'; simpl; [congruence|]. apply Hfirst. lia.
Qed.

Lemma py_index_None l x : py_index l x = None ↔ x ∉ l.
Proof.
  induction l as [|y l IH]; simpl.
  - split; [intros _; apply not_elem_of_nil|done].
  - rewrite not_elem_of_cons. case_decide as Hy.
    + split; [done|]. intros [Hne _]. by subst.
    + destruct (py_index l x) as [k|]; simpl.
      * split; [done|]. intros [_ Hl]. by apply IH in Hl.
      * split; [|done]. intros _. split; [congruence|]. by apply IH.
Qed.

(** C7: in a node whose [in_msgs] has a slot per neighbor, [receiveMsg]
    returns exactly when [sender] is in [neighbors], and then the store
    differs only in that slot [k] of the list [in_msgs] holds [msg], where
    [k] is the first position of [sender] in [neighbors]; otherwise it
    raises [ValueError] and leaves the store as it was. *)
Theorem C7_receive (self : loc) (σ : store) (n : Node) (inp : list Qc)
    (sender : loc) (msg : Qc) :
  nodes σ !! self = Some n →
  lists σ !! in_msgs n = Some inp →
  length inp = length (neighbors n) →
  (sender ∈ neighbors n →
     ∃ k, neighbors n !! k = Some sender ∧
          (∀ k', k' < k → neighbors n !! k' ≠ Some sender) ∧
          receiveMsg self sender msg σ
          = (Ok (), mkStore (nodes σ)
                            (<[in_msgs n := <[k := msg]> inp]> (lists σ))) ∧
          <[k := msg]> inp !! k = Some msg ∧
          (∀ k', k' ≠ k → <[k := msg]> inp !! k' = inp !! k')) ∧
  (sender ∉ neighbors n →
     receiveMsg self sender msg σ = (Raise ValueError, σ)) ∧
  ((∃ e σ', receiveMsg self sender msg σ = (Raise e, σ'))
   ↔ sender ∉ neighbors n).
Proof.
  intros Hself Hin Hlen.
  assert (sender ∉ neighbors n →
          receiveMsg self sender msg σ = (Raise ValueError, σ)) as Hfail.
  { intros Hnot%py_index_None.
    unfold receiveMsg, mbind, M_bind, bind, get_node. rewrite Hself. simpl.
    by rewrite Hnot. }
  assert (sender ∈ neighbors n →
     ∃ k, neighbors n !! k = Some sender ∧
          (∀ k', k' < k → neighbors n !! k' ≠ Some sender) ∧
          receiveMsg self sender msg σ
          = (Ok (), mkStore (nodes σ)
                            (<[in_msgs n := <[k := msg]> inp]> (lists σ))) ∧
          <[k := msg]> inp !! k = Some msg ∧
          (∀ k', k' ≠ k → <[k := msg]> inp !! k' = inp !! k')) as Hok.
  { intros Hel. destruct (py_index (neighbors n) sender) as [k|] eqn:Hk;
      [|by apply py_index_None in Hk].
    destruct (py_index_Some _ _ _ Hk) as [Hat Hfirst].
    pose proof (lookup_lt_Some _ _ _ Hat) as Hlt.
    exists k. split_and!; [done|done| | |].
    - unfold receiveMsg, mbind, M_bind, bind, get_node. rewrite Hself. simpl.
      rewrite Hk. simpl.
      unfold list_setitem, mbind, M_bind, bind, read_list. rewrite Hin. simpl.
      by rewrite decide_True by lia.
    - apply list_lookup_insert_eq. lia.
    - intros k' Hk'. by apply list_lookup_insert_ne. }
  split_and!; [done|done|]. split.
  - intros (e & σ' & Hr) Hel. destruct (Hok Hel) as (k & _ & _ & Hrun & _).
    congruence.
  - intros Hnot. exists ValueError, σ. by apply Hfail.
Qed.

(** ** Factor nodes with too few neighbors *)

Lemma wp_raises_eq {A} (m : M A) σ e0 s0 :
  wp m (λ _ _, False) (λ e s, e = e0 ∧ s = s0) σ → m σ = (Raise e0, s0).
Proof.
  unfold wp. destruct (m σ) as [[a|e] s]; [done|]. by intros [-> ->].
Qed.

Lemma wp_must_raise {A} (m : M A) σ :
  wp m (λ _ _, False) (λ _ _, True) σ → ∃ e σ', m σ = (Raise e, σ').
Proof. unfold wp. destruct (m σ) as [[a|e] s]; [done|]. by exists e, s. Qed.

Lemma wp_comprehension_read {A} ks (f : nat → M A) Q E σ :
  (∀ k, read_only (f k)) →
  (∀ xs, length xs = length ks → Q xs σ) →
  (∀ e, E e σ) →
  wp (comprehension ks f) Q E σ.
Proof.
  intros Hf. revert Q. induction ks as [|k ks IH]; intros Q HQ HE.
  - by apply HQ.
  - simpl. apply wp_bind, wp_read_only; [done| |done]. intros x.
    apply wp_bind, IH; [|done]. intros xs Hxs. apply HQ. simpl. by rewrite Hxs.
Qed.

(** With no neighbor, every role raises [IndexError] on [neighbors[0]],
    after the snapshot. *)
Lemma Factor_message_no_neighbor self σ n out d r :
  nodes σ !! self = Some n →
  lists σ !! out_msgs n = Some out →
  neighbors n = [] →
  Factor_message self d r σ = (Raise IndexError, snapshot_store self σ n out).
Proof.
  intros Hself Hout Hnbrs. apply wp_raises_eq. unfold Factor_message.
  apply (wp_Factor_snapshot self σ n out Hself Hout).
  assert (neighbor self 0 (snapshot_store self σ n out)
          = (Raise IndexError, snapshot_store self σ n out)) as Hnb.
  { unfold neighbor, mbind, M_bind, bind, get_node.
    rewrite snapshot_store_self. simpl. by rewrite Hnbrs. }
  repeat case_decide; apply wp_bind; by eapply wp_raises.
Qed.

(** With one neighbor, the row-uniqueness role always raises: if nothing
    else does, [max] of the empty list does. *)
Lemma Factor_message_JF_one_neighbor self σ n out d r :
  nodes σ !! self = Some n →
  lists σ !! out_msgs n = Some out →
  nodetype n = "JF"%string →
  length (neighbors n) = 1 →
  ∃ e σ', Factor_message self d r σ = (Raise e, σ').
Proof.
  intros Hself Hout Htype Hlen1. apply wp_must_raise. unfold Factor_message.
  apply (wp_Factor_snapshot self σ n out Hself Hout).
  rewrite decide_False by (simpl; by rewrite Htype).
  rewrite decide_True by done.
  wp_read. intros nb. wp_read. intros j.
  apply wp_bind, wp_comprehension_read; [intros; solve_read_only| |done].
  intros eta Heta. simpl neighbors in *. rewrite Hlen1 in *. simpl in Heta.
  simpl. apply wp_bind, wp_bind, wp_py_del.
  rewrite decide_True by lia. wp_read. intros p.
  destruct eta as [|e [|??]]; simplify_eq/=.
  apply wp_bind. by apply wp_raise.
Qed.

(** In a well-formed store, that exception is the [ValueError] of [max]. *)
Lemma Factor_message_JF_one_neighbor_ValueError self σ n out d r i j eta :
  nodes σ !! self = Some n →
  lists σ !! out_msgs n = Some out →
  length out = length (neighbors n) →
  nodetype n = "JF"%string →
  length (neighbors n) = 1 →
  nbr_index σ n 0 i j →
  is_eta σ n d j eta →
  Factor_message self d r σ = (Raise ValueError, snapshot_store self σ n out).
Proof.
  intros Hself Hout Hlen Htype Hlen1 Hnb [Heta_len Heta].
  apply (snapshot_store_nbr_index self σ n out Hself) in Hnb.
  destruct Hnb as (a & v & Ha & Hv & Hc).
  apply wp_raises_eq. unfold Factor_message.
  apply (wp_Factor_snapshot self σ n out Hself Hout).
  rewrite decide_False by (simpl; by rewrite Htype).
  rewrite decide_True by done.
  pose proof (snapshot_store_self self σ n out) as Hs.
  apply wp_bind. eapply wp_run_eq; [by eapply neighbor_run|].
  apply wp_bind. eapply wp_run_eq; [by eapply j_index_run|].
  apply wp_bind. apply (wp_comprehension_run _ (λ k, eta !!! k)).
  { intros k Hk%elem_of_seq. simpl in Hk.
    destruct (lookup_lt_is_Some_2 eta k) as [e He]; [lia|].
    destruct (Heta k e He) as (x & y & Hx & Hy & ->).
    apply (snapshot_store_nbr_in_msg self σ n out Hself) in Hx.
    unfold mbind, M_bind, bind.
    rewrite (neighbor_in_msg_run _ _ _ _ _ _ Hs Hx). rewrite Hy. simpl.
    by rewrite (list_lookup_total_correct _ _ _ He). }
  simpl neighbors. rewrite <-Heta_len, tabulate_total, Heta_len, Hlen1.
  rewrite Hlen1 in *. destruct eta as [|e [|??]]; simplify_eq/=.
  destruct out as [|p [|??]]; simplify_eq/=.
  apply wp_bind, wp_bind, wp_py_del. simpl.
  apply wp_bind, wp_list_getitem. simpl.
  rewrite lookup_insert_eq. simpl.
  apply wp_bind. by apply wp_raise.
Qed.

(** C4 (as stated) fails: on [single_graph] the column-budget Factor node
    (address 3) has one neighbor, and [message] returns. *)
Lemma C4_counterexample :
  ¬ (∀ (self : loc) (σ : store) (n : Node) (d : ndarray) (r : Qc) (M N : nat),
       nodes σ !! self = Some n →
       cls n = FactorNode d r M N →
       nodetype n = "JF"%string ∨ nodetype n = "IC"%string →
       length (neighbors n) < 2 →
       ∃ e σ', message self σ = (Raise e, σ')).
Proof.
  intros H.
  destruct (H 3 single_graph
              (mkNode "IC" 3 (Qcz 0) [0] 9 10 11
                      (FactorNode (mkArray [[Qcz 4]] 1) (Qcz 1) 1 1))
              (mkArray [[Qcz 4]] 1) (Qcz 1) 1 1) as (e & σ' & Hrun).
  - by vm_compute.
  - done.
  - by right.
  - simpl. lia.
  - assert (run_result (message 3) single_graph = Ok ()) as Hok by by vm_compute.
    unfold run_result in Hok. rewrite Hrun in Hok. done.
Qed.

(** C4 (amended): a row-uniqueness Factor node with fewer than two
    neighbors makes [message] raise, and so does a column-budget Factor
    node with no neighbor: [IndexError] with no neighbor, and the
    [ValueError] of [max] on an empty list for a row-uniqueness node with
    one [out_msgs] entry whose one neighbor is a Variable node with an
    [in_msgs[1]], where the matrix has the entry [(0, j)] of its column
    [j].  A column-budget Factor node with one neighbor does not fail for
    the lack of a second one: with one [out_msgs] entry, if the neighbor
    is a Variable node with an [in_msgs[2]] and the matrix has the entry
    [(i, 0)] of its row [i], [message] returns. *)
Theorem C4_too_few_neighbors (self : loc) (σ : store) (n : Node) (d : ndarray)
    (r : Qc) (M N : nat) (out : list Qc) :
  nodes σ !! self = Some n →
  cls n = FactorNode d r M N →
  lists σ !! out_msgs n = Some out →
  (nodetype n = "JF"%string → length (neighbors n) < 2 →
     ∃ e σ', message self σ = (Raise e, σ')) ∧
  (nodetype n = "JF"%string → neighbors n = [] →
     ∃ σ', message self σ = (Raise IndexError, σ')) ∧
  (nodetype n = "JF"%string → length (neighbors n) = 1 → length out = 1 →
     ∀ i j eta, nbr_index σ n 0 i j → is_eta σ n d j eta →
     ∃ σ', message self σ = (Raise ValueError, σ')) ∧
  (nodetype n = "IC"%string → neighbors n = [] →
     ∃ σ', message self σ = (Raise IndexError, σ')) ∧
  (nodetype n = "IC"%string → length (neighbors n) = 1 → length out = 1 →
     ∀ i j dis_eta, nbr_index σ n 0 i j → is_dis_eta σ n d i dis_eta →
     ∃ σ', message self σ = (Ok (), σ')).
Proof.
  intros Hself Hcls Hout.
  rewrite (message_Factor _ _ _ _ _ _ _ Hself Hcls). split_and!.
  - intros Htype Hlen. destruct (neighbors n) as [|a [|??]] eqn:Hnbrs.
    + exists IndexError, (snapshot_store self σ n out).
      by apply Factor_message_no_neighbor.
    + apply (Factor_message_JF_one_neighbor self σ n out); [done..|].
      by rewrite Hnbrs.
    + simpl in Hlen. lia.
  - intros _ Hnbrs. exists (snapshot_store self σ n out).
    by apply Factor_message_no_neighbor.
  - intros Htype Hlen1 Hlen i j eta Hnb Heta.
    exists (snapshot_store self σ n out).
    apply (Factor_message_JF_one_neighbor_ValueError self σ n out d r i j eta);
      try done. congruence.
  - intros _ Hnbrs. exists (snapshot_store self σ n out).
    by apply Factor_message_no_neighbor.
  - intros Htype Hlen1 Hlen i j dis_eta Hnb Heta.
    exists (Factor_message_store self σ n out (IC_new_out n out r dis_eta)).
    apply (Factor_message_IC_run self σ n out d r Hself Hout) with i j;
      [congruence|by rewrite Htype|by rewrite Htype|done|done].
Qed.

(** * The shape invariant *)

Lemma wf_intro σ :
  (∀ a n, nodes σ !! a = Some n → aligned σ n) →
  (∀ a n, nodes σ !! a = Some n → NoDup (node_lists n)) →
  (∀ a b n m l, nodes σ !! a = Some n → nodes σ !! b = Some m → a ≠ b →
                l ∈ node_lists n → l ∉ node_lists m) →
  wf σ.
Proof.
  intros Hal Hnd Hsep. split.
  - intros a n Hn. by eapply Hal.
  - intros a n Hn. split; [by eapply Hnd|].
    intros b m Hm Hab. apply Forall_forall. intros l Hl.
    by apply (Hsep a b n m l).
Qed.

Lemma wf_aligned σ a n : wf σ → nodes σ !! a = Some n → aligned σ n.
Proof. intros [Hal _] Hn. by apply (Hal a n). Qed.

Lemma wf_NoDup σ a n : wf σ → nodes σ !! a = Some n → NoDup (node_lists n).
Proof. intros [_ Hsep] Hn. by destruct (Hsep a n Hn). Qed.

Lemma wf_sep σ a b n m l :
  wf σ → nodes σ !! a = Some n → nodes σ !! b = Some m → a ≠ b →
  l ∈ node_lists n → l ∉ node_lists m.
Proof.
  intros [_ Hsep] Hn Hm Hab Hl. destruct (Hsep a n Hn) as [_ H].
  specialize (H b m Hm Hab). by apply (proj1 (Forall_forall _ _) H).
Qed.

Lemma aligned_lookup σ n l :
  aligned σ n → l ∈ node_lists n →
  ∃ v, lists σ !! l = Some v ∧ length v = length (neighbors n).
Proof.
  intros Hal Hl. pose proof (proj1 (Forall_forall _ _) Hal l Hl) as H.
  simpl in H. destruct (lists σ !! l) as [v|]; simplify_eq/=. by exists v.
Qed.

Lemma aligned_intro σ n :
  (∀ l, l ∈ node_lists n →
        length <$> lists σ !! l = Some (length (neighbors n))) →
  aligned σ n.
Proof. intros H. by apply Forall_forall. Qed.

Lemma elem_of_node_lists n l :
  l ∈ node_lists n ↔ l = in_msgs n ∨ l = out_msgs n ∨ l = prev_out_msgs n.
Proof.
  unfold node_lists. rewrite !elem_of_cons, elem_of_nil. tauto.
Qed.

Lemma NoDup_node_lists n :
  NoDup (node_lists n) ↔
  in_msgs n ≠ out_msgs n ∧ in_msgs n ≠ prev_out_msgs n ∧
  out_msgs n ≠ prev_out_msgs n.
Proof.
  unfold node_lists. rewrite !NoDup_cons, !not_elem_of_cons. split.
  - intros ((?&?&?)&(?&?)&?). done.
  - intros (?&?&?). split_and!; auto using not_elem_of_nil, NoDup_nil_2.
Qed.

Global Instance same_shape_preorder : PreOrder same_shape.
Proof.
  split.
  - by intros σ.
  - intros σ1 σ2 σ3 [Hn12 Hl12] [Hn23 Hl23]. split; [congruence|].
    intros l. by rewrite Hl23.
Qed.

Lemma wf_same_shape σ σ' : wf σ → same_shape σ σ' → wf σ'.
Proof.
  intros Hwf [Hnodes Hlists]. apply wf_intro; rewrite ?Hnodes.
  - intros a n Hn. apply aligned_intro. intros l Hl. rewrite Hlists.
    by apply (proj1 (Forall_forall _ _) (wf_aligned σ a n Hwf Hn)).
  - intros a n Hn. by eapply wf_NoDup.
  - intros a b n m l Hn Hm. by apply (wf_sep σ a b n m l).
Qed.

(** A store into a list slot keeps the shape. *)
Lemma wp_list_setitem_shape σ0 l i x σ :
  same_shape σ0 σ →
  wp (list_setitem l i x) (λ _, same_shape σ0) (λ _, same_shape σ0) σ.
Proof.
  intros Hσ. apply wp_list_setitem.
  destruct (lists σ !! l) as [v|] eqn:Hv; [|done]. case_decide; [|done].
  etrans; [done|]. split; [done|]. intros l'. simpl.
  destruct (decide (l = l')) as [<-|Hne].
  - rewrite lookup_insert_eq, Hv. simpl. by rewrite length_insert.
  - by rewrite lookup_insert_ne.
Qed.

Lemma wp_receiveMsg_shape σ0 self sender msg σ :
  same_shape σ0 σ →
  wp (receiveMsg self sender msg) (λ _, same_shape σ0) (λ _, same_shape σ0) σ.
Proof.
  intros Hσ. unfold receiveMsg. wp_read. intros n. wp_read. intros index.
  by apply wp_list_setitem_shape.
Qed.

Lemma wp_sendMsg_shape σ0 self σ :
  same_shape σ0 σ →
  wp (sendMsg self) (λ _, same_shape σ0) (λ _, same_shape σ0) σ.
Proof.
  intros Hσ. unfold sendMsg. wp_read. intros n.
  apply wp_for_each; [done|]. clear σ Hσ. intros i σ _ Hσ.
  wp_read. intros n'. wp_read. intros nb. wp_read. intros v.
  by apply wp_receiveMsg_shape.
Qed.

Lemma wp_state {A} (m : M A) (P : store → Prop) σ :
  wp m (λ _, P) (λ _, P) σ → P (run_state m σ).
Proof. unfold wp, run_state. by destruct (m σ) as [[a|e] σ']. Qed.

Lemma receiveMsg_wf self sender msg σ :
  wf σ → wf (run_state (receiveMsg self sender msg) σ).
Proof.
  intros Hwf. eapply wf_same_shape; [done|].
  by apply (wp_state _ (same_shape σ)), wp_receiveMsg_shape.
Qed.

Lemma sendMsg_wf self σ : wf σ → wf (run_state (sendMsg self) σ).
Proof.
  intros Hwf. eapply wf_same_shape; [done|].
  by apply (wp_state _ (same_shape σ)), wp_sendMsg_shape.
Qed.

Lemma checkConvergence_read_only self : read_only (checkConvergence self).
Proof.
  unfold checkConvergence.
  apply read_only_bind; [solve_read_only|]. intros n.
  apply read_only_bind; [solve_read_only|]. intros o.
  induction (seq 0 (length o)) as [|i ix IH]; [done|]. simpl.
  apply read_only_bind; [solve_read_only|]. intros n'.
  apply read_only_bind; [solve_read_only|]. intros x.
  apply read_only_bind; [solve_read_only|]. intros p.
  by case_decide.
Qed.

Lemma wf_allocated σ a n l :
  wf σ → nodes σ !! a = Some n → l ∈ node_lists n → lists σ !! l ≠ None.
Proof.
  intros Hwf Hn Hl.
  destruct (aligned_lookup σ n l (wf_aligned σ a n Hwf Hn) Hl) as (v & Hv & _).
  congruence.
Qed.

Lemma wf_length σ a n l :
  wf σ → nodes σ !! a = Some n → l ∈ node_lists n →
  length <$> lists σ !! l = Some (length (neighbors n)).
Proof.
  intros Hwf Hn Hl.
  by apply (proj1 (Forall_forall _ _) (wf_aligned σ a n Hwf Hn)).
Qed.

Lemma node_lists_snapshot_node σ n :
  node_lists (snapshot_node σ n) = [in_msgs n; out_msgs n; snapshot_loc σ].
Proof. done. Qed.

(** [message] keeps the invariant, whether it returns or raises. *)
Lemma message_wf self σ : wf σ → wf (run_state (message self) σ).
Proof.
  intros Hwf. destruct (nodes σ !! self) as [n|] eqn:Hself; last first.
  { unfold run_state, message, mbind, M_bind, bind, get_node.
    by rewrite Hself. }
  assert (out_msgs n ∈ node_lists n) as Hout_in.
  { apply elem_of_node_lists. auto. }
  destruct (aligned_lookup σ n _ (wf_aligned σ self n Hwf Hself) Hout_in)
    as (out & Hout & Hout_len).
  destruct (message_after self σ n out Hself Hout) as (oc & -> & Hoc).
  apply Forall2_length in Hoc.
  pose proof (snapshot_fresh σ) as Hfresh.
  pose proof (proj1 (NoDup_node_lists n) (wf_NoDup σ self n Hwf Hself))
    as (Hio & Hip & Hop).
  assert (∀ b m l, nodes σ !! b = Some m → l ∈ node_lists m →
                   l ≠ snapshot_loc σ) as Hnew.
  { intros b m l Hm Hl ->. by apply (wf_allocated σ b m _ Hwf Hm Hl). }
  assert (∀ b m l, nodes σ !! b = Some m → b ≠ self → l ∈ node_lists m →
                   l ∉ node_lists (snapshot_node σ n)) as Hother.
  { intros b m l Hm Hb Hl. rewrite node_lists_snapshot_node.
    pose proof (wf_sep σ b self m n l Hwf Hm Hself Hb Hl) as Hsep.
    rewrite elem_of_node_lists in Hsep.
    rewrite !not_elem_of_cons. split_and!; [tauto|tauto| |apply not_elem_of_nil].
    by apply (Hnew b m). }
  assert (snapshot_loc σ ≠ in_msgs n) as Hpi.
  { apply not_eq_sym, (Hnew self n); [done|]. apply elem_of_node_lists. auto. }
  assert (snapshot_loc σ ≠ out_msgs n) as Hpo.
  { apply not_eq_sym, (Hnew self n); [done|]. apply elem_of_node_lists. auto. }
  apply wf_intro; simpl.
  - intros a n' Hn'. apply aligned_intro. intros l Hl. simpl.
    destruct (decide (self = a)) as [<-|Hne].
    + rewrite lookup_insert_eq in Hn'. simplify_eq.
      rewrite node_lists_snapshot_node, !elem_of_cons, elem_of_nil in Hl.
      simpl. destruct Hl as [->|[->|[->|[]]]].
      * rewrite !lookup_insert_ne by done.
        apply (wf_length σ self n); [done..|]. apply elem_of_node_lists. auto.
      * rewrite lookup_insert_eq. simpl. f_equal. lia.
      * rewrite lookup_insert_ne, lookup_insert_eq by done. simpl. by f_equal.
    + rewrite lookup_insert_ne in Hn' by done.
      pose proof (Hother a n' l Hn' (not_eq_sym Hne) Hl) as Hl'.
      rewrite node_lists_snapshot_node, !not_elem_of_cons in Hl'.
      destruct Hl' as (_ & Hl1 & Hl2 & _).
      rewrite !lookup_insert_ne by done. by apply (wf_length σ a n').
  - intros a n' Hn'. destruct (decide (self = a)) as [<-|Hne].
    + rewrite lookup_insert_eq in Hn'. simplify_eq.
      apply NoDup_node_lists. simpl. split_and!; [done|by apply not_eq_sym..].
    + rewrite lookup_insert_ne in Hn' by done. by eapply wf_NoDup.
  - intros a b n' m' l Hn' Hm' Hab Hl.
    destruct (decide (self = a)) as [<-|Hna];
      [rewrite lookup_insert_eq in Hn'|rewrite lookup_insert_ne in Hn' by done];
      (destruct (decide (self = b)) as [<-|Hnb];
       [rewrite lookup_insert_eq in Hm'|rewrite lookup_insert_ne in Hm' by done]);
      simplify_eq.
    + intros Hl'. by apply (Hother b m' l).
    + by apply (Hother a n' l).
    + by apply (wf_sep σ a b n' m' l).
Qed.

(** ** [Node.addNeighbors] *)

Lemma insert_append_alter (L : gmap loc (list Qc)) l v x :
  L !! l = Some v → <[l := v ++ [x]]> L = alter (λ v, v ++ [x]) l L.
Proof.
  intros Hv. apply map_eq. intros l'. destruct (decide (l = l')) as [<-|Hne].
  - by rewrite lookup_insert_eq, lookup_alter_eq, Hv.
  - by rewrite lookup_insert_ne, lookup_alter_ne.
Qed.

Lemma wp_list_append_alter l x Q E σ :
  lists σ !! l ≠ None →
  Q () (mkStore (nodes σ) (alter (λ v, v ++ [x]) l (lists σ))) →
  wp (list_append l x) Q E σ.
Proof.
  intros Hl HQ. apply wp_list_append.
  destruct (lists σ !! l) as [v|] eqn:Hv; [|done].
  by rewrite (insert_append_alter _ _ _ _ Hv).
Qed.

Lemma grow_lookup_other σ a b n l :
  l ∉ node_lists n → lists (grow σ a b n) !! l = lists σ !! l.
Proof.
  rewrite elem_of_node_lists. intros Hl. simpl.
  rewrite !lookup_alter_ne; [done|intros <-; tauto..].
Qed.

Lemma grow_lookup_own σ a b n l :
  NoDup (node_lists n) → l ∈ node_lists n →
  lists (grow σ a b n) !! l = (λ v, v ++ [0%Qc]) <$> lists σ !! l.
Proof.
  intros (Hio & Hip & Hop)%NoDup_node_lists [->|[->| ->]]%elem_of_node_lists;
    simpl.
  - rewrite !lookup_alter_ne by done. apply lookup_alter_eq.
  - rewrite lookup_alter_ne by done. rewrite lookup_alter_eq.
    by rewrite lookup_alter_ne.
  - rewrite lookup_alter_eq. by rewrite !lookup_alter_ne.
Qed.

Lemma node_lists_set_neighbors n l :
  node_lists (set_neighbors n l) = node_lists n.
Proof. done. Qed.

(** Growing a node by one slot keeps the invariant. *)
Lemma wf_grow σ a b n : wf σ → nodes σ !! a = Some n → wf (grow σ a b n).
Proof.
  intros Hwf Ha. pose proof (wf_NoDup σ a n Hwf Ha) as Hnd.
  apply wf_intro.
  - intros c m Hm. apply aligned_intro. intros l Hl.
    simpl in Hm. destruct (decide (a = c)) as [<-|Hne].
    + rewrite lookup_insert_eq in Hm. simplify_eq.
      rewrite node_lists_set_neighbors in Hl.
      rewrite grow_lookup_own by done. simpl.
      rewrite <-option_fmap_compose.
      pose proof (wf_length σ a n l Hwf Ha Hl) as Hlen.
      destruct (lists σ !! l) as [v|]; simplify_eq/=.
      rewrite !length_app. simpl. by rewrite Hlen.
    + rewrite lookup_insert_ne in Hm by done.
      rewrite grow_lookup_other; [by apply (wf_length σ c m)|].
      by apply (wf_sep σ c a m n l).
  - intros c m Hm. simpl in Hm. destruct (decide (a = c)) as [<-|Hne].
    + rewrite lookup_insert_eq in Hm. by simplify_eq.
    + rewrite lookup_insert_ne in Hm by done. by eapply wf_NoDup.
  - intros c e m m' l Hm Hm' Hce Hl. simpl in Hm, Hm'.
    destruct (decide (a = c)) as [<-|Hna];
      [rewrite lookup_insert_eq in Hm|rewrite lookup_insert_ne in Hm by done];
      (destruct (decide (a = e)) as [<-|Hnb];
       [rewrite lookup_insert_eq in Hm'|rewrite lookup_insert_ne in Hm' by done]);
      simplify_eq.
    + rewrite node_lists_set_neighbors in Hl. by apply (wf_sep σ a e n m' l).
    + rewrite node_lists_set_neighbors. by apply (wf_sep σ c a m n l).
    + by apply (wf_sep σ c e m m' l).
Qed.

(** The first four statements of each half of [addNeighbors]. *)
Lemma wp_grow_prefix a b (T : Node → M unit) Q E σ n :
  wf σ → nodes σ !! a = Some n →
  wp (T (set_neighbors n (neighbors n ++ [b]))) Q E
     (mkStore (<[a := set_neighbors n (neighbors n ++ [b])]> (nodes σ))
        (alter (λ v, v ++ [0%Qc]) (out_msgs n)
           (alter (λ v, v ++ [0%Qc]) (in_msgs n) (lists σ)))) →
  wp (neighbors_append a b;;
      n ← get_node a;
      list_append (in_msgs n) 0%Qc;;
      list_append (out_msgs n) 0%Qc;;
      T n) Q E σ.
Proof.
  intros Hwf Ha HT.
  pose proof (proj1 (NoDup_node_lists n) (wf_NoDup σ a n Hwf Ha))
    as (Hio & Hip & Hop).
  apply wp_bind. unfold neighbors_append.
  apply wp_bind, wp_get_node. rewrite Ha. apply wp_set_node.
  apply wp_bind, wp_get_node. simpl. rewrite lookup_insert_eq.
  apply wp_bind, wp_list_append_alter; simpl.
  { apply (wf_allocated σ a n); [done..|]. apply elem_of_node_lists. auto. }
  apply wp_bind, wp_list_append_alter; simpl; [|done].
  rewrite lookup_alter_ne by done.
  apply (wf_allocated σ a n); [done..|]. apply elem_of_node_lists. auto.
Qed.

Lemma wp_grow_last a b n Q E σ :
  wf σ → nodes σ !! a = Some n →
  Q () (grow σ a b n) →
  wp (list_append (prev_out_msgs (set_neighbors n (neighbors n ++ [b]))) 0%Qc)
     Q E
     (mkStore (<[a := set_neighbors n (neighbors n ++ [b])]> (nodes σ))
        (alter (λ v, v ++ [0%Qc]) (out_msgs n)
           (alter (λ v, v ++ [0%Qc]) (in_msgs n) (lists σ)))).
Proof.
  intros Hwf Ha HQ.
  pose proof (proj1 (NoDup_node_lists n) (wf_NoDup σ a n Hwf Ha))
    as (Hio & Hip & Hop).
  apply wp_list_append_alter; simpl; [|done].
  rewrite !lookup_alter_ne by done.
  apply (wf_allocated σ a n); [done..|]. apply elem_of_node_lists. auto.
Qed.

(** What [addNeighbors] does in a store that satisfies the invariant. *)
Lemma wp_addNeighbors a b Q E σ :
  wf σ →
  match nodes σ !! a with
  | None => E DanglingRef σ
  | Some n =>
      match nodes (grow σ a b n) !! b with
      | None => E DanglingRef (grow σ a b n)
      | Some m => Q () (grow (grow σ a b n) b a m)
      end
  end →
  wp (addNeighbors a b) Q E σ.
Proof.
  intros Hwf H. unfold addNeighbors.
  destruct (nodes σ !! a) as [n|] eqn:Ha; last first.
  { apply wp_bind. unfold neighbors_append. apply wp_bind, wp_get_node.
    by rewrite Ha. }
  apply (wp_grow_prefix a b
           (λ n, list_append (prev_out_msgs n) 0%Qc;;
                 neighbors_append b a;;
                 m ← get_node b;
                 list_append (in_msgs m) 0%Qc;;
                 list_append (out_msgs m) 0%Qc;;
                 list_append (prev_out_msgs m) 0%Qc) _ _ σ n); [done..|].
  apply wp_bind, wp_grow_last; [done..|].
  pose proof (wf_grow σ a b n Hwf Ha) as Hwf'.
  destruct (nodes (grow σ a b n) !! b) as [m|] eqn:Hb; last first.
  { apply wp_bind. unfold neighbors_append. apply wp_bind, wp_get_node.
    by rewrite Hb. }
  apply (wp_grow_prefix b a (λ m, list_append (prev_out_msgs m) 0%Qc)
                        _ _ (grow σ a b n) m); [done..|].
  by apply wp_grow_last.
Qed.

(** [addNeighbors] keeps the invariant, whether it returns or raises. *)
Lemma addNeighbors_wf a b σ : wf σ → wf (run_state (addNeighbors a b) σ).
Proof.
  intros Hwf. apply (wp_state _ wf), wp_addNeighbors; [done|].
  destruct (nodes σ !! a) as [n|] eqn:Ha; [|done].
  pose proof (wf_grow σ a b n Hwf Ha) as Hwf'.
  destruct (nodes (grow σ a b n) !! b) as [m|] eqn:Hb; [|done].
  by apply wf_grow.
Qed.

(** Between two nodes, [addNeighbors] returns and grows both by a slot. *)
Lemma addNeighbors_run a b σ n m :
  wf σ → nodes σ !! a = Some n → nodes σ !! b = Some m → a ≠ b →
  addNeighbors a b σ = (Ok (), grow (grow σ a b n) b a m).
Proof.
  intros Hwf Ha Hb Hab. apply wp_eq, wp_addNeighbors; [done|].
  rewrite Ha. simpl. rewrite lookup_insert_ne by done. by rewrite Hb.
Qed.

(** ** The constructors and the invariant at all times *)

Lemma keeps_wf_ret {A} (a : A) : keeps_wf (ret a).
Proof. by intros σ. Qed.

Lemma keeps_wf_bind {A B} (m : M A) (k : A → M B) :
  keeps_wf m → (∀ a, keeps_wf (k a)) → keeps_wf (m ≫= k).
Proof.
  intros Hm Hk σ Hwf. specialize (Hm σ Hwf).
  unfold run_state, mbind, M_bind, bind in *.
  destruct (m σ) as [[a|e] σ']; [by apply Hk|done].
Qed.

Lemma keeps_wf_read_only {A} (m : M A) : read_only m → keeps_wf m.
Proof. intros Hm σ Hwf. unfold run_state. by rewrite Hm. Qed.

Lemma wf_empty : wf empty_store.
Proof. split; intros a n Hn; simpl in Hn; by rewrite lookup_empty in Hn. Qed.

Lemma Node_init_state c ty nid dmp σ :
  let i := fresh (dom (lists σ)) in
  let o := fresh (dom (<[i := []]> (lists σ))) in
  let p := fresh (dom (<[o := []]> (<[i := []]> (lists σ)))) in
  let a := fresh (dom (nodes σ)) in
  run_state (Node_init c ty nid dmp) σ
  = mkStore (<[a := mkNode ty nid dmp [] i o p c]> (nodes σ))
            (<[p := []]> (<[o := []]> (<[i := []]> (lists σ)))).
Proof.
  unfold run_state, Node_init, mbind, M_bind, bind, alloc_list, alloc_node,
    validTypes. simpl. by case_decide.
Qed.

Lemma Node_init_wf c ty nid dmp : keeps_wf (Node_init c ty nid dmp).
Proof.
  intros σ Hwf. rewrite Node_init_state.
  set (L := lists σ).
  set (i := fresh (dom L)). set (L1 := <[i := []]> L).
  set (o := fresh (dom L1)). set (L2 := <[o := []]> L1).
  set (p := fresh (dom L2)). set (a := fresh (dom (nodes σ))).
  set (n0 := mkNode ty nid dmp [] i o p c).
  assert (L !! i = None) as Hi by apply not_elem_of_dom, is_fresh.
  assert (L1 !! o = None) as Ho by apply not_elem_of_dom, is_fresh.
  assert (L2 !! p = None) as Hp by apply not_elem_of_dom, is_fresh.
  assert (nodes σ !! a = None) as Ha by apply not_elem_of_dom, is_fresh.
  assert (o ≠ i) as Hoi.
  { intros Heq. unfold L1 in Ho. rewrite Heq, lookup_insert_eq in Ho. done. }
  assert (p ≠ o) as Hpo.
  { intros Heq. unfold L2 in Hp. rewrite Heq, lookup_insert_eq in Hp. done. }
  assert (p ≠ i) as Hpi.
  { intros Heq. unfold L2, L1 in Hp.
    rewrite Heq, lookup_insert_ne, lookup_insert_eq in Hp; done. }
  assert (∀ l, L !! l ≠ None → l ∉ node_lists n0) as Hnew.
  { intros l Hl. rewrite elem_of_node_lists. simpl. intros [->|[->| ->]].
    - done.
    - unfold L1 in Ho. rewrite lookup_insert_ne in Ho by done. done.
    - unfold L2, L1 in Hp. rewrite !lookup_insert_ne in Hp by done. done. }
  assert (∀ l, l ∉ node_lists n0 →
               (<[p := []]> L2) !! l = L !! l) as Hold.
  { intros l. rewrite elem_of_node_lists. simpl. intros Hl.
    unfold L2, L1. rewrite !lookup_insert_ne; [done|intros <-; tauto..]. }
  apply wf_intro; simpl.
  - intros b m Hm. apply aligned_intro. intros l Hl. simpl.
    destruct (decide (a = b)) as [<-|Hne].
    + rewrite lookup_insert_eq in Hm. simplify_eq.
      apply elem_of_node_lists in Hl. simpl in Hl.
      destruct Hl as [->|[->| ->]].
      * unfold L2, L1.
        do 2 rewrite lookup_insert_ne by done. by rewrite lookup_insert_eq.
      * unfold L2. rewrite lookup_insert_ne by done. by rewrite lookup_insert_eq.
      * by rewrite lookup_insert_eq.
    + rewrite lookup_insert_ne in Hm by done.
      rewrite Hold; [by apply (wf_length σ b m)|].
      apply Hnew. by apply (wf_allocated σ b m).
  - intros b m Hm. destruct (decide (a = b)) as [<-|Hne].
    + rewrite lookup_insert_eq in Hm. simplify_eq.
      apply NoDup_node_lists. simpl. split_and!; by apply not_eq_sym.
    + rewrite lookup_insert_ne in Hm by done. by eapply wf_NoDup.
  - intros b e m m' l Hm Hm' Hbe Hl.
    destruct (decide (a = b)) as [<-|Hna];
      [rewrite lookup_insert_eq in Hm|rewrite lookup_insert_ne in Hm by done];
      (destruct (decide (a = e)) as [<-|Hnb];
       [rewrite lookup_insert_eq in Hm'|rewrite lookup_insert_ne in Hm' by done]);
      simplify_eq.
    + intros Hl'. apply (Hnew l); [|done]. by apply (wf_allocated σ e m').
    + apply Hnew. by apply (wf_allocated σ b m).
    + by apply (wf_sep σ b e m m' l).
Qed.

Lemma Variable_init_wf ty nid i j dmp : keeps_wf (Variable_init ty nid i j dmp).
Proof. apply Node_init_wf. Qed.

Lemma Factor_init_wf ty nid varnodes d r dmp :
  keeps_wf (Factor_init ty nid varnodes d r dmp).
Proof.
  unfold Factor_init. apply keeps_wf_bind; [apply Node_init_wf|]. intros self.
  apply keeps_wf_bind; [|intros; apply keeps_wf_ret].
  induction varnodes as [|node varnodes IH]; simpl; [apply keeps_wf_ret|].
  apply keeps_wf_bind; [|done]. intros σ Hwf. by apply addNeighbors_wf.
Qed.

Lemma run_call_wf c σ : wf σ → wf (run_call c σ).
Proof.
  intros Hwf. destruct c; simpl.
  - by apply Variable_init_wf.
  - by apply Factor_init_wf.
  - by apply addNeighbors_wf.
  - by apply receiveMsg_wf.
  - by apply sendMsg_wf.
  - by apply message_wf.
  - by apply (keeps_wf_read_only _ (checkConvergence_read_only a)).
Qed.

Lemma reachable_wf σ : reachable σ → wf σ.
Proof. induction 1; [apply wf_empty|by apply run_call_wf]. Qed.

Lemma wf_shape_invariant σ : wf σ → shape_invariant σ.
Proof.
  intros Hwf a n Hn. pose proof (wf_aligned σ a n Hwf Hn) as Hal.
  destruct (aligned_lookup σ n (in_msgs n) Hal) as (i & Hi & Hil);
    [apply elem_of_node_lists; auto|].
  destruct (aligned_lookup σ n (out_msgs n) Hal) as (o & Ho & Hol);
    [apply elem_of_node_lists; auto|].
  destruct (aligned_lookup σ n (prev_out_msgs n) Hal) as (p & Hp & Hpl);
    [apply elem_of_node_lists; auto|].
  exists i, o, p. split_and!; [done..|lia|lia|lia].
Qed.

Lemma addNeighbors_slot_appended (f : Node → loc) σ a b n m :
  wf σ → nodes σ !! a = Some n → nodes σ !! b = Some m → a ≠ b →
  (∀ x, f x ∈ node_lists x) →
  (∀ x l, f (set_neighbors x l) = f x) →
  slot_appended f a σ (grow (grow σ a b n) b a m) ∧
  slot_appended f b σ (grow (grow σ a b n) b a m).
Proof.
  intros Hwf Ha Hb Hab Hf Hset.
  pose proof (wf_grow σ a b n Hwf Ha) as Hwf'.
  assert (nodes (grow σ a b n) !! b = Some m) as Hb'.
  { simpl. by rewrite lookup_insert_ne. }
  destruct (aligned_lookup σ n (f n) (wf_aligned σ a n Hwf Ha) (Hf n))
    as (v & Hv & _).
  destruct (aligned_lookup σ m (f m) (wf_aligned σ b m Hwf Hb) (Hf m))
    as (w & Hw & _).
  split.
  - exists v. split; [by rewrite (msgs_of_lookup f a σ n)|].
    unfold msgs_of. simpl. rewrite lookup_insert_ne by done.
    rewrite lookup_insert_eq. simpl. rewrite Hset.
    change (lists (grow (grow σ a b n) b a m) !! f n = Some (v ++ [0%Qc])).
    rewrite grow_lookup_other by (by apply (wf_sep σ a b n m)).
    rewrite grow_lookup_own by (by eauto using wf_NoDup). by rewrite Hv.
  - exists w. split; [by rewrite (msgs_of_lookup f b σ m)|].
    unfold msgs_of. simpl. rewrite lookup_insert_eq. simpl. rewrite Hset.
    change (lists (grow (grow σ a b n) b a m) !! f m = Some (w ++ [0%Qc])).
    rewrite grow_lookup_own by (by eauto using wf_NoDup).
    rewrite grow_lookup_other by (by apply (wf_sep σ b a m n)).
    by rewrite Hw.
Qed.

(** C8: between two nodes of a store that satisfies the invariant,
    [addNeighbors] returns, appends each node to the [neighbors] of the
    other and one zero slot to [in_msgs], [out_msgs] and [prev_out_msgs]
    of both, and leaves the other nodes as they were.  [addNeighbors],
    [receiveMsg], [message] and [sendMsg] keep the invariant, whether they
    return or raise; the invariant says that each node has three message
    lists of its own with one slot per neighbor, so in every store that
    calls of the constructors and methods lead to from the empty store,
    [len(neighbors) == len(in_msgs) == len(out_msgs) == len(prev_out_msgs)]
    on every node. *)
Theorem C8_add_edge_and_invariant :
  (∀ σ a b n m,
     wf σ → nodes σ !! a = Some n → nodes σ !! b = Some m → a ≠ b →
     ∃ σ' n' m',
       addNeighbors a b σ = (Ok (), σ') ∧
       nodes σ' !! a = Some n' ∧ nodes σ' !! b = Some m' ∧
       neighbors n' = neighbors n ++ [b] ∧
       neighbors m' = neighbors m ++ [a] ∧
       slot_appended in_msgs a σ σ' ∧
       slot_appended out_msgs a σ σ' ∧
       slot_appended prev_out_msgs a σ σ' ∧
       slot_appended in_msgs b σ σ' ∧
       slot_appended out_msgs b σ σ' ∧
       slot_appended prev_out_msgs b σ σ' ∧
       (∀ c, c ≠ a → c ≠ b → nodes σ' !! c = nodes σ !! c)) ∧
  (∀ σ a b sender msg,
     wf σ →
     wf (run_state (addNeighbors a b) σ) ∧
     wf (run_state (receiveMsg a sender msg) σ) ∧
     wf (run_state (message a) σ) ∧
     wf (run_state (sendMsg a) σ)) ∧
  (∀ σ, wf σ → shape_invariant σ) ∧
  (∀ σ, reachable σ → shape_invariant σ).
Proof.
  split_and!.
  - intros σ a b n m Hwf Ha Hb Hab.
    exists (grow (grow σ a b n) b a m),
           (set_neighbors n (neighbors n ++ [b])),
           (set_neighbors m (neighbors m ++ [a])).
    destruct (addNeighbors_slot_appended in_msgs σ a b n m) as [? ?];
      [done..| |done|].
    { intros x. apply elem_of_node_lists. auto. }
    destruct (addNeighbors_slot_appended out_msgs σ a b n m) as [? ?];
      [done..| |done|].
    { intros x. apply elem_of_node_lists. auto. }
    destruct (addNeighbors_slot_appended prev_out_msgs σ a b n m) as [? ?];
      [done..| |done|].
    { intros x. apply elem_of_node_lists. auto. }
    split_and!; try done.
    + by apply addNeighbors_run.
    + simpl. rewrite lookup_insert_ne by done. apply lookup_insert_eq.
    + simpl. apply lookup_insert_eq.
    + intros c Hca Hcb. simpl. by rewrite !lookup_insert_ne.
  - intros σ a b sender msg Hwf. split_and!.
    + by apply addNeighbors_wf.
    + by apply receiveMsg_wf.
    + by apply message_wf.
    + by apply sendMsg_wf.
  - apply wf_shape_invariant.
  - intros σ Hσ. by apply wf_shape_invariant, reachable_wf.
Qed.

(** * The theorems at work on the example graphs *)

(** The first Variable node of [example_graph_undamped] has
    [in_msgs = [2, -1, 3]] and no damping: its new [out_msgs] is
    [[2, 5, 1]], with [-1 + 3] in slot 0. *)
Lemma C2_Variable_message_witness :
  ∃ σ' out', message 0 example_graph_undamped = (Ok (), σ') ∧
    msgs_of out_msgs 0 σ' = Some out' ∧
    out' = [Qcz 2; Qcz 5; Qcz 1] ∧
    out' !! 0
    = Some (Qcz 0 * Qcz 0
            + (1 - Qcz 0) * loo_sum [Qcz 2; Qcz (-1); Qcz 3] 0)%Qc.
Proof.
  destruct (C2_Variable_message 0 example_graph_undamped
              (mkNode "X" 0 (Qcz 0) [4; 6; 10] 0 1 2 (VariableNode 0 0)) 0 0
              [Qcz 2; Qcz (-1); Qcz 3] [Qcz 0; Qcz 0; Qcz 0])
    as (σ' & out' & Hrun & _ & Hout & _ & Hval & Hex).
  - by vm_compute.
  - reflexivity.
  - by vm_compute.
  - by vm_compute.
  - vm_compute; lia.
  - reflexivity.
  - exists σ', out'. split_and!; [exact Hrun|exact Hout| |].
    + apply Hex; [by apply Qc_eq_this|reflexivity].
    + apply (Hval 0 (Qcz 0)); [reflexivity| |].
      * apply (bool_decide_unpack _). by vm_compute.
      * apply (bool_decide_unpack _). by vm_compute.
Defined.


(** On [single_graph] the row-uniqueness Factor node (address 1) has one
    neighbor and [message] raises, while the column-budget Factor node
    (address 3) has one neighbor and [message] returns. *)
Lemma C4_too_few_neighbors_witness :
  (∃ e σ', message 1 single_graph = (Raise e, σ')) ∧
  (∃ σ', message 3 single_graph = (Ok (), σ')).
Proof.
  split.
  - refine (proj1 (C4_too_few_neighbors 1 single_graph
              (mkNode "JF" 1 (Qcz 0) [0] 3 4 5
                 (FactorNode (mkArray [[Qcz 4]] 1) (Qcz 1) 1 1))
              (mkArray [[Qcz 4]] 1) (Qcz 1) 1 1 [Qcz 0] _ _ _) _ _).
    + by vm_compute.
    + reflexivity.
    + by vm_compute.
    + reflexivity.
    + vm_compute; lia.
  - refine (proj2 (proj2 (proj2 (proj2 (C4_too_few_neighbors 3 single_graph
              (mkNode "IC" 3 (Qcz 0) [0] 9 10 11
                 (FactorNode (mkArray [[Qcz 4]] 1) (Qcz 1) 1 1))
              (mkArray [[Qcz 4]] 1) (Qcz 1) 1 1 [Qcz 0] _ _ _)))) _ _ _ 0%Z 0%Z
              [(Qcz 3 - Qcz 4)%Qc] _ _).
    + by vm_compute.
    + reflexivity.
    + by vm_compute.
    + reflexivity.
    + reflexivity.
    + reflexivity.
    + eexists _, _. split_and!; by vm_compute.
    + split; [reflexivity|]. intros [|k] e He; simplify_eq/=.
      eexists _, _. split_and!; [|by vm_compute|reflexivity].
      eexists _, _, _. split_and!; by vm_compute.
Defined.

(** With [damp = 1], [message] on the Variable node of (0,0) of
    [example_graph_frozen] leaves [out_msgs] as it was, all zeros. *)
Lemma C5_damp_one_witness :
  msgs_of out_msgs 0 (run_state (message 0) example_graph_frozen)
    = Some [Qcz 0; Qcz 0; Qcz 0] ∧
  msgs_of prev_out_msgs 0 (run_state (message 0) example_graph_frozen)
    = Some [Qcz 0; Qcz 0; Qcz 0].
Proof.
  apply (C5_damp_one 0 example_graph_frozen
           (mkNode "X" 0 (Qcz 1) [4; 6; 10] 0 1 2 (VariableNode 0 0))
           [Qcz 0; Qcz 0; Qcz 0]).
  - by vm_compute.
  - by vm_compute.
  - by apply Qc_eq_this.
Defined.


(** The Variable node of (0,0) of [example_graph] takes a message from
    its pairwise-link Factor (address 6) in slot 1, and refuses one from
    the Variable node of (0,1), which is not a neighbor. *)
Lemma C7_receive_witness :
  (∃ σ', receiveMsg 0 6 (Qcz 7) example_graph = (Ok (), σ') ∧
         msgs_of in_msgs 0 σ' = Some [Qcz 2; Qcz 7; Qcz 3]) ∧
  receiveMsg 0 1 (Qcz 7) example_graph = (Raise ValueError, example_graph).
Proof.
  destruct (C7_receive 0 example_graph
              (mkNode "X" 0 (Q2Qc (1 # 2)) [4; 6; 10] 0 1 2 (VariableNode 0 0))
              [Qcz 2; Qcz (-1); Qcz 3] 6 (Qcz 7))
    as (Hok & _ & _); [by vm_compute|by vm_compute|reflexivity|].
  destruct (C7_receive 0 example_graph
              (mkNode "X" 0 (Q2Qc (1 # 2)) [4; 6; 10] 0 1 2 (VariableNode 0 0))
              [Qcz 2; Qcz (-1); Qcz 3] 1 (Qcz 7))
    as (_ & Hfail & _); [by vm_compute|by vm_compute|reflexivity|].
  split.
  - destruct Hok as (k & Hk & _ & Hrun & _).
    { apply list_elem_of_lookup. by exists 1. }
    exists (mkStore (nodes example_graph)
              (<[0 := <[k := Qcz 7]> [Qcz 2; Qcz (-1); Qcz 3]]>
                 (lists example_graph))).
    split; [exact Hrun|]. clear Hrun.
    destruct k as [|[|[|k]]]; try discriminate Hk. by vm_compute.
  - apply Hfail. cbn [neighbors]. rewrite !not_elem_of_cons. split_and!; try lia.
    apply not_elem_of_nil.
Defined.

(** An edge between two nodes of [example_graph], and the invariant after
    [message]. *)
Lemma C8_add_edge_and_invariant_witness :
  ∃ σ', addNeighbors 0 1 example_graph = (Ok (), σ') ∧
        slot_appended in_msgs 0 example_graph σ' ∧
        wf (run_state (message 0) example_graph).
Proof.
  destruct (proj1 C8_add_edge_and_invariant example_graph 0 1
              (mkNode "X" 0 (Q2Qc (1 # 2)) [4; 6; 10] 0 1 2 (VariableNode 0 0))
              (mkNode "X" 1 (Q2Qc (1 # 2)) [5; 7; 10] 3 4 5 (VariableNode 0 1)))
    as (σ' & n' & m' & Hrun & _ & _ & _ & _ & Happ & _).
  - apply (bool_decide_unpack _). by vm_compute.
  - by vm_compute.
  - by vm_compute.
  - lia.
  - exists σ'. split_and!; [exact Hrun|exact Happ|].
    apply (proj1 (proj2 C8_add_edge_and_invariant) example_graph 0 0 0 (Qcz 0)).
    apply (bool_decide_unpack _). by vm_compute.
Defined.


(** [message] on the Variable node of (0,0) of [example_graph]. *)
Lemma C10_message_frame_witness :
  ∃ n', nodes (run_state (message 0) example_graph) !! 0 = Some n' ∧
        neighbors n' = [4; 6; 10] ∧
        lists (run_state (message 0) example_graph) !! in_msgs n'
          = Some [Qcz 2; Qcz (-1); Qcz 3] ∧
        prev_out_msgs n' ≠ out_msgs n'.
Proof.
  destruct (C10_message_frame 0 example_graph
              (mkNode "X" 0 (Q2Qc (1 # 2)) [4; 6; 10] 0 1 2 (VariableNode 0 0))
              [Qcz 2; Qcz (-1); Qcz 3] [Qcz 0; Qcz 0; Qcz 0])
    as (n' & Hn' & Hnb & _ & _ & _ & Hin & _ & Hne & _).
  - by vm_compute.
  - by vm_compute.
  - by vm_compute.
  - vm_compute; lia.
  - exists n'. split_and!; [exact Hn'|exact Hnb|exact Hin|exact Hne].
Defined.

(** * Further properties of the code *)

(** ** The constructors *)

Lemma VALID_NODES_spec ty :
  ty ∈ VALID_NODES ↔
  ty = "X"%string ∨ ty = "IJ"%string ∨ ty = "IC"%string ∨ ty = "JF"%string.
Proof. unfold VALID_NODES. rewrite !elem_of_cons, elem_of_nil. tauto. Qed.

Lemma Node_init_run c ty nid dmp σ :
  run_result (Node_init c ty nid dmp) σ
  = if decide (ty ∈ VALID_NODES) then Ok (fresh (dom (nodes σ)))
    else Raise ValueError.
Proof.
  unfold run_result, Node_init, mbind, M_bind, bind, alloc_list, alloc_node,
    validTypes. simpl. by case_decide.
Qed.

Lemma run_pair {A} (m : M A) σ : m σ = (run_result m σ, run_state m σ).
Proof. unfold run_result, run_state. by destruct (m σ). Qed.

Lemma bind_Ok {A B} (m : M A) (k : A → M B) σ a σ' :
  m σ = (Ok a, σ') → (m ≫= k) σ = k a σ'.
Proof. intros H. unfold mbind, M_bind, bind. by rewrite H. Qed.

Lemma bind_Raise {A B} (m : M A) (k : A → M B) σ e σ' :
  m σ = (Raise e, σ') → (m ≫= k) σ = (Raise e, σ').
Proof. intros H. unfold mbind, M_bind, bind. by rewrite H. Qed.

(** X1 ([Variable.__init__], [Node.__init__], [Node.validTypes]): the
    valid node types are exactly X, IJ, IC and JF.  With any other type
    the constructor raises [ValueError].  With a valid type it returns a
    new node, at an address that was free, with the given type, id,
    damping and indices and no neighbors; its three message lists are
    new, distinct and empty; no other node and no other list changes. *)
Theorem X1_Variable_init (ty : string) (id i j : Z) (dmp : Qc) (σ : store) :
  (ty ∈ VALID_NODES ↔
   ty = "X"%string ∨ ty = "IJ"%string ∨ ty = "IC"%string ∨ ty = "JF"%string) ∧
  (ty ∉ VALID_NODES →
   ∃ σ', Variable_init ty id i j dmp σ = (Raise ValueError, σ')) ∧
  (ty ∈ VALID_NODES →
   ∃ a σ' n,
     Variable_init ty id i j dmp σ = (Ok a, σ') ∧
     nodes σ !! a = None ∧
     nodes σ' !! a = Some n ∧
     nodetype n = ty ∧ nid n = id ∧ damp n = dmp ∧
     cls n = VariableNode i j ∧ neighbors n = [] ∧
     i_index a σ' = (Ok i, σ') ∧ j_index a σ' = (Ok j, σ') ∧
     NoDup (node_lists n) ∧
     (∀ l, l ∈ node_lists n → lists σ !! l = None ∧ lists σ' !! l = Some []) ∧
     (∀ b, b ≠ a → nodes σ' !! b = nodes σ !! b) ∧
     (∀ l, l ∉ node_lists n → lists σ' !! l = lists σ !! l)).
Proof.
  split_and!; [apply VALID_NODES_spec| |].
  - intros Hty. exists (run_state (Variable_init ty id i j dmp) σ).
    rewrite (run_pair (Variable_init ty id i j dmp) σ). f_equal.
    unfold Variable_init. rewrite Node_init_run. by rewrite decide_False.
  - intros Hty. unfold Variable_init.
    set (L := lists σ).
    set (li := fresh (dom L)). set (L1 := <[li := []]> L).
    set (lo := fresh (dom L1)). set (L2 := <[lo := []]> L1).
    set (lp := fresh (dom L2)). set (a := fresh (dom (nodes σ))).
    set (n0 := mkNode ty id dmp [] li lo lp (VariableNode i j)).
    assert (L !! li = None) as Hi by apply not_elem_of_dom, is_fresh.
    assert (L1 !! lo = None) as Ho by apply not_elem_of_dom, is_fresh.
    assert (L2 !! lp = None) as Hp by apply not_elem_of_dom, is_fresh.
    assert (nodes σ !! a = None) as Ha by apply not_elem_of_dom, is_fresh.
    assert (lo ≠ li) as Hoi.
    { intros Heq. unfold L1 in Ho. rewrite Heq, lookup_insert_eq in Ho. done. }
    assert (lp ≠ lo) as Hpo.
    { intros Heq. unfold L2 in Hp. rewrite Heq, lookup_insert_eq in Hp. done. }
    assert (lp ≠ li) as Hpi.
    { intros Heq. unfold L2, L1 in Hp.
      rewrite Heq, lookup_insert_ne, lookup_insert_eq in Hp; done. }
    assert (L !! lo = None) as Ho'.
    { unfold L1 in Ho. by rewrite lookup_insert_ne in Ho. }
    assert (L !! lp = None) as Hp'.
    { unfold L2, L1 in Hp. by rewrite !lookup_insert_ne in Hp. }
    set (σ' := mkStore (<[a := n0]> (nodes σ)) (<[lp := []]> L2)).
    assert (nodes σ' !! a = Some n0) as Ha' by apply lookup_insert_eq.
    exists a, σ', n0. split_and!; try done.
    + rewrite (run_pair (Node_init _ ty id dmp) σ). f_equal.
      * rewrite Node_init_run. by rewrite decide_True.
      * apply Node_init_state.
    + by apply (i_index_run σ' a n0 i j).
    + by apply (j_index_run σ' a n0 i j).
    + apply NoDup_node_lists. simpl. split_and!; by apply not_eq_sym.
    + intros l [->|[->| ->]]%elem_of_node_lists; simpl; (split; [done|]).
      * unfold L2, L1.
        do 2 rewrite lookup_insert_ne by done. by rewrite lookup_insert_eq.
      * unfold L2. rewrite lookup_insert_ne by done. by rewrite lookup_insert_eq.
      * by rewrite lookup_insert_eq.
    + intros b Hb. simpl. by rewrite lookup_insert_ne.
    + intros l. rewrite elem_of_node_lists. simpl. intros Hl.
      unfold L2, L1. rewrite !lookup_insert_ne; [done|intros <-; tauto..].
Qed.

Lemma set_neighbors_id m : set_neighbors m (neighbors m ++ []) = m.
Proof. destruct m. unfold set_neighbors. simpl. by rewrite app_nil_r. Qed.

Lemma edges_added_ext σ σ' K K' :
  edges_added σ σ' K → (∀ c, K c = K' c) → edges_added σ σ' K'.
Proof.
  intros (Hnone & Hsome & Hrest) HK. split_and!; [done| |done].
  intros b m Hm. rewrite <-HK. by apply Hsome.
Qed.

Lemma edges_added_trans σ σ1 σ2 K1 K2 :
  edges_added σ σ1 K1 → edges_added σ1 σ2 K2 →
  edges_added σ σ2 (λ c, K1 c ++ K2 c).
Proof.
  intros (Hnone1 & Hsome1 & Hrest1) (Hnone2 & Hsome2 & Hrest2). split_and!.
  - intros b Hb. by apply Hnone2, Hnone1.
  - intros b m Hm. destruct (Hsome1 b m Hm) as [Hm1 Hl1].
    destruct (Hsome2 b _ Hm1) as [Hm2 Hl2]. split.
    + rewrite Hm2. f_equal. unfold set_neighbors. simpl. by rewrite app_assoc.
    + intros l Hl. rewrite Hl2 by done. rewrite Hl1 by done.
      rewrite <-option_fmap_compose. apply option_fmap_ext. intros v. simpl.
      by rewrite length_app, replicate_add, app_assoc.
  - intros l Hl. rewrite Hrest2, Hrest1; [done|done|].
    intros b m1 Hm1. destruct (nodes σ !! b) as [m|] eqn:Hm.
    + destruct (Hsome1 b m Hm) as [Hm1' _]. simplify_eq. by apply (Hl b m).
    + rewrite (Hnone1 b Hm) in Hm1. done.
Qed.

(** One edge. *)
Lemma edges_added_grow σ a b n m :
  wf σ → nodes σ !! a = Some n → nodes σ !! b = Some m → a ≠ b →
  edges_added σ (grow (grow σ a b n) b a m)
    (λ c, if decide (c = a) then [b] else if decide (c = b) then [a] else []).
Proof.
  intros Hwf Ha Hb Hab. pose proof (wf_grow σ a b n Hwf Ha) as Hwf1.
  assert (nodes (grow σ a b n) !! b = Some m) as Hb1.
  { simpl. by rewrite lookup_insert_ne. }
  split_and!.
  - intros c Hc. simpl. rewrite !lookup_insert_ne; [done|intros <-; congruence..].
  - intros c mc Hc. destruct (decide (c = a)) as [->|Hca].
    { assert (mc = n) as -> by congruence. split.
      - simpl. rewrite lookup_insert_ne by done. by rewrite lookup_insert_eq.
      - intros l Hl.
        rewrite grow_lookup_other by (by apply (wf_sep σ a b n m)).
        by rewrite grow_lookup_own by (by eauto using wf_NoDup). }
    destruct (decide (c = b)) as [->|Hcb].
    { assert (mc = m) as -> by congruence. split.
      - simpl. by rewrite lookup_insert_eq.
      - intros l Hl.
        rewrite grow_lookup_own by (by eauto using wf_NoDup).
        by rewrite grow_lookup_other by (by apply (wf_sep σ b a m n)). }
    split.
    + simpl. rewrite !lookup_insert_ne by done. by rewrite set_neighbors_id.
    + intros l Hl. simpl length.
      rewrite !grow_lookup_other;
        [|by apply (wf_sep σ c a mc n)|by apply (wf_sep σ c b mc m)].
      destruct (lists σ !! l); simpl; [|done]. by rewrite app_nil_r.
  - intros l Hl. rewrite !grow_lookup_other; [done|by apply (Hl a)|by apply (Hl b)].
Qed.

Lemma edges_of_cons self v vs c :
  v ≠ self →
  (if decide (c = self) then [v] else if decide (c = v) then [self] else [])
  ++ edges_of self vs c
  = edges_of self (v :: vs) c.
Proof.
  intros Hv. unfold edges_of. destruct (decide (c = self)) as [->|Hc]; [done|].
  destruct (decide (c = v)) as [->|Hcv].
  - by rewrite filter_cons_True.
  - by rewrite filter_cons_False by congruence.
Qed.

(** The loop of [Factor.__init__]. *)
Lemma addNeighbors_fold self vs σ n :
  wf σ → nodes σ !! self = Some n →
  Forall (λ v, v ≠ self ∧ nodes σ !! v ≠ None) vs →
  ∃ σ', foldr (λ node k, addNeighbors self node;; k) (ret ()) vs σ
        = (Ok (), σ') ∧
        wf σ' ∧ edges_added σ σ' (edges_of self vs).
Proof.
  revert σ n. induction vs as [|v vs IH]; intros σ n Hwf Hself Hvs.
  - exists σ. split_and!; [done|done|]. split_and!; [done| |done].
    intros b m Hm. unfold edges_of. case_decide; simpl.
    + rewrite set_neighbors_id. split; [done|]. intros l _.
      destruct (lists σ !! l); simpl; [|done]. by rewrite app_nil_r.
    + rewrite set_neighbors_id. split; [done|]. intros l _.
      destruct (lists σ !! l); simpl; [|done]. by rewrite app_nil_r.
  - apply Forall_cons in Hvs as [[Hv Hex] Hvs].
    destruct (nodes σ !! v) as [m|] eqn:Hm; [|done].
    pose proof (addNeighbors_run self v σ n m Hwf Hself Hm (not_eq_sym Hv))
      as Hrun.
    pose proof (edges_added_grow σ self v n m Hwf Hself Hm (not_eq_sym Hv))
      as Hstep.
    set (σ1 := grow (grow σ self v n) v self m) in *.
    assert (wf σ1) as Hwf1.
    { unfold σ1. apply wf_grow; [by apply wf_grow|].
      simpl. by rewrite lookup_insert_ne by (by apply not_eq_sym). }
    pose proof Hstep as (Hnone & Hsome & Hrest).
    destruct (Hsome self n Hself) as [Hself1 _].
    destruct (IH σ1 _ Hwf1 Hself1) as (σ' & Hrun' & Hwf' & Hadd').
    { eapply Forall_impl; [exact Hvs|]. intros w [Hw Hwex]. split; [done|].
      destruct (nodes σ !! w) as [mw|] eqn:Hmw; [|done].
      destruct (Hsome w mw Hmw) as [-> _]. done. }
    exists σ'. split_and!; [|done|].
    + simpl. unfold mbind, M_bind, bind. by rewrite Hrun.
    + eapply edges_added_ext.
      * eapply edges_added_trans; [exact Hstep|exact Hadd'].
      * intros c. simpl. by apply edges_of_cons.
Qed.




Lemma length_zero_lookup (o : option (list Qc)) :
  length <$> o = Some 0 → o = Some [].
Proof. by destruct o as [[|??]|]. Qed.

(** What [Node.__init__] leaves in the store, in a store that satisfies
    the invariant: a new node with three new empty lists. *)
Lemma Node_init_store c ty id dmp σ :
  wf σ →
  ∃ n, let a := fresh (dom (nodes σ)) in
       let σ' := run_state (Node_init c ty id dmp) σ in
    nodes σ !! a = None ∧
    nodes σ' !! a = Some n ∧
    n = mkNode ty id dmp [] (in_msgs n) (out_msgs n) (prev_out_msgs n) c ∧
    (∀ l, l ∈ node_lists n → lists σ' !! l = Some []) ∧
    (∀ b m, nodes σ !! b = Some m →
       nodes σ' !! b = Some m ∧
       ∀ l, l ∈ node_lists m → lists σ' !! l = lists σ !! l).
Proof.
  intros Hwf. pose proof (Node_init_wf c ty id dmp σ Hwf) as Hwf'.
  rewrite Node_init_state in *.
  set (L := lists σ) in *.
  set (li := fresh (dom L)) in *. set (L1 := <[li := []]> L) in *.
  set (lo := fresh (dom L1)) in *. set (L2 := <[lo := []]> L1) in *.
  set (lp := fresh (dom L2)) in *. set (a := fresh (dom (nodes σ))) in *.
  set (n0 := mkNode ty id dmp [] li lo lp c) in *.
  set (σ' := mkStore (<[a := n0]> (nodes σ)) (<[lp := []]> L2)) in *.
  assert (nodes σ !! a = None) as Ha by apply not_elem_of_dom, is_fresh.
  assert (nodes σ' !! a = Some n0) as Ha' by apply lookup_insert_eq.
  exists n0. simpl. split_and!; [done|done|done| |].
  - intros l Hl. apply length_zero_lookup.
    apply (wf_length σ' a n0 l Hwf' Ha' Hl).
  - intros b m Hm. assert (a ≠ b) as Hab by congruence.
    assert (nodes σ' !! b = Some m) as Hm'.
    { simpl. by rewrite lookup_insert_ne. }
    split; [done|]. intros l Hl.
    pose proof (wf_sep σ' b a m n0 l Hwf' Hm' Ha' (not_eq_sym Hab) Hl) as Hsep.
    rewrite elem_of_node_lists in Hsep. simpl in Hsep.
    simpl. unfold L2, L1. rewrite !lookup_insert_ne; [done|intros <-; tauto..].
Qed.



(** X2 ([Factor.__init__]): in a store that satisfies the invariant, with
    [varnodes] nodes of the store.  An invalid type raises [ValueError]
    and leaves every node of the store as it was.  A valid type returns a
    new Factor node that holds the matrix, the regularization and the
    shape of the matrix, whose neighbors are [varnodes] in order and whose
    three message lists hold one zero per neighbor; every node [b] of the
    store got the new node appended to its neighbors once per occurrence
    of [b] in [varnodes], and as many zero slots in each of its three
    lists. *)
Theorem X2_Factor_init (ty : string) (id : Z) (varnodes : list loc)
    (d : ndarray) (r dmp : Qc) (σ : store) :
  wf σ →
  Forall (λ v, nodes σ !! v ≠ None) varnodes →
  (ty ∉ VALID_NODES →
   ∃ σ', Factor_init ty id varnodes d r dmp σ = (Raise ValueError, σ') ∧
         ∀ b m, nodes σ !! b = Some m → nodes σ' !! b = Some m) ∧
  (ty ∈ VALID_NODES →
   ∃ self σ' n,
     Factor_init ty id varnodes d r dmp σ = (Ok self, σ') ∧
     nodes σ !! self = None ∧
     nodes σ' !! self = Some n ∧
     nodetype n = ty ∧ nid n = id ∧ damp n = dmp ∧
     cls n = FactorNode d r (shape0 d) (shape1 d) ∧
     neighbors n = varnodes ∧
     msgs_of in_msgs self σ' = Some (replicate (length varnodes) 0%Qc) ∧
     msgs_of out_msgs self σ' = Some (replicate (length varnodes) 0%Qc) ∧
     msgs_of prev_out_msgs self σ' = Some (replicate (length varnodes) 0%Qc) ∧
     ∀ b m, nodes σ !! b = Some m →
       nodes σ' !! b
       = Some (set_neighbors m
                 (neighbors m
                  ++ replicate (length (filter (λ v, v = b) varnodes)) self)) ∧
       ∀ l, l ∈ node_lists m →
         lists σ' !! l
         = (λ v, v ++ replicate (length (filter (λ v, v = b) varnodes)) 0%Qc)
           <$> lists σ !! l).
Proof.
  intros Hwf Hvs.
  set (c := FactorNode d r (shape0 d) (shape1 d)).
  destruct (Node_init_store c ty id dmp σ Hwf) as (n0 & Ha & Ha0 & Hn0 & Hl0 & Hold).
  pose proof (Node_init_wf c ty id dmp σ Hwf) as Hwf0.
  pose proof (run_pair (Node_init c ty id dmp) σ) as Hinit.
  rewrite Node_init_run in Hinit.
  set (a := fresh (dom (nodes σ))) in *.
  set (σ0 := run_state (Node_init c ty id dmp) σ) in *.
  split.
  - intros Hty. rewrite decide_False in Hinit by done. exists σ0. split.
    + unfold Factor_init. fold c. by apply bind_Raise.
    + intros b m Hm. by apply Hold.
  - intros Hty. rewrite decide_True in Hinit by done.
    destruct (addNeighbors_fold a varnodes σ0 n0 Hwf0 Ha0)
      as (σ' & Hrun & Hwf' & Hnone & Hsome & Hrest).
    { eapply Forall_impl; [exact Hvs|]. intros v Hv. simpl in Hv.
      destruct (nodes σ !! v) as [m|] eqn:Hm; [|done].
      split; [congruence|]. destruct (Hold v m Hm) as [-> _]. done. }
    destruct (Hsome a n0 Ha0) as [Hself Hlists].
    assert (edges_of a varnodes a = varnodes) as Hedges.
    { unfold edges_of. by rewrite decide_True. }
    rewrite Hedges in Hself, Hlists.
    exists a, σ', (set_neighbors n0 (neighbors n0 ++ varnodes)).
    assert (∀ f : Node → loc, f n0 ∈ node_lists n0 →
              (∀ x l, f (set_neighbors x l) = f x) →
              msgs_of f a σ' = Some (replicate (length varnodes) 0%Qc)) as Hmsgs.
    { intros f Hf Hset. rewrite (msgs_of_lookup f a σ' _ Hself), Hset.
      rewrite Hlists by done. by rewrite Hl0. }
    split_and!; try (by rewrite Hn0).
    + unfold Factor_init. fold c. rewrite (bind_Ok _ _ _ _ _ Hinit).
      by rewrite (bind_Ok _ _ _ _ _ Hrun).
    + done.
    + done.
    + apply Hmsgs; [apply elem_of_node_lists; auto|done].
    + apply Hmsgs; [apply elem_of_node_lists; auto|done].
    + apply Hmsgs; [apply elem_of_node_lists; auto|done].
    + intros b m Hm. destruct (Hold b m Hm) as [Hm0 Hlm0].
      destruct (Hsome b m Hm0) as [Hm' Hlm'].
      assert (edges_of a varnodes b
              = replicate (length (filter (λ v, v = b) varnodes)) a) as Hb.
      { unfold edges_of. rewrite decide_False; [done|congruence]. }
      rewrite Hb in Hm', Hlm'. rewrite length_replicate in Hlm'.
      split; [done|]. intros l Hl. rewrite Hlm' by done. by rewrite Hlm0.
Qed.

Lemma listed_back_lookup σ self n nb m :
  listed_back σ self n → nb ∈ neighbors n → nodes σ !! nb = Some m →
  self ∈ neighbors m.
Proof.
  intros Hback Hnb Hm. pose proof (proj1 (Forall_forall _ _) Hback nb Hnb) as H.
  simpl in H. by rewrite Hm in H.
Qed.

Lemma listed_back_is_Some σ self n nb :
  listed_back σ self n → nb ∈ neighbors n → nodes σ !! nb ≠ None.
Proof.
  intros Hback Hnb. pose proof (proj1 (Forall_forall _ _) Hback nb Hnb) as H.
  simpl in H. by destruct (nodes σ !! nb).
Qed.


Lemma in_msgs_node_lists m : in_msgs m ∈ node_lists m.
Proof. apply elem_of_node_lists. auto. Qed.

Lemma out_msgs_node_lists m : out_msgs m ∈ node_lists m.
Proof. apply elem_of_node_lists. auto. Qed.

Lemma prev_out_msgs_node_lists m : prev_out_msgs m ∈ node_lists m.
Proof. apply elem_of_node_lists. auto. Qed.

(** In a store that satisfies the invariant, the list [in_msgs] of a node
    is the list [out_msgs] of no node. *)
Lemma wf_in_ne_out σ a b n m :
  wf σ → nodes σ !! a = Some n → nodes σ !! b = Some m →
  in_msgs n ≠ out_msgs m.
Proof.
  intros Hwf Ha Hb. destruct (decide (a = b)) as [<-|Hab].
  - assert (m = n) as -> by congruence.
    by destruct (proj1 (NoDup_node_lists n) (wf_NoDup σ a n Hwf Ha)) as (? & _).
  - intros Heq.
    apply (wf_sep σ a b n m (in_msgs n) Hwf Ha Hb Hab (in_msgs_node_lists n)).
    rewrite Heq. apply out_msgs_node_lists.
Qed.

Lemma wf_in_ne_in σ a b n m :
  wf σ → nodes σ !! a = Some n → nodes σ !! b = Some m → a ≠ b →
  in_msgs n ≠ in_msgs m.
Proof.
  intros Hwf Ha Hb Hab Heq.
  apply (wf_sep σ a b n m (in_msgs n) Hwf Ha Hb Hab (in_msgs_node_lists n)).
  rewrite Heq. apply in_msgs_node_lists.
Qed.

Lemma wp_sendMsg self σ n out :
  wf σ → nodes σ !! self = Some n → lists σ !! out_msgs n = Some out →
  NoDup (neighbors n) →
  (∀ nb, nb ∈ neighbors n → nodes σ !! nb ≠ None) →
  wp (sendMsg self)
     (λ _, sent_upto σ self n out (length (neighbors n)))
     (λ e _, e = ValueError ∧ ¬ listed_back σ self n) σ.
Proof.
  intros Hwf Hself Hout Hnd Hex.
  assert (length out = length (neighbors n)) as Hlen.
  { pose proof (wf_length σ self n _ Hwf Hself (out_msgs_node_lists n)) as H.
    rewrite Hout in H. by simplify_eq/=. }
  unfold sendMsg. apply wp_bind, wp_get_node. rewrite Hself.
  apply wp_for_range.
  { split_and!; [done|intros; lia|intros; lia|done]. }
  intros k σ' Hk (Hnodes & Hgood & Hsent & Hrest).
  destruct (lookup_lt_is_Some_2 (neighbors n) k) as [nb Hnb]; [done|].
  destruct (lookup_lt_is_Some_2 out k) as [o Ho]; [lia|].
  assert (nb ∈ neighbors n) as Hnb_in by (by eapply list_elem_of_lookup_2).
  destruct (nodes σ !! nb) as [m|] eqn:Hm; [|by destruct (Hex nb Hnb_in)].
  assert (∀ i nbi mi, i < k → neighbors n !! i = Some nbi →
            nodes σ !! nbi = Some mi → nbi ≠ nb) as Hdiff.
  { intros i nbi mi Hi Hnbi _ ->.
    pose proof (NoDup_lookup _ _ _ _ Hnd Hnbi Hnb). lia. }
  apply wp_bind, wp_get_node. rewrite Hnodes, Hself.
  apply wp_bind, wp_or_raise. rewrite Hnb.
  apply wp_bind, wp_list_getitem. rewrite Hrest, Hout, Ho; last first.
  { intros i nbi mi _ _ Hmi. apply not_eq_sym. by eapply wf_in_ne_out. }
  unfold receiveMsg. apply wp_bind, wp_get_node. rewrite Hnodes, Hm.
  apply wp_bind, wp_or_raise.
  destruct (py_index (neighbors m) self) as [idx|] eqn:Hidx; last first.
  { split; [done|]. intros Hback. apply py_index_None in Hidx.
    by apply Hidx, (listed_back_lookup σ self n nb m). }
  destruct (py_index_Some _ _ _ Hidx) as [Hat _].
  destruct (aligned_lookup σ m (in_msgs m) (wf_aligned σ nb m Hwf Hm)
              (in_msgs_node_lists m)) as (v & Hv & Hvlen).
  apply wp_list_setitem. rewrite Hrest, Hv; last first.
  { intros i nbi mi Hi Hnbi Hmi. apply not_eq_sym.
    eapply wf_in_ne_in; [done..|]. by eapply Hdiff. }
  rewrite decide_True by (rewrite Hvlen; by eapply lookup_lt_Some).
  split_and!; simpl.
  - done.
  - intros i nbi mi Hi Hnbi Hmi. destruct (decide (i = k)) as [->|Hik].
    + simplify_eq. by eapply list_elem_of_lookup_2.
    + apply (Hgood i nbi mi); [lia|done..].
  - intros i nbi mi vi Hi Hnbi Hmi Hvi. destruct (decide (i = k)) as [->|Hik].
    + simplify_eq. exists idx, o. by rewrite lookup_insert_eq.
    + destruct (Hsent i nbi mi vi) as (idx' & o' & ? & ? & ?); [lia|done..|].
      exists idx', o'. split_and!; [done..|].
      rewrite lookup_insert_ne; [done|].
      eapply wf_in_ne_in; [done..|]. apply not_eq_sym. eapply Hdiff; [|done..]. lia.
  - intros l Hl. rewrite lookup_insert_ne by (apply not_eq_sym, (Hl k nb m); [lia|done..]).
    apply Hrest. intros i nbi mi Hi. apply Hl. lia.
Qed.

(** X3 ([Node.sendMsg]): in a store that satisfies the invariant, if the
    neighbors of [self] are distinct and each of them lists [self] back,
    [sendMsg] returns and changes no node.  The [in_msgs] of neighbor [i]
    then holds [out_msgs[i]] in the slot of the first occurrence of [self]
    among the neighbors of that neighbor, and is unchanged elsewhere.  No
    other list changes; in particular no [out_msgs] and no
    [prev_out_msgs]. *)
Theorem X3_sendMsg_delivers (self : loc) (σ : store) (n : Node)
    (out : list Qc) :
  wf σ →
  nodes σ !! self = Some n →
  lists σ !! out_msgs n = Some out →
  NoDup (neighbors n) →
  listed_back σ self n →
  ∃ σ',
    sendMsg self σ = (Ok (), σ') ∧
    nodes σ' = nodes σ ∧
    (∀ i nb m v, neighbors n !! i = Some nb → nodes σ !! nb = Some m →
       lists σ !! in_msgs m = Some v →
       ∃ idx o, py_index (neighbors m) self = Some idx ∧ out !! i = Some o ∧
                lists σ' !! in_msgs m = Some (<[idx := o]> v)) ∧
    (∀ l, (∀ nb m, nb ∈ neighbors n → nodes σ !! nb = Some m →
                   l ≠ in_msgs m) →
          lists σ' !! l = lists σ !! l) ∧
    (∀ b m, nodes σ !! b = Some m →
       lists σ' !! out_msgs m = lists σ !! out_msgs m ∧
       lists σ' !! prev_out_msgs m = lists σ !! prev_out_msgs m).
Proof.
  intros Hwf Hself Hout Hnd Hback.
  assert (∀ nb, nb ∈ neighbors n → nodes σ !! nb ≠ None) as Hex.
  { intros nb Hnb. by apply (listed_back_is_Some σ self n nb). }
  pose proof (wp_sendMsg self σ n out Hwf Hself Hout Hnd Hex) as Hwp.
  unfold wp in Hwp. destruct (sendMsg self σ) as [[[]|e] σ'] eqn:Hrun;
    [|by destruct Hwp as [_ []]].
  destruct Hwp as (Hnodes & _ & Hsent & Hrest).
  assert (∀ l, (∀ nb m, nb ∈ neighbors n → nodes σ !! nb = Some m →
                        l ≠ in_msgs m) →
               lists σ' !! l = lists σ !! l) as Hrest'.
  { intros l Hl. apply Hrest. intros i nb m _ Hnb. apply Hl.
    by eapply list_elem_of_lookup_2. }
  exists σ'. split_and!; [done|done| |done|].
  - intros i nb m v Hnb. apply Hsent; [|done]. by eapply lookup_lt_Some.
  - intros b m Hm. split; apply Hrest'; intros nb mb _ Hmb; apply not_eq_sym.
    + by eapply wf_in_ne_out.
    + destruct (decide (nb = b)) as [->|Hne].
      * assert (mb = m) as -> by congruence.
        by destruct (proj1 (NoDup_node_lists m) (wf_NoDup σ b m Hwf Hm))
          as (_ & ? & _).
      * intros Heq.
        apply (wf_sep σ nb b mb m (in_msgs mb) Hwf Hmb Hm Hne
                 (in_msgs_node_lists mb)).
        rewrite Heq. apply prev_out_msgs_node_lists.
Qed.

(** [sendMsg] over nodes: it can only raise the [ValueError] of
    [receiveMsg], and it returns only if every neighbor lists [self]. *)
Lemma wp_sendMsg_nodes self σ n :
  wf σ → nodes σ !! self = Some n →
  Forall (λ nb, is_Some (nodes σ !! nb)) (neighbors n) →
  wp (sendMsg self)
     (λ _ σ', same_shape σ σ' ∧ listed_back σ self n)
     (λ e σ', e = ValueError ∧ same_shape σ σ') σ.
Proof.
  intros Hwf Hself Hex.
  unfold sendMsg. apply wp_bind, wp_get_node. rewrite Hself.
  eapply (wp_mono _ _ _ (λ e σ', e = ValueError ∧ same_shape σ σ'));
    [apply (wp_for_range
              (λ k σ', same_shape σ σ' ∧
                 ∀ i nb, i < k → neighbors n !! i = Some nb →
                   from_option (λ m, self ∈ neighbors m) False
                               (nodes σ !! nb)))| |done].
  - split; [done|]. intros; lia.
  - intros k σ' Hk [Hshape Hgood]. pose proof Hshape as [Hnodes Hlists].
    pose proof (wf_same_shape σ σ' Hwf Hshape) as Hwf'.
    destruct (lookup_lt_is_Some_2 (neighbors n) k) as [nb Hnb]; [done|].
    assert (nb ∈ neighbors n) as Hnb_in by (by eapply list_elem_of_lookup_2).
    destruct (proj1 (Forall_forall _ _) Hex nb Hnb_in) as [m Hm].
    apply wp_bind, wp_get_node. rewrite Hnodes, Hself.
    apply wp_bind, wp_or_raise. rewrite Hnb.
    assert (nodes σ' !! self = Some n) as Hself' by (by rewrite Hnodes).
    assert (nodes σ' !! nb = Some m) as Hm' by (by rewrite Hnodes).
    destruct (aligned_lookup σ' n (out_msgs n)
                (wf_aligned σ' self n Hwf' Hself'))
      as (out & Hout & Hlen); [apply elem_of_node_lists; auto|].
    apply wp_bind, wp_list_getitem. rewrite Hout.
    destruct (lookup_lt_is_Some_2 out k) as [o Ho]; [lia|]. rewrite Ho.
    unfold receiveMsg. apply wp_bind, wp_get_node. rewrite Hm'.
    apply wp_bind, wp_or_raise.
    destruct (py_index (neighbors m) self) as [idx|] eqn:Hidx; [|done].
    destruct (py_index_Some _ _ _ Hidx) as [Hat _].
    destruct (aligned_lookup σ' m (in_msgs m) (wf_aligned σ' nb m Hwf' Hm'))
      as (v & Hv & Hvlen); [apply elem_of_node_lists; auto|].
    apply wp_list_setitem. rewrite Hv.
    rewrite decide_True by (rewrite Hvlen; by eapply lookup_lt_Some).
    split.
    + etrans; [exact Hshape|]. split; [done|]. intros l. simpl.
      destruct (decide (in_msgs m = l)) as [<-|Hne].
      * rewrite lookup_insert_eq, Hv. simpl. by rewrite length_insert.
      * by rewrite lookup_insert_ne.
    + intros i nbi Hi Hnbi. destruct (decide (i = k)) as [->|Hik].
      * assert (nbi = nb) as -> by congruence. rewrite Hm. simpl.
        by eapply list_elem_of_lookup_2.
      * apply (Hgood i nbi); [lia|done].
  - intros [] σ' [Hshape Hgood]. split; [done|].
    apply Forall_forall. intros nb Hnb.
    apply list_elem_of_lookup in Hnb as [i Hi].
    apply (Hgood i nb); [by eapply lookup_lt_Some|done].
Qed.

(** X4 ([Node.sendMsg], [Node.receiveMsg]): in a store that satisfies the
    invariant, if some neighbor of [self] does not list [self] among its
    own neighbors, [sendMsg] raises [ValueError], whether or not a
    neighbor occurs twice; no node and the length of no list has
    changed. *)
Theorem X4_sendMsg_not_listed (self : loc) (σ : store) (n : Node)
    (nb : loc) (m : Node) :
  wf σ →
  nodes σ !! self = Some n →
  Forall (λ nb, is_Some (nodes σ !! nb)) (neighbors n) →
  nb ∈ neighbors n → nodes σ !! nb = Some m → self ∉ neighbors m →
  ∃ σ', sendMsg self σ = (Raise ValueError, σ') ∧ same_shape σ σ'.
Proof.
  intros Hwf Hself Hex Hnb Hm Hnot.
  pose proof (wp_sendMsg_nodes self σ n Hwf Hself Hex) as Hwp.
  unfold wp in Hwp. destruct (sendMsg self σ) as [[[]|e] σ'] eqn:Hrun.
  - destruct Hwp as [_ Hback]. destruct Hnot.
    by apply (listed_back_lookup σ self n nb m).
  - destruct Hwp as [-> Hshape]. by exists σ'.
Qed.

(** ** More on [Node.receiveMsg] and [Node.addNeighbors] *)

Lemma receiveMsg_run self sender msg σ n inp k :
  nodes σ !! self = Some n →
  lists σ !! in_msgs n = Some inp →
  py_index (neighbors n) sender = Some k →
  k < length inp →
  receiveMsg self sender msg σ
  = (Ok (), mkStore (nodes σ) (<[in_msgs n := <[k := msg]> inp]> (lists σ))).
Proof.
  intros Hself Hin Hk Hlt.
  unfold receiveMsg, mbind, M_bind, bind, get_node. rewrite Hself. simpl.
  rewrite Hk. simpl.
  unfold list_setitem, mbind, M_bind, bind, read_list. rewrite Hin. simpl.
  by rewrite decide_True.
Qed.

Lemma py_index_is_Some l x : x ∈ l → ∃ k, py_index l x = Some k ∧ k < length l.
Proof.
  intros Hx. destruct (py_index l x) as [k|] eqn:Hk.
  - exists k. split; [done|]. apply py_index_Some in Hk as [Hk _].
    by eapply lookup_lt_Some.
  - by apply py_index_None in Hk.
Qed.

Lemma py_index_app_new l x : x ∉ l → py_index (l ++ [x]) x = Some (length l).
Proof.
  induction l as [|y l IH]; intros Hx; simpl.
  - by rewrite decide_True.
  - apply not_elem_of_cons in Hx as [Hxy Hx].
    rewrite decide_False by congruence. by rewrite IH.
Qed.

(** X5 ([Node.receiveMsg]): a second message from the same sender
    replaces the first, and messages from two different senders give the
    same store in either order. *)
Theorem X5_receive_overwrites_and_commutes (self : loc) (σ : store) (n : Node)
    (inp : list Qc) (s1 s2 : loc) (v1 v2 : Qc) :
  nodes σ !! self = Some n →
  lists σ !! in_msgs n = Some inp →
  length inp = length (neighbors n) →
  s1 ∈ neighbors n → s2 ∈ neighbors n →
  (receiveMsg self s1 v1;; receiveMsg self s1 v2) σ = receiveMsg self s1 v2 σ ∧
  (s1 ≠ s2 →
   (receiveMsg self s1 v1;; receiveMsg self s2 v2) σ
   = (receiveMsg self s2 v2;; receiveMsg self s1 v1) σ).
Proof.
  intros Hself Hin Hlen Hs1 Hs2.
  destruct (py_index_is_Some _ _ Hs1) as (k1 & Hk1 & Hlt1).
  destruct (py_index_is_Some _ _ Hs2) as (k2 & Hk2 & Hlt2).
  assert (∀ s k v w,
            py_index (neighbors n) s = Some k → k < length (neighbors n) →
            receiveMsg self s v
              (mkStore (nodes σ) (<[in_msgs n := w]> (lists σ)))
            = (if decide (k < length w)
               then (Ok (), mkStore (nodes σ)
                              (<[in_msgs n := <[k := v]> w]> (lists σ)))
               else (Raise IndexError,
                     mkStore (nodes σ) (<[in_msgs n := w]> (lists σ)))))
    as Hsecond.
  { intros s k v w Hk Hlt.
    unfold receiveMsg, mbind, M_bind, bind, get_node. simpl. rewrite Hself.
    simpl. rewrite Hk. simpl.
    unfold list_setitem, mbind, M_bind, bind, read_list. simpl.
    rewrite lookup_insert_eq. simpl. case_decide; [|done].
    unfold write_list. simpl. by rewrite insert_insert_eq. }
  split.
  - rewrite (bind_Ok _ _ _ _ _
               (receiveMsg_run self s1 v1 σ n inp k1 Hself Hin Hk1 ltac:(lia))).
    rewrite (Hsecond s1 k1 v2 _ Hk1 Hlt1).
    rewrite decide_True by (rewrite length_insert; lia).
    rewrite list_insert_insert_eq.
    symmetry. apply receiveMsg_run; [done..|lia].
  - intros Hne.
    assert (k1 ≠ k2) as Hk.
    { intros ->. apply py_index_Some in Hk1 as [Hk1 _].
      apply py_index_Some in Hk2 as [Hk2 _]. congruence. }
    rewrite (bind_Ok _ _ _ _ _
               (receiveMsg_run self s1 v1 σ n inp k1 Hself Hin Hk1 ltac:(lia))).
    rewrite (bind_Ok _ _ _ _ _
               (receiveMsg_run self s2 v2 σ n inp k2 Hself Hin Hk2 ltac:(lia))).
    rewrite (Hsecond s2 k2 v2 _ Hk2 Hlt2), (Hsecond s1 k1 v1 _ Hk1 Hlt1).
    rewrite !decide_True by (rewrite length_insert; lia).
    by rewrite list_insert_insert_ne.
Qed.

(** X6 ([Node.receiveMsg]): when the sender occurs twice among the
    neighbors, [receiveMsg] returns without writing the slot of the later
    occurrence: a second edge between two nodes never receives a
    message. *)
Theorem X6_receive_first_edge_only (self : loc) (σ : store) (n : Node)
    (inp : list Qc) (sender : loc) (msg : Qc) (k k' : nat) :
  nodes σ !! self = Some n →
  lists σ !! in_msgs n = Some inp →
  length inp = length (neighbors n) →
  neighbors n !! k' = Some sender →
  neighbors n !! k = Some sender →
  k' < k →
  ∃ σ' inp',
    receiveMsg self sender msg σ = (Ok (), σ') ∧
    msgs_of in_msgs self σ' = Some inp' ∧
    inp' !! k = inp !! k.
Proof.
  intros Hself Hin Hlen Hk' Hk Hlt.
  destruct (py_index_is_Some (neighbors n) sender) as (k0 & Hk0 & Hlt0).
  { by eapply list_elem_of_lookup_2. }
  destruct (py_index_Some _ _ _ Hk0) as [_ Hfirst].
  assert (k0 ≠ k) as Hne.
  { intros ->. by apply (Hfirst k'). }
  eexists _, _. split_and!.
  - apply (receiveMsg_run self sender msg σ n inp k0); [done..|lia].
  - unfold msgs_of. simpl. rewrite Hself. simpl. apply lookup_insert_eq.
  - by apply list_lookup_insert_ne.
Qed.

(** X7 ([Node.addNeighbors]): on the node itself, [addNeighbors] returns,
    appends the node twice to its own neighbors and two zero slots to each
    of its three lists, and changes no other node. *)
Theorem X7_addNeighbors_self_loop (a : loc) (σ : store) (n : Node) :
  wf σ →
  nodes σ !! a = Some n →
  ∃ σ' n',
    addNeighbors a a σ = (Ok (), σ') ∧
    nodes σ' !! a = Some n' ∧
    neighbors n' = neighbors n ++ [a; a] ∧
    (∀ l, l ∈ node_lists n →
       lists σ' !! l = (λ v, v ++ [0%Qc; 0%Qc]) <$> lists σ !! l) ∧
    node_lists n' = node_lists n ∧
    (∀ b, b ≠ a → nodes σ' !! b = nodes σ !! b).
Proof.
  intros Hwf Ha.
  set (n1 := set_neighbors n (neighbors n ++ [a])).
  assert (nodes (grow σ a a n) !! a = Some n1) as Ha1 by apply lookup_insert_eq.
  exists (grow (grow σ a a n) a a n1), (set_neighbors n1 (neighbors n1 ++ [a])).
  split_and!.
  - apply wp_eq, wp_addNeighbors; [done|]. by rewrite Ha, Ha1.
  - apply lookup_insert_eq.
  - simpl. by rewrite <-app_assoc.
  - intros l Hl. pose proof (wf_NoDup σ a n Hwf Ha) as Hnd.
    rewrite grow_lookup_own by done. rewrite grow_lookup_own by done.
    rewrite <-option_fmap_compose. apply option_fmap_ext. intros v. simpl.
    by rewrite <-app_assoc.
  - done.
  - intros b Hb. simpl. by rewrite !lookup_insert_ne.
Qed.

(** X13 ([Node.addNeighbors], [Node.receiveMsg]): after a new edge from
    [a] to [b], where [b] was no neighbor of [a], the [in_msgs] of [a] is
    the old one with a zero appended, and a message that [a] receives
    from [b] replaces this zero. *)
Theorem X13_add_edge_then_receive (a b : loc) (σ : store) (n m : Node)
    (inp : list Qc) (msg : Qc) :
  wf σ →
  nodes σ !! a = Some n → nodes σ !! b = Some m → a ≠ b →
  lists σ !! in_msgs n = Some inp →
  b ∉ neighbors n →
  ∃ σ1 σ2,
    addNeighbors a b σ = (Ok (), σ1) ∧
    receiveMsg a b msg σ1 = (Ok (), σ2) ∧
    msgs_of in_msgs a σ1 = Some (inp ++ [0%Qc]) ∧
    msgs_of in_msgs a σ2 = Some (inp ++ [msg]).
Proof.
  intros Hwf Ha Hb Hab Hin Hnew.
  set (σ1 := grow (grow σ a b n) b a m).
  set (n1 := set_neighbors n (neighbors n ++ [b])).
  assert (nodes σ1 !! a = Some n1) as Ha1.
  { simpl. rewrite lookup_insert_ne by done. apply lookup_insert_eq. }
  assert (lists σ1 !! in_msgs n1 = Some (inp ++ [0%Qc])) as Hin1.
  { unfold σ1. simpl in_msgs.
    rewrite grow_lookup_other
      by (apply (wf_sep σ a b n m); [done..|apply elem_of_node_lists; auto]).
    rewrite grow_lookup_own;
      [|by eapply wf_NoDup|apply elem_of_node_lists; auto].
    by rewrite Hin. }
  assert (length inp = length (neighbors n)) as Hlen.
  { pose proof (wf_length σ a n (in_msgs n) Hwf Ha) as H.
    rewrite Hin in H. simpl in H.
    assert (in_msgs n ∈ node_lists n) as Hel by (apply elem_of_node_lists; auto).
    specialize (H Hel). by simplify_eq. }
  assert (addNeighbors a b σ = (Ok (), σ1)) as Hrun1
    by by apply addNeighbors_run.
  clearbody σ1.
  exists σ1, (mkStore (nodes σ1)
                (<[in_msgs n1 := <[length (neighbors n) := msg]> (inp ++ [0%Qc])]>
                   (lists σ1))).
  split_and!.
  - done.
  - apply (receiveMsg_run a b msg σ1 n1 (inp ++ [0%Qc]) (length (neighbors n)));
      [done|done|by apply py_index_app_new|].
    rewrite length_app. simpl. lia.
  - by rewrite (msgs_of_lookup in_msgs a σ1 n1).
  - unfold msgs_of. cbn [nodes lists]. rewrite Ha1. simpl.
    rewrite lookup_insert_eq.
    f_equal. rewrite <-Hlen. rewrite insert_app_r_alt by lia.
    by rewrite Nat.sub_diag.
Qed.

(** ** More on [message] *)

Lemma Qcabs_diag (x : Qc) : Qcabs (x - x) = 0%Qc.
Proof.
  replace (x - x)%Qc with 0%Qc by ring. by apply Qc_eq_this.
Qed.

(** A node whose [out_msgs] and [prev_out_msgs] hold the same values has
    converged. *)
Lemma checkConvergence_same self σ n out :
  nodes σ !! self = Some n →
  lists σ !! out_msgs n = Some out →
  lists σ !! prev_out_msgs n = Some out →
  checkConvergence self σ = (Ok true, σ).
Proof.
  intros Hself Hout Hprev.
  unfold checkConvergence, mbind, M_bind, bind, get_node, read_list.
  rewrite Hself. simpl. rewrite Hout. simpl.
  rewrite (checkConvergence_loop_run self σ n out out); [|done..|].
  - do 2 f_equal. apply bool_decide_eq_true, Forall_seq. intros i Hi.
    unfold slot_settled. rewrite Qcabs_diag. apply epsilon_nonneg.
  - apply Forall_seq. intros i Hi. lia.
Qed.

(** X9 ([message], [Node.checkConvergence]): with [damp = 1],
    [checkConvergence] returns [True] after [message], whatever the node
    received. *)
Theorem X9_damp_one_always_converged (self : loc) (σ : store) (n : Node)
    (out : list Qc) :
  nodes σ !! self = Some n →
  lists σ !! out_msgs n = Some out →
  damp n = 1%Qc →
  checkConvergence self (run_state (message self) σ)
  = (Ok true, run_state (message self) σ).
Proof.
  intros Hself Hout Hdamp.
  destruct (message_after self σ n out Hself Hout) as (oc & Hσ' & Hoc).
  pose proof (snapshot_ne_out σ n out Hout) as Hne.
  assert (oc = out) as ->.
  { symmetry. apply list_eq_Forall2. eapply Forall2_impl; [exact Hoc|].
    intros p v Hpv. rewrite Hdamp in Hpv. symmetry. by apply damped_one. }
  rewrite Hσ'.
  apply (checkConvergence_same self _ (snapshot_node σ n) out); simpl.
  - apply lookup_insert_eq.
  - apply lookup_insert_eq.
  - rewrite lookup_insert_ne by done. apply lookup_insert_eq.
Qed.

(** X8 ([Variable.message]): two calls of [message] in a row on one
    node of class Variable, with the same [in_msgs], both return; in every
    slot the second call moves [out_msgs] by [damp] times the move of the
    first.
    With [damp = 0] the second call leaves [out_msgs] as the first made it
    and the node has converged. *)
Theorem X8_Variable_message_twice (self : loc) (σ : store) (n : Node)
    (i j : Z) (inp out : list Qc) :
  nodes σ !! self = Some n →
  cls n = VariableNode i j →
  lists σ !! in_msgs n = Some inp →
  lists σ !! out_msgs n = Some out →
  in_msgs n ≠ out_msgs n →
  length out = length inp →
  ∃ σ1 σ2 out1 out2,
    message self σ = (Ok (), σ1) ∧
    message self σ1 = (Ok (), σ2) ∧
    msgs_of out_msgs self σ1 = Some out1 ∧
    msgs_of out_msgs self σ2 = Some out2 ∧
    msgs_of prev_out_msgs self σ2 = Some out1 ∧
    length out1 = length out ∧ length out2 = length out ∧
    (∀ k o0 o1 o2,
       out !! k = Some o0 → out1 !! k = Some o1 → out2 !! k = Some o2 →
       (o2 - o1 = damp n * (o1 - o0))%Qc) ∧
    (damp n = 0%Qc →
     out2 = out1 ∧ checkConvergence self σ2 = (Ok true, σ2)).
Proof.
  intros Hself Hcls Hin Hout Hsep Hlen.
  pose proof (snapshot_ne_out σ n out Hout) as Hne.
  assert (snapshot_loc σ ≠ in_msgs n) as Hne'.
  { intros Heq. pose proof (snapshot_fresh σ) as H. rewrite Heq in H. congruence. }
  set (σ1 := Variable_message_store self σ n inp out).
  set (n1 := snapshot_node σ n).
  set (out1 := Variable_new_out n inp out <$> seq 0 (length inp)).
  assert (nodes σ1 !! self = Some n1) as Hself1 by apply lookup_insert_eq.
  assert (lists σ1 !! in_msgs n1 = Some inp) as Hin1.
  { simpl. by rewrite !lookup_insert_ne. }
  assert (lists σ1 !! out_msgs n1 = Some out1) as Hout1 by apply lookup_insert_eq.
  assert (length out1 = length inp) as Hlen1.
  { unfold out1. by rewrite length_fmap, length_seq. }
  pose proof (snapshot_ne_out σ1 n1 out1 Hout1) as Hne1.
  set (σ2 := Variable_message_store self σ1 n1 inp out1).
  set (out2 := Variable_new_out n1 inp out1 <$> seq 0 (length inp)).
  assert (∀ k o0 o1 o2,
       out !! k = Some o0 → out1 !! k = Some o1 → out2 !! k = Some o2 →
       (o2 - o1 = damp n * (o1 - o0))%Qc) as Hstep.
  { intros k o0 o1 o2 Ho0 Ho1 Ho2.
    pose proof (lookup_lt_Some _ _ _ Ho0) as Hk.
    unfold out2 in Ho2. rewrite tabulate_lookup in Ho2 by lia.
    pose proof Ho1 as Ho1'.
    unfold out1 in Ho1. rewrite tabulate_lookup in Ho1 by lia.
    simplify_eq. unfold Variable_new_out at 1.
    rewrite (list_lookup_total_correct _ _ _ Ho1').
    unfold Variable_new_out.
    rewrite (list_lookup_total_correct _ _ _ Ho0). simpl. ring. }
  assert (msgs_of out_msgs self σ2 = Some out2) as Hm2.
  { unfold msgs_of. simpl. rewrite lookup_insert_eq. simpl.
    apply lookup_insert_eq. }
  assert (msgs_of prev_out_msgs self σ2 = Some out1) as Hp2.
  { unfold msgs_of. simpl. rewrite lookup_insert_eq. simpl.
    rewrite lookup_insert_ne by done. apply lookup_insert_eq. }
  exists σ1, σ2, out1, out2. split_and!; try done.
  - rewrite (message_Variable _ _ _ _ _ Hself Hcls).
    by apply Variable_message_run.
  - rewrite (message_Variable self σ1 n1 i j Hself1 Hcls).
    apply Variable_message_run; [done..|lia].
  - by rewrite (msgs_of_lookup out_msgs self σ1 n1).
  - lia.
  - unfold out2. rewrite length_fmap, length_seq. lia.
  - intros Hd.
    assert (out2 = out1) as Heq.
    { assert (length out2 = length inp) as Hlen2.
      { unfold out2. by rewrite length_fmap, length_seq. }
      apply list_eq_same_length with (length inp); [done|done|].
      intros k o2 o1 Hk Ho2 Ho1.
      destruct (lookup_lt_is_Some_2 out k) as [o0 Ho0]; [lia|].
      pose proof (Hstep k o0 o1 o2 Ho0 Ho1 Ho2) as H. rewrite Hd in H.
      rewrite Qcmult_0_l in H.
      replace o2 with (o2 - o1 + o1)%Qc by ring. rewrite H. ring. }
    split; [done|].
    apply (checkConvergence_same self σ2 (snapshot_node σ1 n1) out1).
    + apply lookup_insert_eq.
    + rewrite <-Heq. apply lookup_insert_eq.
    + simpl. rewrite lookup_insert_ne by done. apply lookup_insert_eq.
Qed.

Lemma Qcmin_0_nonpos (x : Qc) : (Qcmin 0 x ≤ 0)%Qc.
Proof.
  unfold Qcmin. case_decide; [by apply Qclt_le_weak|apply Qcle_refl].
Qed.

Lemma damped_nonpos (d p a : Qc) :
  (0 ≤ d)%Qc → (d ≤ 1)%Qc → (p ≤ 0)%Qc → (a ≤ 0)%Qc →
  (d * p + (1 - d) * a ≤ 0)%Qc.
Proof.
  intros Hd0 Hd1 Hp Ha.
  assert (0 ≤ 1 - d)%Qc as Hd1'.
  { apply Qcle_minus_iff in Hd1. by replace (1 - d)%Qc with (1 + - d)%Qc by ring. }
  assert (d * p ≤ 0)%Qc as H1.
  { rewrite <-(Qcmult_0_l d), (Qcmult_comm d p). by apply Qcmult_le_compat_r. }
  assert ((1 - d) * a ≤ 0)%Qc as H2.
  { rewrite <-(Qcmult_0_l (1 - d)), (Qcmult_comm (1 - d) a).
    by apply Qcmult_le_compat_r. }
  rewrite <-(Qcplus_0_l 0). by apply Qcplus_le_compat.
Qed.

(** X10 ([Factor.message], the last branch): a Factor node of any type
    other than IJ and JF takes the column-budget branch.  Where no
    integer among the operands and the results of the rule leaves the
    int64 range, every slot [j] of [out_msgs] becomes
    [damp * p + (1 - damp) * alpha], with the same
    [alpha = min(0, -reg + sum(max(dis_eta[k], 0) for all k))] for every
    [j]: the sum contains the term of the target [j] itself.  [alpha] is
    never positive, and with [0 <= damp <= 1] an [out_msgs] without
    positive entries stays so. *)
Theorem X10_column_budget_as_coded (self : loc) (σ : store) (n : Node)
    (d : ndarray) (r : Qc) (M N : nat) (i j0 : Z) (dis_eta out : list Qc) :
  nodes σ !! self = Some n →
  cls n = FactorNode d r M N →
  nodetype n ≠ "IJ"%string → nodetype n ≠ "JF"%string →
  nbr_index σ n 0 i j0 →
  is_dis_eta σ n d i dis_eta →
  lists σ !! out_msgs n = Some out →
  length out = length (neighbors n) →
  ∃ σ' out',
    message self σ = (Ok (), σ') ∧
    msgs_of out_msgs self σ' = Some out' ∧
    length out' = length out ∧
    (dis_eta_int64_safe σ n d i →
     column_budget_int64_safe r dis_eta →
     ∀ j p, out !! j = Some p →
       damping_int64_safe (damp n) p (column_budget_all r dis_eta) →
       out' !! j
       = Some (damp n * p + (1 - damp n) * column_budget_all r dis_eta)%Qc) ∧
    (∀ j e, dis_eta !! j = Some e →
       column_budget_all r dis_eta
       = Qcmin 0 (- r + (sum_for (others (length dis_eta) j)
                                 (λ k, Qcmax (dis_eta !!! k) 0)
                         + Qcmax e 0))%Qc) ∧
    (column_budget_all r dis_eta ≤ 0)%Qc ∧
    ((0 ≤ damp n)%Qc → (damp n ≤ 1)%Qc →
     Forall (λ p, (p ≤ 0)%Qc) out → Forall (λ p, (p ≤ 0)%Qc) out').
Proof.
  intros Hself Hcls Ht1 Ht2 Hnb Heta Hout Hlen.
  set (out' := IC_new_out n out r dis_eta <$> seq 0 (length (neighbors n))).
  assert (∀ j p, out !! j = Some p →
       out' !! j
       = Some (damp n * p + (1 - damp n) * column_budget_all r dis_eta)%Qc)
    as Hval.
  { intros j p Hp. pose proof (lookup_lt_Some _ _ _ Hp) as Hj.
    unfold out'. rewrite tabulate_lookup by lia.
    unfold IC_new_out, column_budget_all.
    by rewrite (list_lookup_total_correct _ _ _ Hp). }
  assert (length out' = length out) as Hlen'.
  { unfold out'. rewrite length_fmap, length_seq. lia. }
  exists (Factor_message_store self σ n out (IC_new_out n out r dis_eta)), out'.
  split_and!.
  - rewrite (message_Factor _ _ _ _ _ _ _ Hself Hcls).
    by apply (Factor_message_IC_run self σ n out d r Hself Hout Hlen i j0).
  - rewrite Factor_message_store_loop. by apply loop_store_out_msgs.
  - done.
  - intros _ _ j p Hp _. by apply Hval.
  - intros j e He. unfold column_budget_all.
    by rewrite (column_budget_all_loo dis_eta j e He).
  - apply Qcmin_0_nonpos.
  - intros Hd0 Hd1 Hall. apply Forall_lookup. intros j x Hx.
    destruct (lookup_lt_is_Some_2 out j) as [p Hp].
    { rewrite <-Hlen'. by eapply lookup_lt_Some. }
    rewrite (Hval j p Hp) in Hx. simplify_eq.
    apply damped_nonpos; [done|done| |apply Qcmin_0_nonpos].
    by apply (proj1 (Forall_lookup _ _) Hall j p).
Qed.

Lemma i_index_Factor s a v d r M N :
  nodes s !! a = Some v → cls v = FactorNode d r M N →
  i_index a s = (Raise AttributeError, s).
Proof.
  intros Hv Hc. unfold i_index, mbind, M_bind, bind, get_node.
  rewrite Hv. simpl. by rewrite Hc.
Qed.

Lemma j_index_Factor s a v d r M N :
  nodes s !! a = Some v → cls v = FactorNode d r M N →
  j_index a s = (Raise AttributeError, s).
Proof.
  intros Hv Hc. unfold j_index, mbind, M_bind, bind, get_node.
  rewrite Hv. simpl. by rewrite Hc.
Qed.

(** X11 ([Factor.message]): without neighbors [message] raises
    [IndexError]; if the first neighbor is a Factor node, which has no
    [i_index] and no [j_index], it raises [AttributeError]; on a
    pairwise-link node whose first neighbor has indices outside the matrix
    it raises [IndexError].  In each case the snapshot is taken already:
    [prev_out_msgs] is a copy of [out_msgs], and [out_msgs] is
    unchanged. *)
Theorem X11_Factor_message_errors (self : loc) (σ : store) (n : Node)
    (d : ndarray) (r : Qc) (M N : nat) (out : list Qc) :
  nodes σ !! self = Some n →
  cls n = FactorNode d r M N →
  lists σ !! out_msgs n = Some out →
  (neighbors n = [] →
   message self σ = (Raise IndexError, snapshot_store self σ n out)) ∧
  (∀ nb m d' r' M' N',
     neighbors n !! 0 = Some nb → nodes σ !! nb = Some m →
     cls m = FactorNode d' r' M' N' →
     message self σ = (Raise AttributeError, snapshot_store self σ n out)) ∧
  (∀ i j, nodetype n = "IJ"%string → nbr_index σ n 0 i j →
     np_get2 d i j = None →
     message self σ = (Raise IndexError, snapshot_store self σ n out)) ∧
  msgs_of out_msgs self (snapshot_store self σ n out) = Some out ∧
  msgs_of prev_out_msgs self (snapshot_store self σ n out) = Some out.
Proof.
  intros Hself Hcls Hout.
  rewrite (message_Factor _ _ _ _ _ _ _ Hself Hcls).
  pose proof (snapshot_store_self self σ n out) as Hs.
  pose proof (snapshot_ne_out σ n out Hout) as Hne.
  split_and!.
  - intros Hnil. by apply Factor_message_no_neighbor.
  - intros nb m d' r' M' N' Hnb Hm Hc.
    destruct (snapshot_store_node self σ n out Hself nb m Hm)
      as (m' & Hm' & Hc' & _).
    rewrite Hc in Hc'.
    apply wp_raises_eq. unfold Factor_message.
    apply (wp_Factor_snapshot self σ n out Hself Hout).
    repeat case_decide.
    + apply wp_bind. eapply wp_run_eq; [by eapply neighbor_run|].
      apply wp_bind. eapply wp_raises; [by eapply i_index_Factor|done].
    + apply wp_bind. eapply wp_run_eq; [by eapply neighbor_run|].
      apply wp_bind. eapply wp_raises; [by eapply j_index_Factor|done].
    + apply wp_bind. eapply wp_run_eq; [by eapply neighbor_run|].
      apply wp_bind. eapply wp_raises; [by eapply i_index_Factor|done].
  - intros i j Htype Hnb Hnone.
    apply (snapshot_store_nbr_index self σ n out Hself) in Hnb.
    destruct Hnb as (a & v & Ha & Hv & Hc).
    apply wp_raises_eq. unfold Factor_message.
    apply (wp_Factor_snapshot self σ n out Hself Hout).
    rewrite decide_True by done.
    apply wp_bind. eapply wp_run_eq; [by eapply neighbor_run|].
    apply wp_bind. eapply wp_run_eq; [by eapply i_index_run|].
    apply wp_bind. eapply wp_run_eq; [by eapply neighbor_run|].
    apply wp_bind. eapply wp_run_eq; [by eapply j_index_run|].
    apply wp_bind, wp_or_raise. by rewrite Hnone.
  - unfold msgs_of. rewrite Hs. simpl.
    rewrite lookup_insert_ne by done. done.
  - unfold msgs_of. rewrite Hs. simpl. apply lookup_insert_eq.
Qed.


(** ** Links that go both ways *)

Lemma linked_spec σ :
  linked σ ↔
  ∀ c nc nb, nodes σ !! c = Some nc → nb ∈ neighbors nc →
             ∃ m, nodes σ !! nb = Some m ∧ c ∈ neighbors m.
Proof.
  unfold linked, listed_back. split.
  - intros H c nc nb Hc Hnb.
    pose proof (proj1 (Forall_forall _ _) (H c nc Hc) nb Hnb) as Hb.
    simpl in Hb. destruct (nodes σ !! nb) as [m|]; [|done]. by exists m.
  - intros H c nc Hc. apply Forall_forall. intros nb Hnb.
    destruct (H c nc nb Hc Hnb) as (m & -> & Hm). done.
Qed.

(** A store with the same neighbors on every node is linked as well. *)
Lemma linked_same_neighbors σ σ' :
  (∀ a, neighbors <$> nodes σ' !! a = neighbors <$> nodes σ !! a) →
  linked σ → linked σ'.
Proof.
  intros Hsame Hlinked. apply linked_spec. intros c nc nb Hc Hnb.
  pose proof (Hsame c) as Hc'. rewrite Hc in Hc'. simpl in Hc'.
  destruct (nodes σ !! c) as [nc0|] eqn:Hc0; [|done].
  simpl in Hc'. assert (neighbors nc = neighbors nc0) as Heq by congruence.
  rewrite Heq in Hnb.
  destruct (proj1 (linked_spec σ) Hlinked c nc0 nb Hc0 Hnb) as (m & Hm & Hin).
  pose proof (Hsame nb) as Hnb'. rewrite Hm in Hnb'. simpl in Hnb'.
  destruct (nodes σ' !! nb) as [m'|]; [|done].
  exists m'. split; [done|]. simpl in Hnb'. congruence.
Qed.

Lemma linked_same_nodes σ σ' : nodes σ' = nodes σ → linked σ → linked σ'.
Proof. intros Heq. apply linked_same_neighbors. intros a. by rewrite Heq. Qed.

(** New links [K] that go both ways between nodes of the store. *)
Lemma linked_extend σ σ' (K : loc → list loc) :
  (∀ b, nodes σ !! b = None → nodes σ' !! b = None) →
  (∀ b m, nodes σ !! b = Some m →
     ∃ m', nodes σ' !! b = Some m' ∧ neighbors m' = neighbors m ++ K b) →
  (∀ c nb, is_Some (nodes σ !! c) → nb ∈ K c →
     is_Some (nodes σ !! nb) ∧ c ∈ K nb) →
  linked σ → linked σ'.
Proof.
  intros Hnone Hsome HK Hlinked. apply linked_spec. intros c nc nb Hc Hnb.
  destruct (nodes σ !! c) as [nc0|] eqn:Hc0;
    [|by rewrite (Hnone c Hc0) in Hc].
  destruct (Hsome c nc0 Hc0) as (nc' & Hc' & Hnc').
  assert (nc' = nc) as -> by congruence.
  rewrite Hnc' in Hnb. apply elem_of_app in Hnb as [Hold|Hnew].
  - destruct (proj1 (linked_spec σ) Hlinked c nc0 nb Hc0 Hold)
      as (m & Hm & Hin).
    destruct (Hsome nb m Hm) as (m' & Hm' & Hnm').
    exists m'. split; [done|]. rewrite Hnm'. apply elem_of_app. by left.
  - destruct (HK c nb) as [[m Hm] Hin]; [by rewrite Hc0|done|].
    destruct (Hsome nb m Hm) as (m' & Hm' & Hnm').
    exists m'. split; [done|]. rewrite Hnm'. apply elem_of_app. by right.
Qed.

(** A new node without neighbors. *)
Lemma linked_alloc σ σ' a n0 :
  nodes σ' = <[a := n0]> (nodes σ) → nodes σ !! a = None →
  neighbors n0 = [] → linked σ → linked σ'.
Proof.
  intros Hσ' Ha Hn0 Hlinked. apply linked_spec. intros c nc nb Hc Hnb.
  rewrite Hσ' in Hc. destruct (decide (c = a)) as [->|Hca].
  - rewrite lookup_insert_eq in Hc. simplify_eq. rewrite Hn0 in Hnb.
    by apply elem_of_nil in Hnb.
  - rewrite lookup_insert_ne in Hc by done.
    destruct (proj1 (linked_spec σ) Hlinked c nc nb Hc Hnb) as (m & Hm & Hin).
    exists m. split; [|done]. rewrite Hσ'.
    rewrite lookup_insert_ne; [done|congruence].
Qed.

Lemma linked_empty : linked empty_store.
Proof. apply map_Forall_empty. Qed.

(** The links of [Factor.__init__] go both ways. *)
Lemma edges_of_symmetric self vs c nb :
  nb ∈ edges_of self vs c → c ∈ edges_of self vs nb.
Proof.
  unfold edges_of. intros Hnb.
  assert (∀ x, x ∈ vs → self ∈ replicate (length (filter (λ v, v = x) vs)) self)
    as Hcount.
  { intros x Hx.
    assert (x ∈ filter (λ v, v = x) vs) as Hf by (by apply list_elem_of_filter).
    destruct (filter (λ v, v = x) vs); [by apply elem_of_nil in Hf|]. left. }
  assert (∀ x y, y ∈ replicate (length (filter (λ v, v = x) vs)) self →
                 y = self ∧ x ∈ vs) as Hrep.
  { intros x y Hy. apply elem_of_replicate in Hy as [-> Hlen]. split; [done|].
    destruct (filter (λ v, v = x) vs) as [|z l] eqn:Hf; [done|].
    assert (z ∈ filter (λ v, v = x) vs) as Hz by (rewrite Hf; left).
    apply list_elem_of_filter in Hz as [-> Hz]. done. }
  destruct (decide (c = self)) as [->|Hc].
  - destruct (decide (nb = self)) as [->|Hn]; [done|]. by apply Hcount.
  - apply Hrep in Hnb as [-> Hc']. by rewrite decide_True.
Qed.

Lemma edges_of_elem self vs c nb :
  nb ∈ edges_of self vs c → nb = self ∨ nb ∈ vs.
Proof.
  unfold edges_of. case_decide; [by right|].
  intros [-> _]%elem_of_replicate. by left.
Qed.

(** ** [sendMsg] over links that go both ways *)

Lemma wp_sendMsg_linked self σ n :
  wf σ → nodes σ !! self = Some n → listed_back σ self n →
  wp (sendMsg self) (λ _, same_shape σ) (λ _ _, False) σ.
Proof.
  intros Hwf Hself Hback.
  unfold sendMsg. apply wp_bind, wp_get_node. rewrite Hself.
  apply (wp_for_range (λ _, same_shape σ)); [done|].
  intros k σ' Hk Hshape. pose proof Hshape as [Hnodes Hlists].
  pose proof (wf_same_shape σ σ' Hwf Hshape) as Hwf'.
  destruct (lookup_lt_is_Some_2 (neighbors n) k) as [nb Hnb]; [done|].
  assert (nb ∈ neighbors n) as Hnb_in by (by eapply list_elem_of_lookup_2).
  destruct (nodes σ !! nb) as [m|] eqn:Hm;
    [|by destruct (listed_back_is_Some σ self n nb Hback Hnb_in)].
  pose proof (listed_back_lookup σ self n nb m Hback Hnb_in Hm) as Hin.
  apply wp_bind, wp_get_node. rewrite Hnodes, Hself.
  apply wp_bind, wp_or_raise. rewrite Hnb.
  assert (nodes σ' !! self = Some n) as Hself' by (by rewrite Hnodes).
  assert (nodes σ' !! nb = Some m) as Hm' by (by rewrite Hnodes).
  destruct (aligned_lookup σ' n (out_msgs n) (wf_aligned σ' self n Hwf' Hself'))
    as (out & Hout & Hlen); [apply elem_of_node_lists; auto|].
  apply wp_bind, wp_list_getitem. rewrite Hout.
  destruct (lookup_lt_is_Some_2 out k) as [o Ho]; [lia|]. rewrite Ho.
  unfold receiveMsg. apply wp_bind, wp_get_node. rewrite Hm'.
  apply wp_bind, wp_or_raise.
  destruct (py_index (neighbors m) self) as [idx|] eqn:Hidx;
    [|by apply py_index_None in Hidx].
  destruct (py_index_Some _ _ _ Hidx) as [Hat _].
  destruct (aligned_lookup σ' m (in_msgs m) (wf_aligned σ' nb m Hwf' Hm'))
    as (v & Hv & Hvlen); [apply elem_of_node_lists; auto|].
  apply wp_list_setitem. rewrite Hv.
  rewrite decide_True by (rewrite Hvlen; by eapply lookup_lt_Some).
  etrans; [exact Hshape|]. split; [done|]. intros l. simpl.
  destruct (decide (in_msgs m = l)) as [<-|Hne].
  - rewrite lookup_insert_eq, Hv. simpl. by rewrite length_insert.
  - by rewrite lookup_insert_ne.
Qed.

Lemma sendMsg_linked_run self σ n :
  wf σ → nodes σ !! self = Some n → listed_back σ self n →
  ∃ σ', sendMsg self σ = (Ok (), σ') ∧ same_shape σ σ'.
Proof.
  intros Hwf Hself Hback.
  pose proof (wp_sendMsg_linked self σ n Hwf Hself Hback) as Hwp.
  unfold wp in Hwp. destruct (sendMsg self σ) as [[[]|e] σ'] eqn:Hrun; [|done].
  by exists σ'.
Qed.

(** ** The calls keep the links *)

Lemma message_dangling self σ :
  nodes σ !! self = None → run_state (message self) σ = σ.
Proof.
  intros Hself. unfold run_state, message, mbind, M_bind, bind, get_node.
  by rewrite Hself.
Qed.

Lemma message_linked self σ : wf σ → linked σ → linked (run_state (message self) σ).
Proof.
  intros Hwf Hlinked. destruct (nodes σ !! self) as [n|] eqn:Hself;
    [|by rewrite message_dangling].
  destruct (aligned_lookup σ n (out_msgs n) (wf_aligned σ self n Hwf Hself))
    as (out & Hout & _); [apply elem_of_node_lists; auto|].
  destruct (message_after self σ n out Hself Hout) as (oc & -> & _).
  eapply linked_same_neighbors; [|exact Hlinked]. intros a. simpl.
  destruct (decide (a = self)) as [->|Hne].
  - by rewrite lookup_insert_eq, Hself.
  - by rewrite lookup_insert_ne.
Qed.

Lemma Node_init_linked c ty id dmp σ :
  linked σ → linked (run_state (Node_init c ty id dmp) σ).
Proof.
  intros Hlinked. rewrite Node_init_state.
  eapply linked_alloc; [done| |done|done].
  apply not_elem_of_dom, is_fresh.
Qed.

Lemma addNeighbors_linked a b σ :
  wf σ → linked σ → is_Some (nodes σ !! b) →
  linked (run_state (addNeighbors a b) σ).
Proof.
  intros Hwf Hlinked [m Hb].
  apply (wp_state _ linked), wp_addNeighbors; [done|].
  destruct (nodes σ !! a) as [n|] eqn:Ha; [|done].
  set (m1 := if decide (a = b) then set_neighbors n (neighbors n ++ [b]) else m).
  assert (nodes (grow σ a b n) !! b = Some m1) as ->.
  { simpl. unfold m1. case_decide as Hab.
    - subst b. apply lookup_insert_eq.
    - by rewrite lookup_insert_ne. }
  apply (linked_extend σ _
           (λ c, (if decide (c = a) then [b] else [])
                 ++ (if decide (c = b) then [a] else []))); [| | |done].
  - intros c Hc. simpl. rewrite !lookup_insert_ne; [done|congruence..].
  - intros c mc Hc. simpl. destruct (decide (c = b)) as [->|Hcb].
    + rewrite lookup_insert_eq. eexists. split; [done|]. simpl.
      unfold m1. assert (mc = m) as -> by congruence.
      destruct (decide (b = a)) as [->|Hba].
      * rewrite decide_True by done. assert (n = m) as -> by congruence.
        simpl. by rewrite <-app_assoc.
      * rewrite decide_False by congruence. done.
    + rewrite lookup_insert_ne by congruence.
      destruct (decide (c = a)) as [->|Hca].
      * rewrite lookup_insert_eq. eexists. split; [done|]. simpl.
        assert (mc = n) as -> by congruence. done.
      * rewrite lookup_insert_ne by congruence. exists mc. split; [done|].
        by rewrite app_nil_r.
  - intros c nb Hc Hnb. apply elem_of_app in Hnb as [Hnb|Hnb].
    + case_decide as Hca; [|by apply elem_of_nil in Hnb].
      apply list_elem_of_singleton in Hnb. subst c nb. split; [by rewrite Hb|].
      apply elem_of_app. right. rewrite decide_True by done. left.
    + case_decide as Hcb; [|by apply elem_of_nil in Hnb].
      apply list_elem_of_singleton in Hnb. subst c nb. split; [by rewrite Ha|].
      apply elem_of_app. left. rewrite decide_True by done. left.
Qed.

Lemma Factor_init_linked ty id vs d r dmp σ :
  wf σ → linked σ → Forall (λ v, is_Some (nodes σ !! v)) vs →
  linked (run_state (Factor_init ty id vs d r dmp) σ).
Proof.
  intros Hwf Hlinked Hvs.
  set (c := FactorNode d r (shape0 d) (shape1 d)).
  destruct (Node_init_store c ty id dmp σ Hwf) as (n0 & Ha & Ha0 & Hn0 & _ & Hold).
  pose proof (Node_init_wf c ty id dmp σ Hwf) as Hwf0.
  pose proof (Node_init_linked c ty id dmp σ Hlinked) as Hlinked0.
  pose proof (run_pair (Node_init c ty id dmp) σ) as Hinit.
  rewrite Node_init_run in Hinit.
  set (a := fresh (dom (nodes σ))) in *.
  set (σ0 := run_state (Node_init c ty id dmp) σ) in *.
  unfold run_state, Factor_init. fold c.
  destruct (decide (ty ∈ VALID_NODES)) as [Hty|Hty].
  - destruct (addNeighbors_fold a vs σ0 n0 Hwf0 Ha0)
      as (σ' & Hrun & Hwf' & Hnone & Hsome & Hrest).
    { eapply Forall_impl; [exact Hvs|]. intros v [m Hm]. simpl.
      split; [congruence|]. destruct (Hold v m Hm) as [-> _]. done. }
    rewrite (bind_Ok _ _ _ _ _ Hinit), (bind_Ok _ _ _ _ _ Hrun). simpl.
    apply (linked_extend σ0 σ' (edges_of a vs)); [done| | |done].
    + intros b m Hm. destruct (Hsome b m Hm) as [Hm' _]. eexists. by split.
    + intros b nb Hb Hnb. split; [|by apply edges_of_symmetric].
      apply edges_of_elem in Hnb as [->|Hnb]; [by rewrite Ha0|].
      destruct (proj1 (Forall_forall _ _) Hvs nb Hnb) as [m Hm].
      destruct (Hold nb m Hm) as [-> _]. done.
  - by rewrite (bind_Raise _ _ _ _ _ Hinit).
Qed.

Lemma run_call_linked c σ :
  wf σ → linked σ → call_closed σ c → linked (run_call c σ).
Proof.
  intros Hwf Hlinked Hc. destruct c; simpl in *.
  - by apply Node_init_linked.
  - by apply Factor_init_linked.
  - by apply addNeighbors_linked.
  - eapply linked_same_nodes; [|done].
    by apply (wp_state _ (same_shape σ)), wp_receiveMsg_shape.
  - eapply linked_same_nodes; [|done].
    by apply (wp_state _ (same_shape σ)), wp_sendMsg_shape.
  - by apply message_linked.
  - unfold run_state. by rewrite checkConvergence_read_only.
Qed.

Lemma built_wf_linked σ : built σ → wf σ ∧ linked σ.
Proof.
  induction 1 as [|σ c _ [Hwf Hlinked] Hc].
  - split; [apply wf_empty|apply linked_empty].
  - split; [by apply run_call_wf|by apply run_call_linked].
Qed.

(** X14 ([Node.sendMsg] on the graphs that the classes build): in a
    store built from the empty store by calls that pass nodes of the store
    to [addNeighbors] and to [Factor.__init__], the invariant holds, every
    link goes both ways, and [sendMsg] on any node returns; it changes no
    node and the length of no list, and the store it leaves is built in
    this way as well. *)
Theorem X14_built_graph_sendMsg (σ : store) (self : loc) :
  built σ → is_Some (nodes σ !! self) →
  wf σ ∧ linked σ ∧
  ∃ σ', sendMsg self σ = (Ok (), σ') ∧ same_shape σ σ' ∧ built σ'.
Proof.
  intros Hbuilt [n Hself]. destruct (built_wf_linked σ Hbuilt) as [Hwf Hlinked].
  split_and!; [done..|].
  destruct (sendMsg_linked_run self σ n Hwf Hself (Hlinked self n Hself))
    as (σ' & Hrun & Hshape).
  exists σ'. split_and!; [done..|].
  replace σ' with (run_call (Call_sendMsg self) σ)
    by (simpl; unfold run_state; by rewrite Hrun).
  by apply built_call.
Qed.

(** ** Inputs that [Factor.message] cannot read *)

(** A comprehension over reads raises as soon as one of them does. *)
Lemma wp_comprehension_raises {A} ks (f : nat → M A) e0 σ :
  (∀ k, k ∈ ks → wp (f k) (λ _ s, s = σ) (λ e s, e = e0 ∧ s = σ) σ) →
  (∃ k, k ∈ ks ∧ wp (f k) (λ _ _, False) (λ _ _, True) σ) →
  wp (comprehension ks f) (λ _ _, False) (λ e s, e = e0 ∧ s = σ) σ.
Proof.
  induction ks as [|k ks IH]; intros Hall (k0 & Hk0 & Hbad).
  - by apply elem_of_nil in Hk0.
  - simpl. apply wp_bind.
    pose proof (Hall k ltac:(left)) as Hk. unfold wp in Hk |- *.
    destruct (f k σ) as [[x|e] s] eqn:Hrun; [|done]. subst s.
    apply wp_bind.
    apply elem_of_cons in Hk0 as [->|Hk0].
    { unfold wp in Hbad. by rewrite Hrun in Hbad. }
    eapply wp_mono; [apply IH| |done].
    + intros k' Hk'. apply Hall. by right.
    + by exists k0.
    + done.
Qed.

Section Factor_inputs.
Variables (S : store) (self : loc) (ns : Node) (slot : nat).
Variable g : nat → option Qc.
Hypothesis Hself : nodes S !! self = Some ns.
Hypothesis Hnbrs : ∀ a, a ∈ neighbors ns →
  ∃ v l, nodes S !! a = Some v ∧ lists S !! in_msgs v = Some l.

Lemma wp_Factor_input k :
  k < length (neighbors ns) →
  wp (x ← neighbor_in_msg self k slot;
      y ← or_raise IndexError (g k);
      ret (x - y)%Qc)
     (λ _ s, s = S) (λ e s, e = IndexError ∧ s = S) S.
Proof.
  intros Hk. destruct (lookup_lt_is_Some_2 (neighbors ns) k) as [a Ha]; [done|].
  destruct (Hnbrs a) as (v & l & Hv & Hl); [by eapply list_elem_of_lookup_2|].
  apply wp_bind. unfold neighbor_in_msg, neighbor.
  apply wp_bind, wp_bind, wp_get_node. rewrite Hself.
  apply wp_or_raise. rewrite Ha.
  apply wp_bind, wp_get_node. rewrite Hv.
  apply wp_list_getitem. rewrite Hl.
  destruct (l !! slot) as [x|]; [|done].
  apply wp_bind, wp_or_raise. by destruct (g k).
Qed.

Lemma wp_Factor_input_raises k a v l :
  neighbors ns !! k = Some a → nodes S !! a = Some v →
  lists S !! in_msgs v = Some l →
  l !! slot = None ∨ g k = None →
  wp (x ← neighbor_in_msg self k slot;
      y ← or_raise IndexError (g k);
      ret (x - y)%Qc)
     (λ _ _, False) (λ _ _, True) S.
Proof.
  intros Ha Hv Hl Hbad.
  apply wp_bind. unfold neighbor_in_msg, neighbor.
  apply wp_bind, wp_bind, wp_get_node. rewrite Hself.
  apply wp_or_raise. rewrite Ha.
  apply wp_bind, wp_get_node. rewrite Hv.
  apply wp_list_getitem. rewrite Hl.
  destruct (l !! slot) as [x|]; [|done].
  apply wp_bind, wp_or_raise. destruct Hbad as [?| ->]; done.
Qed.

End Factor_inputs.

(** X16 ([Factor.message], inputs out of range): the row-uniqueness
    branch reads slot 1 of the [in_msgs] of every neighbor [k] and the
    entry [(k, j)] of the matrix, the last branch slot 2 and the entry
    [(i, k)].  In a store that satisfies the invariant, where the
    neighbors are nodes and the first one a Variable node, if some
    neighbor has too few [in_msgs] or its entry is outside the matrix,
    [message] raises [IndexError] after the snapshot, with [out_msgs]
    unchanged. *)
Theorem X16_Factor_message_missing_input (self : loc) (σ : store) (n : Node)
    (d : ndarray) (r : Qc) (M N : nat) (i j : Z) (out : list Qc)
    (k : nat) (a : loc) (v : Node) (l : list Qc) :
  wf σ →
  nodes σ !! self = Some n →
  cls n = FactorNode d r M N →
  nodetype n ≠ "IJ"%string →
  lists σ !! out_msgs n = Some out →
  Forall (λ a, is_Some (nodes σ !! a)) (neighbors n) →
  nbr_index σ n 0 i j →
  neighbors n !! k = Some a →
  nodes σ !! a = Some v →
  lists σ !! in_msgs v = Some l →
  (nodetype n = "JF"%string →
   length l ≤ 1 ∨ np_get2 d (Z.of_nat k) j = None) →
  (nodetype n ≠ "JF"%string →
   length l ≤ 2 ∨ np_get2 d i (Z.of_nat k) = None) →
  message self σ = (Raise IndexError, snapshot_store self σ n out) ∧
  msgs_of out_msgs self (snapshot_store self σ n out) = Some out.
Proof.
  intros Hwf Hself Hcls Htype Hout Hex Hnb Ha Hv Hl HJF HIC.
  pose proof (snapshot_store_self self σ n out) as Hs.
  pose proof (snapshot_ne_out σ n out Hout) as Hne.
  split; last first.
  { unfold msgs_of. rewrite Hs. simpl. by rewrite lookup_insert_ne. }
  rewrite (message_Factor _ _ _ _ _ _ _ Hself Hcls).
  apply (snapshot_store_nbr_index self σ n out Hself) in Hnb.
  destruct Hnb as (a0 & v0 & Ha0 & Hv0 & Hc0).
  assert (∀ b, b ∈ neighbors (snapshot_node σ n) →
            ∃ w lw, nodes (snapshot_store self σ n out) !! b = Some w ∧
                    lists (snapshot_store self σ n out) !! in_msgs w = Some lw)
    as Hnbrs.
  { intros b Hb. destruct (proj1 (Forall_forall _ _) Hex b Hb) as [w Hw].
    destruct (aligned_lookup σ w (in_msgs w) (wf_aligned σ b w Hwf Hw))
      as (lw & Hlw & _); [apply elem_of_node_lists; auto|].
    destruct (snapshot_store_node self σ n out Hself b w Hw)
      as (w' & Hw' & _ & Hin).
    exists w', lw. split; [done|]. rewrite Hin.
    by apply snapshot_store_list. }
  destruct (snapshot_store_node self σ n out Hself a v Hv)
    as (v' & Hv' & _ & Hin').
  assert (lists (snapshot_store self σ n out) !! in_msgs v' = Some l) as Hl'.
  { rewrite Hin'. by apply snapshot_store_list. }
  assert (k ∈ seq 0 (length (neighbors (snapshot_node σ n)))) as Hk.
  { apply elem_of_seq. split; [lia|]. simpl. by eapply lookup_lt_Some. }
  apply wp_raises_eq. unfold Factor_message.
  apply (wp_Factor_snapshot self σ n out Hself Hout).
  rewrite decide_False by done. case_decide as HJ.
  - apply wp_bind. eapply wp_run_eq; [by eapply neighbor_run|].
    apply wp_bind. eapply wp_run_eq; [by eapply j_index_run|].
    apply wp_bind.
    eapply wp_mono; [apply (wp_comprehension_raises _ _ IndexError)|done|done].
    + intros k' Hk'%elem_of_seq.
      apply (wp_Factor_input _ self (snapshot_node σ n) 1
               (λ k, np_get2 d (Z.of_nat k) j) Hs Hnbrs k'). lia.
    + exists k. split; [done|].
      apply (wp_Factor_input_raises _ self (snapshot_node σ n) 1
               (λ k, np_get2 d (Z.of_nat k) j) Hs k a v' l Ha Hv' Hl').
      destruct (HJF HJ) as [Hshort|Hnone]; [left|by right].
      apply lookup_ge_None. lia.
  - apply wp_bind. eapply wp_run_eq; [by eapply neighbor_run|].
    apply wp_bind. eapply wp_run_eq; [by eapply i_index_run|].
    apply wp_bind.
    eapply wp_mono; [apply (wp_comprehension_raises _ _ IndexError)|done|done].
    + intros k' Hk'%elem_of_seq.
      apply (wp_Factor_input _ self (snapshot_node σ n) 2
               (λ k, np_get2 d i (Z.of_nat k)) Hs Hnbrs k'). lia.
    + exists k. split; [done|].
      apply (wp_Factor_input_raises _ self (snapshot_node σ n) 2
               (λ k, np_get2 d i (Z.of_nat k)) Hs k a v' l Ha Hv' Hl').
      destruct (HIC HJ) as [Hshort|Hnone]; [left|by right].
      apply lookup_ge_None. lia.
Qed.


(** X17 ([Variable.message]): on a Variable node with at most one
    neighbor, [message] returns and every outgoing message becomes [damp]
    times its previous value: there is nothing to sum. *)
Theorem X17_Variable_message_few_neighbors (self : loc) (σ : store)
    (n : Node) (i j : Z) (inp out : list Qc) :
  nodes σ !! self = Some n →
  cls n = VariableNode i j →
  lists σ !! in_msgs n = Some inp →
  lists σ !! out_msgs n = Some out →
  in_msgs n ≠ out_msgs n →
  length out = length inp →
  length inp ≤ 1 →
  ∃ σ',
    message self σ = (Ok (), σ') ∧
    msgs_of out_msgs self σ' = Some ((λ p, damp n * p)%Qc <$> out) ∧
    msgs_of prev_out_msgs self σ' = Some out.
Proof.
  intros Hself Hcls Hin Hout Hsep Hlen Hfew.
  pose proof (snapshot_ne_out σ n out Hout) as Hne.
  exists (Variable_message_store self σ n inp out). split_and!.
  - rewrite (message_Variable _ _ _ _ _ Hself Hcls).
    by apply Variable_message_run.
  - unfold msgs_of. simpl. rewrite lookup_insert_eq. simpl.
    rewrite lookup_insert_eq. f_equal.
    destruct inp as [|x [|??]]; [| |simpl in Hfew; lia].
    + by destruct out.
    + destruct out as [|p [|??]]; try done. simpl. f_equal.
      unfold Variable_new_out. simpl. ring.
  - unfold msgs_of. simpl. rewrite lookup_insert_eq. simpl.
    rewrite lookup_insert_ne by done. apply lookup_insert_eq.
Qed.

(** * The further properties at work on the example graphs *)

(** A Variable node of type [X] in the empty store. *)
Lemma X1_Variable_init_witness :
  ∃ a σ' n, Variable_init "X" 0 0 0 (Qcz 0) empty_store = (Ok a, σ') ∧
            nodes σ' !! a = Some n ∧ neighbors n = [] ∧
            i_index a σ' = (Ok 0%Z, σ').
Proof.
  destruct (X1_Variable_init "X" 0 0 0 (Qcz 0) empty_store) as (_ & _ & H).
  destruct H as (a & σ' & n & Hrun & _ & Hn & _ & _ & _ & _ & Hnb & Hi & _).
  { apply (bool_decide_unpack _). by vm_compute. }
  exists a, σ', n. split_and!; [exact Hrun|exact Hn|exact Hnb|exact Hi].
Defined.

(** A column-budget Factor over the Variable node of [single_graph],
    given twice. *)
Lemma X2_Factor_init_witness :
  ∃ self σ' n,
    Factor_init "IC" 4 [0; 0] (mkArray [[Qcz 4]] 1) (Qcz 1) (Qcz 0) single_graph
      = (Ok self, σ') ∧
    nodes σ' !! self = Some n ∧ neighbors n = [0; 0] ∧
    msgs_of in_msgs self σ' = Some [0%Qc; 0%Qc].
Proof.
  destruct (X2_Factor_init "IC" 4 [0; 0] (mkArray [[Qcz 4]] 1) (Qcz 1) (Qcz 0) single_graph)
    as (_ & H).
  - apply (bool_decide_unpack _). by vm_compute.
  - repeat constructor; by vm_compute.
  - destruct H as (self & σ' & n & Hrun & _ & Hn & _ & _ & _ & _ & Hnb & Hin & _).
    { apply (bool_decide_unpack _). by vm_compute. }
    exists self, σ', n. split_and!; [exact Hrun|exact Hn|exact Hnb|exact Hin].
Defined.

(** The Variable node of (0,0) of [example_graph] sends to its three
    Factor nodes. *)
Lemma X3_sendMsg_delivers_witness :
  ∃ σ', sendMsg 0 example_graph = (Ok (), σ') ∧
        nodes σ' = nodes example_graph.
Proof.
  destruct (X3_sendMsg_delivers 0 example_graph
              (mkNode "X" 0 (Q2Qc (1 # 2)) [4; 6; 10] 0 1 2 (VariableNode 0 0))
              [Qcz 0; Qcz 0; Qcz 0])
    as (σ' & Hrun & Hnodes & _).
  - apply (bool_decide_unpack _). by vm_compute.
  - by vm_compute.
  - by vm_compute.
  - apply (bool_decide_unpack _). by vm_compute.
  - apply (bool_decide_unpack _). by vm_compute.
  - exists σ'. split; [exact Hrun|exact Hnodes].
Defined.

(** In [double_one_way_graph] node 0 lists node 1 twice and node 1 does
    not list node 0. *)
Lemma X4_sendMsg_not_listed_witness :
  ∃ σ', sendMsg 0 double_one_way_graph = (Raise ValueError, σ').
Proof.
  destruct (X4_sendMsg_not_listed 0 double_one_way_graph
              (mkNode "X" 0 (Qcz 0) [1; 1] 0 1 2 (VariableNode 0 0))
              1
              (mkNode "X" 1 (Qcz 0) [] 3 4 5 (VariableNode 0 1)))
    as (σ' & Hrun & _).
  - apply (bool_decide_unpack _). by vm_compute.
  - by vm_compute.
  - apply (bool_decide_unpack _). by vm_compute.
  - apply list_elem_of_lookup. by exists 0.
  - by vm_compute.
  - apply not_elem_of_nil.
  - exists σ'. exact Hrun.
Defined.

(** Two messages to the Variable node of (0,0) of [example_graph], from
    its row-uniqueness and its pairwise-link Factor, in both orders. *)
Lemma X5_receive_overwrites_and_commutes_witness :
  (receiveMsg 0 4 (Qcz 1);; receiveMsg 0 6 (Qcz 2)) example_graph
  = (receiveMsg 0 6 (Qcz 2);; receiveMsg 0 4 (Qcz 1)) example_graph.
Proof.
  destruct (X5_receive_overwrites_and_commutes 0 example_graph
              (mkNode "X" 0 (Q2Qc (1 # 2)) [4; 6; 10] 0 1 2 (VariableNode 0 0))
              [Qcz 2; Qcz (-1); Qcz 3] 4 6 (Qcz 1) (Qcz 2)) as [_ H].
  - by vm_compute.
  - by vm_compute.
  - reflexivity.
  - apply list_elem_of_lookup. by exists 0.
  - apply list_elem_of_lookup. by exists 1.
  - apply H. lia.
Defined.

(** In [double_edge_graph] the Variable node of (0,0) lists its
    row-uniqueness Factor in slots 0 and 3: slot 3 keeps its value. *)
Lemma X6_receive_first_edge_only_witness :
  ∃ σ' inp', receiveMsg 0 4 (Qcz 9) double_edge_graph = (Ok (), σ') ∧
             msgs_of in_msgs 0 σ' = Some inp' ∧
             inp' !! 3 = Some (Qcz 0).
Proof.
  destruct (X6_receive_first_edge_only 0 double_edge_graph
              (mkNode "X" 0 (Q2Qc (1 # 2)) [4; 6; 10; 4] 0 1 2
                 (VariableNode 0 0))
              [Qcz 2; Qcz (-1); Qcz 3; Qcz 0] 4 (Qcz 9) 3 0)
    as (σ' & inp' & Hrun & Hin & Hk).
  - by vm_compute.
  - by vm_compute.
  - reflexivity.
  - reflexivity.
  - reflexivity.
  - lia.
  - exists σ', inp'. split_and!; [exact Hrun|exact Hin|].
    rewrite Hk. reflexivity.
Defined.

(** An edge from the Variable node of (0,0) of [example_graph] to
    itself. *)
Lemma X7_addNeighbors_self_loop_witness :
  ∃ σ' n', addNeighbors 0 0 example_graph = (Ok (), σ') ∧
           nodes σ' !! 0 = Some n' ∧
           neighbors n' = [4; 6; 10; 0; 0].
Proof.
  destruct (X7_addNeighbors_self_loop 0 example_graph
              (mkNode "X" 0 (Q2Qc (1 # 2)) [4; 6; 10] 0 1 2 (VariableNode 0 0)))
    as (σ' & n' & Hrun & Hn' & Hnb & _).
  - apply (bool_decide_unpack _). by vm_compute.
  - by vm_compute.
  - exists σ', n'. split_and!; [exact Hrun|exact Hn'|exact Hnb].
Defined.

(** Two rounds of [message] on the Variable node of (0,0) of
    [example_graph]. *)
Lemma X8_Variable_message_twice_witness :
  ∃ σ1 σ2 out1 out2,
    message 0 example_graph = (Ok (), σ1) ∧
    message 0 σ1 = (Ok (), σ2) ∧
    msgs_of out_msgs 0 σ1 = Some out1 ∧
    msgs_of out_msgs 0 σ2 = Some out2 ∧
    length out1 = 3 ∧ length out2 = 3.
Proof.
  destruct (X8_Variable_message_twice 0 example_graph
              (mkNode "X" 0 (Q2Qc (1 # 2)) [4; 6; 10] 0 1 2 (VariableNode 0 0))
              0 0 [Qcz 2; Qcz (-1); Qcz 3] [Qcz 0; Qcz 0; Qcz 0])
    as (σ1 & σ2 & out1 & out2 & H1 & H2 & Ho1 & Ho2 & _ & Hl1 & Hl2 & _).
  - by vm_compute.
  - reflexivity.
  - by vm_compute.
  - by vm_compute.
  - by vm_compute.
  - reflexivity.
  - exists σ1, σ2, out1, out2.
    split_and!; [exact H1|exact H2|exact Ho1|exact Ho2|exact Hl1|exact Hl2].
Defined.

(** With [damp = 1] the Variable node of (0,0) of [example_graph_frozen]
    has converged after [message], whatever it received. *)
Lemma X9_damp_one_always_converged_witness :
  checkConvergence 0 (run_state (message 0) example_graph_frozen)
  = (Ok true, run_state (message 0) example_graph_frozen).
Proof.
  apply (X9_damp_one_always_converged 0 example_graph_frozen
           (mkNode "X" 0 (Qcz 1) [4; 6; 10] 0 1 2 (VariableNode 0 0))
           [Qcz 0; Qcz 0; Qcz 0]).
  - by vm_compute.
  - by vm_compute.
  - by apply Qc_eq_this.
Defined.

(** The column-budget Factor node of row 0 of [budget_graph] (address 10)
    has [dis_eta = [1, 1]] and [reg = 3]: both slots get
    [min(0, -3 + (1 + 1))]. *)
Lemma X10_column_budget_as_coded_witness :
  ∃ σ' out', message 10 budget_graph = (Ok (), σ') ∧
             msgs_of out_msgs 10 σ' = Some out' ∧ length out' = 2 ∧
             out' !! 0
             = Some (Qcz 0 * Qcz 0
                     + (1 - Qcz 0)
                       * column_budget_all (Qcz 3) [Qcz 1; Qcz 1])%Qc ∧
             Forall (λ p, (p ≤ 0)%Qc) out'.
Proof.
  destruct (X10_column_budget_as_coded 10 budget_graph
              (mkNode "IC" 10 (Qcz 0) [0; 1] 30 31 32
                 (FactorNode (mkArray [[Qcz 0; Qcz 0]; [Qcz 0; Qcz 0]] 2)
                    (Qcz 3) 2 2))
              (mkArray [[Qcz 0; Qcz 0]; [Qcz 0; Qcz 0]] 2) (Qcz 3) 2 2 0 0
              [Qcz 1; Qcz 1] [Qcz 0; Qcz 0])
    as (σ' & out' & Hrun & Hout & Hlen & Hval & _ & _ & Hneg).
  - by vm_compute.
  - reflexivity.
  - by vm_compute.
  - by vm_compute.
  - eexists _, _. split_and!; by vm_compute.
  - split; [reflexivity|]. intros [|[|k]] e He; simplify_eq/=.
    + eexists _, _. split_and!; [|by vm_compute|].
      * eexists _, _, _. split_and!; by vm_compute.
      * apply Qc_eq_this. by vm_compute.
    + eexists _, _. split_and!; [|by vm_compute|].
      * eexists _, _, _. split_and!; by vm_compute.
      * apply Qc_eq_this. by vm_compute.
  - by vm_compute.
  - reflexivity.
  - exists σ', out'. split_and!; [exact Hrun|exact Hout|exact Hlen| |].
    + apply (Hval) with (p := Qcz 0); [| |reflexivity|].
      * intros [|[|k]] Hk; [| |simpl in Hk; lia].
        -- eexists _, _. split_and!; [|by vm_compute| |].
           ++ eexists _, _, _. split_and!; by vm_compute.
           ++ apply (bool_decide_unpack _). by vm_compute.
           ++ apply (bool_decide_unpack _). by vm_compute.
        -- eexists _, _. split_and!; [|by vm_compute| |].
           ++ eexists _, _, _. split_and!; by vm_compute.
           ++ apply (bool_decide_unpack _). by vm_compute.
           ++ apply (bool_decide_unpack _). by vm_compute.
      * apply (bool_decide_unpack _). by vm_compute.
      * apply (bool_decide_unpack _). by vm_compute.
    + apply Hneg; [by vm_compute|by vm_compute|].
      repeat constructor; by vm_compute.
Defined.

(** [message] on the Factor node of [lonely_factor], which has no
    neighbor. *)
Lemma X11_Factor_message_errors_witness :
  ∃ σ', message 0 lonely_factor = (Raise IndexError, σ').
Proof.
  destruct (X11_Factor_message_errors 0 lonely_factor
              (mkNode "IJ" 0 (Qcz 0) [] 0 1 2
                 (FactorNode (mkArray [[Qcz 4]] 1) (Qcz 1) 1 1))
              (mkArray [[Qcz 4]] 1) (Qcz 1) 1 1 [])
    as (Hnil & _).
  - by vm_compute.
  - reflexivity.
  - by vm_compute.
  - eexists. apply Hnil. reflexivity.
Defined.


(** A new edge between the Variable nodes of (0,0) and (0,1) of
    [example_graph], and a message over it. *)
Lemma X13_add_edge_then_receive_witness :
  ∃ σ1 σ2,
    addNeighbors 0 1 example_graph = (Ok (), σ1) ∧
    receiveMsg 0 1 (Qcz 7) σ1 = (Ok (), σ2) ∧
    msgs_of in_msgs 0 σ2 = Some [Qcz 2; Qcz (-1); Qcz 3; Qcz 7].
Proof.
  destruct (X13_add_edge_then_receive 0 1 example_graph
              (mkNode "X" 0 (Q2Qc (1 # 2)) [4; 6; 10] 0 1 2 (VariableNode 0 0))
              (mkNode "X" 1 (Q2Qc (1 # 2)) [5; 7; 10] 3 4 5 (VariableNode 0 1))
              [Qcz 2; Qcz (-1); Qcz 3] (Qcz 7))
    as (σ1 & σ2 & H1 & H2 & _ & Hin).
  - apply (bool_decide_unpack _). by vm_compute.
  - by vm_compute.
  - by vm_compute.
  - lia.
  - by vm_compute.
  - cbn [neighbors]. rewrite !not_elem_of_cons. split_and!; try lia.
    apply not_elem_of_nil.
  - exists σ1, σ2. split_and!; [exact H1|exact H2|exact Hin].
Defined.

(** Two Variable nodes and an edge between them, call by call. *)
Lemma X14_built_graph_sendMsg_witness :
  ∃ σ', sendMsg 0 pair_graph = (Ok (), σ') ∧ same_shape pair_graph σ'.
Proof.
  destruct (X14_built_graph_sendMsg pair_graph 0)
    as (_ & _ & σ' & Hrun & Hshape & _).
  - unfold pair_graph. apply built_call; [apply built_call|].
    + apply built_call; [apply built_empty|exact I].
    + exact I.
    + cbn [call_closed]. apply (bool_decide_unpack _). by vm_compute.
  - apply (bool_decide_unpack _). by vm_compute.
  - exists σ'. split; [exact Hrun|exact Hshape].
Defined.


(** In [short_graph] the Variable nodes have one edge each: the
    row-uniqueness Factor node (address 2) cannot read their slot 1. *)
Lemma X16_Factor_message_missing_input_witness :
  ∃ σ', message 2 short_graph = (Raise IndexError, σ').
Proof.
  destruct (X16_Factor_message_missing_input 2 short_graph
              (mkNode "JF" 2 (Qcz 0) [0; 1] 6 7 8
                 (FactorNode (mkArray [[Qcz 0; Qcz 1]; [Qcz 1; Qcz 0]] 2) (Qcz 1) 2 2))
              (mkArray [[Qcz 0; Qcz 1]; [Qcz 1; Qcz 0]] 2) (Qcz 1) 2 2 0 0
              [Qcz 0; Qcz 0] 0 0
              (mkNode "X" 0 (Qcz 0) [2] 0 1 2 (VariableNode 0 0))
              [Qcz 0])
    as [Hrun _].
  - apply (bool_decide_unpack _). by vm_compute.
  - by vm_compute.
  - reflexivity.
  - by vm_compute.
  - by vm_compute.
  - apply (bool_decide_unpack _). by vm_compute.
  - eexists _, _. split_and!; by vm_compute.
  - reflexivity.
  - by vm_compute.
  - by vm_compute.
  - intros _. left. simpl. lia.
  - intros H. by destruct H.
  - eexists. exact Hrun.
Defined.

(** The Variable node of (0,0) of [short_graph] has one edge. *)
Lemma X17_Variable_message_few_neighbors_witness :
  ∃ σ', message 0 short_graph = (Ok (), σ') ∧
        msgs_of prev_out_msgs 0 σ' = Some [Qcz 0].
Proof.
  destruct (X17_Variable_message_few_neighbors 0 short_graph
              (mkNode "X" 0 (Qcz 0) [2] 0 1 2 (VariableNode 0 0))
              0 0 [Qcz 0] [Qcz 0])
    as (σ' & Hrun & _ & Hprev).
  - by vm_compute.
  - reflexivity.
  - by vm_compute.
  - by vm_compute.
  - by vm_compute.
  - reflexivity.
  - simpl. lia.
  - exists σ'. split; [exact Hrun|exact Hprev].
Defined.
